(** * SimilarPictureCleaner: grouping and reclamation of similar images

    A shallow embedding of [main.go]: the percentage parser, the loader
    ([loadImages], [loadImage]), the greedy grouping pass
    ([findSimilarImages]), the reclaimer ([deleteSimilarImages]) and
    [main], together with the properties of the design document that
    concern them and further properties read off the code.  The grouping
    pass is given twice: on lists, and on a heap where slices are
    pointers into backing arrays (module [Heap]), the second to show what
    the function writes.

    Go's [float64] is IEEE binary64; it is modelled by the Standard
    Library's [spec_float] at precision 53 and maximal exponent 1024, whose
    operations round to nearest even as Go's do.  A Go pair [(v, err)] is a
    pair whose second component is [None] for [nil]. *)

From Stdlib Require Import ZArith QArith Lia List String Sorted.
From Stdlib Require Import Floats.SpecFloat.
From stdpp Require Import base option list sorting gmap strings pretty.

Local Open Scope Z_scope.

(** ** Go values *)

(** A Go [error] value; [None] is [nil]. *)
Definition error := option string.

Definition nil_error : error := None.

(** [int64] arithmetic wraps around. *)
Definition wrap64 (z : Z) : Z := (z + 2 ^ 63) mod 2 ^ 64 - 2 ^ 63.

Definition add64 (x y : Z) : Z := wrap64 (x + y).

(** ** float64 *)

Module F64.

Definition prec : Z := 53.
Definition emax : Z := 1024.

Definition t := spec_float.

Definition nan : t := S754_nan.
Definition zero : t := S754_zero false.

(** Conversion [float64(n)] of an integer, rounding to nearest even. *)
Definition of_int (n : Z) : t := binary_normalize prec emax n 0 false.

Definition sub (x y : t) : t := SFsub prec emax x y.
Definition div (x y : t) : t := SFdiv prec emax x y.

(** Go's [x < y], [x > y] and [x >= y]: false as soon as one side is NaN. *)
Definition ltb (x y : t) : bool := SFltb x y.
Definition gtb (x y : t) : bool := SFltb y x.
Definition geb (x y : t) : bool := SFleb y x.

Definition valid (x : t) : bool := valid_binary prec emax x.

(** The exact rational value of a zero or finite float:
    [(-1)^s * m * 2^e]. *)
Definition to_Q (x : t) : option Q :=
  match x with
  | S754_zero _ => Some 0%Q
  | S754_finite s m e =>
      let n := if s then Zneg m else Zpos m in
      Some match e with
           | Zneg p => (n # 2 ^ p)%Q
           | _ => inject_Z (n * 2 ^ e)
           end
  | _ => None
  end.

(** The same value as a multiple of the least positive float,
    [2^-1074]. *)
Definition scaled (x : t) : Z :=
  match x with
  | S754_finite s m e => (if s then Zneg m else Zpos m) * 2 ^ (e + 1074)
  | _ => 0
  end.

End F64.

Abbreviation float64 := F64.t.

(** ** The data model *)

(** [ImageInfo]: a path and the perceptual hash computed for it.  The hash
    type belongs to the fingerprinting library and is a parameter. *)
Record ImageInfo (ImageHash : Type) : Type :=
  { Path : string; Hash : ImageHash }.

Arguments Path {ImageHash} _.
Arguments Hash {ImageHash} _.

(** [fmt.Println(a, b)] writes the operands separated by a space. *)
Definition println2 (a b : string) : string := (a ++ " " ++ b)%string.

(** What the grouping pass can see and touch of the caller's memory: the
    backing array of the [images] slice, and standard output. *)
Record World (ImageHash : Type) : Type :=
  { w_images : list (ImageInfo ImageHash); w_stdout : list string }.

Arguments w_images {ImageHash} _.
Arguments w_stdout {ImageHash} _.

(** ** Grouping: [findSimilarImages] *)

Section Grouping.

Context {ImageHash : Type}.

(** [h.Distance(other)] of the fingerprinting library. *)
Variable Distance : ImageHash -> ImageHash -> Z * error.

Abbreviation Image := (ImageInfo ImageHash).

(** [similarity := 1 - float64(distance)/64.0] *)
Definition similarity_of (distance : Z) : float64 :=
  F64.sub (F64.of_int 1) (F64.div (F64.of_int distance) (F64.of_int 64)).

(** [used[i]] on a [map[int]bool]: a missing key reads as [false]. *)
Definition used_get (used : gmap nat bool) (i : nat) : bool :=
  default false (used !! i).

(** The variables live across the inner loop. *)
Record Inner : Type :=
  { in_group : list Image; in_used : gmap nat bool; in_out : list string }.

(** One iteration of [for j := i + 1; j < len(images); j++].  Both index
    expressions are in range under the loop guards. *)
Definition inner_body (images : list Image) (similarityThreshold : float64)
    (i : nat) (st : Inner) (j : nat) : Inner :=
  if used_get (in_used st) j then st
  else
    match images !! i, images !! j with
    | Some imi, Some imj =>
        match Distance (Hash imi) (Hash imj) with
        | (_, Some err) =>
            {| in_group := in_group st;
               in_used := in_used st;
               in_out := in_out st ++ [println2 "Error calculating distance:" err] |}
        | (distance, None) =>
            let similarity := similarity_of distance in
            if F64.geb similarity similarityThreshold
            then {| in_group := in_group st ++ [imj];
                    in_used := <[j := true]> (in_used st);
                    in_out := in_out st |}
            else st
        end
    | _, _ => st
    end.

Definition inner_loop (images : list Image) (similarityThreshold : float64)
    (i : nat) (st : Inner) : Inner :=
  fold_left (inner_body images similarityThreshold i)
            (seq (S i) (length images - S i)) st.

(** The variables live across the outer loop. *)
Record Outer : Type :=
  { out_groups : list (list Image);
    out_used : gmap nat bool;
    out_stdout : list string }.

(** One iteration of [for i := 0; i < len(images); i++]. *)
Definition outer_body (images : list Image) (similarityThreshold : float64)
    (st : Outer) (i : nat) : Outer :=
  if used_get (out_used st) i then st
  else
    match images !! i with
    | Some imi =>
        let r := inner_loop images similarityThreshold i
                   {| in_group := [imi];
                      in_used := out_used st;
                      in_out := out_stdout st |} in
        {| out_groups :=
             if (1 <? length (in_group r))%nat
             then out_groups st ++ [in_group r]
             else out_groups st;
           out_used := in_used r;
           out_stdout := in_out r |}
    | None => st
    end.

Definition outer_loop (images : list Image) (similarityThreshold : float64)
    (st : Outer) : Outer :=
  fold_left (outer_body images similarityThreshold)
            (seq 0 (length images)) st.

Definition findSimilarImages (similarityThreshold : float64)
    (w : World ImageHash) : list (list Image) * World ImageHash :=
  let r := outer_loop (w_images w) similarityThreshold
             {| out_groups := []; out_used := ∅; out_stdout := w_stdout w |} in
  (out_groups r, {| w_images := w_images w; w_stdout := out_stdout r |}).

End Grouping.

(** ** The grouping pass on the heap

    [findSimilarImages] once more, with the slices of the source as Go has
    them in memory: a slice is a pointer into a backing array with a
    length and a capacity, a slice literal allocates its backing array,
    and [append] writes into the spare capacity of the backing array or
    moves the elements to a new one.  At this level it shows which cells
    of memory the function writes. *)

(** A slice header. *)
Record Slice : Type := { s_ptr : nat; s_len : nat; s_cap : nat }.

(** [var s []T]: the nil slice. *)
Definition nil_slice : Slice := {| s_ptr := 0; s_len := 0; s_cap := 0 |}.

Module Heap.

Section Cells.

Context {A : Type}.

(** The zero value of the element type, which fresh cells hold. *)
Variable zero : A.

(** How much capacity [append] adds beyond the element appended when it
    moves a slice of a given capacity: a choice of the Go runtime. *)
Variable slack : nat -> nat.

(** The cell at an address. *)
Definition cell (cells : gmap nat A) (p : nat) : A := default zero (cells !! p).

(** The elements of a slice. *)
Definition read (cells : gmap nat A) (s : Slice) : list A :=
  map (fun k => cell cells (s_ptr s + k)) (seq 0 (s_len s)).

(** [append(s, x)], with the memory allocated so far ending at [brk]: the
    element goes to the cell after the last when the capacity allows, and
    otherwise the elements are copied to a new backing array. *)
Definition append (cells : gmap nat A) (brk : nat) (s : Slice) (x : A)
    : Slice * gmap nat A * nat :=
  if (s_len s <? s_cap s)%nat then
    ({| s_ptr := s_ptr s; s_len := S (s_len s); s_cap := s_cap s |},
     <[(s_ptr s + s_len s)%nat := x]> cells,
     brk)
  else
    let cap := (S (s_len s) + slack (s_cap s))%nat in
    let moved :=
      fold_left (fun c k => <[(brk + k)%nat := cell cells (s_ptr s + k)]> c)
                (seq 0 (s_len s)) cells in
    ({| s_ptr := brk; s_len := S (s_len s); s_cap := cap |},
     <[(brk + s_len s)%nat := x]> moved,
     (brk + cap)%nat).

End Cells.

Section Grouping.

Context {ImageHash : Type}.

(** [h.Distance(other)] of the fingerprinting library, which reads the two
    hashes. *)
Variable Distance : ImageHash -> ImageHash -> Z * error.

(** The zero value [ImageInfo{}]. *)
Variable zero : ImageInfo ImageHash.

Variable slack : nat -> nat.

(** The memory of the program: the cells that hold images, the cells that
    hold slice headers, the end of the memory allocated so far, and
    standard output. *)
Record t : Type :=
  { h_images : gmap nat (ImageInfo ImageHash);
    h_slices : gmap nat Slice;
    h_brk : nat;
    h_stdout : list string }.

(** [s[i]] on a slice of images. *)
Definition index (h : t) (s : Slice) (i : nat) : ImageInfo ImageHash :=
  cell zero (h_images h) (s_ptr s + i).

(** The images of a slice, and the groups of a slice of slices. *)
Definition read_images (h : t) (s : Slice) : list (ImageInfo ImageHash) :=
  read zero (h_images h) s.

Definition read_groups (h : t) (s : Slice) : list (list (ImageInfo ImageHash)) :=
  map (read_images h) (read nil_slice (h_slices h) s).

(** [fmt.Println] *)
Definition println (h : t) (line : string) : t :=
  {| h_images := h_images h;
     h_slices := h_slices h;
     h_brk := h_brk h;
     h_stdout := h_stdout h ++ [line] |}.

(** [[]ImageInfo{x}]: a new backing array of one cell. *)
Definition literal (h : t) (x : ImageInfo ImageHash) : Slice * t :=
  ({| s_ptr := h_brk h; s_len := 1; s_cap := 1 |},
   {| h_images := <[h_brk h := x]> (h_images h);
      h_slices := h_slices h;
      h_brk := S (h_brk h);
      h_stdout := h_stdout h |}).

(** [append(group, x)] *)
Definition append_image (h : t) (s : Slice) (x : ImageInfo ImageHash) : Slice * t :=
  let '(s', cells, brk) := append zero slack (h_images h) (h_brk h) s x in
  (s', {| h_images := cells;
          h_slices := h_slices h;
          h_brk := brk;
          h_stdout := h_stdout h |}).

(** [append(groups, group)] *)
Definition append_group (h : t) (s : Slice) (group : Slice) : Slice * t :=
  let '(s', cells, brk) := append nil_slice slack (h_slices h) (h_brk h) s group in
  (s', {| h_images := h_images h;
          h_slices := cells;
          h_brk := brk;
          h_stdout := h_stdout h |}).

(** The variables live across the inner loop.  The map [used] is made by
    the call and no reference to it leaves the call. *)
Record Inner : Type :=
  { in_group : Slice; in_used : gmap nat bool; in_heap : t }.

(** One iteration of [for j := i + 1; j < len(images); j++]. *)
Definition inner_body (images : Slice) (similarityThreshold : float64)
    (i : nat) (st : Inner) (j : nat) : Inner :=
  if used_get (in_used st) j then st
  else
    let h := in_heap st in
    match Distance (Hash (index h images i)) (Hash (index h images j)) with
    | (_, Some err) =>
        {| in_group := in_group st;
           in_used := in_used st;
           in_heap := println h (println2 "Error calculating distance:" err) |}
    | (distance, None) =>
        let similarity := similarity_of distance in
        if F64.geb similarity similarityThreshold
        then
          let (group, h') := append_image h (in_group st) (index h images j) in
          {| in_group := group;
             in_used := <[j := true]> (in_used st);
             in_heap := h' |}
        else st
    end.

Definition inner_loop (images : Slice) (similarityThreshold : float64)
    (i : nat) (st : Inner) : Inner :=
  fold_left (inner_body images similarityThreshold i)
            (seq (S i) (s_len images - S i)) st.

(** The variables live across the outer loop. *)
Record Outer : Type :=
  { out_groups : Slice; out_used : gmap nat bool; out_heap : t }.

(** One iteration of [for i := 0; i < len(images); i++]. *)
Definition outer_body (images : Slice) (similarityThreshold : float64)
    (st : Outer) (i : nat) : Outer :=
  if used_get (out_used st) i then st
  else
    let (group, h) := literal (out_heap st) (index (out_heap st) images i) in
    let r := inner_loop images similarityThreshold i
               {| in_group := group; in_used := out_used st; in_heap := h |} in
    if (1 <? s_len (in_group r))%nat
    then
      let (groups, h') := append_group (in_heap r) (out_groups st) (in_group r) in
      {| out_groups := groups; out_used := in_used r; out_heap := h' |}
    else
      {| out_groups := out_groups st; out_used := in_used r; out_heap := in_heap r |}.

Definition outer_loop (images : Slice) (similarityThreshold : float64)
    (st : Outer) : Outer :=
  fold_left (outer_body images similarityThreshold)
            (seq 0 (s_len images)) st.

Definition findSimilarImages (images : Slice) (similarityThreshold : float64)
    (h : t) : Slice * t :=
  let r := outer_loop images similarityThreshold
             {| out_groups := nil_slice; out_used := ∅; out_heap := h |} in
  (out_groups r, out_heap r).

End Grouping.

Arguments t : clear implicits.

End Heap.

(** ** A 64-bit perceptual hash

    The hashes the program computes are 64-bit perception hashes; their
    distance is the Hamming distance, and hashes of different kinds do not
    compare.  This instance serves for the concrete runs below. *)

Module PHash.

Record t : Type := { kind : nat; bits : Z }.

Fixpoint popcount_pos (p : positive) : Z :=
  match p with
  | xH => 1
  | xO q => popcount_pos q
  | xI q => 1 + popcount_pos q
  end.

Definition popcount (z : Z) : Z :=
  match z with
  | Zpos p => popcount_pos p
  | _ => 0
  end.

Definition Distance (h other : t) : Z * error :=
  if Nat.eqb (kind h) (kind other)
  then (popcount (Z.lxor (bits h) (bits other)), None)
  else (-1, Some "Image hashes's kind should be identical"%string).

Definition phash (b : Z) : t := {| kind := 2; bits := b |}.

Definition img (p : string) (b : Z) : ImageInfo t :=
  {| Path := p; Hash := phash b |}.

End PHash.

(** ** The library sort behind [sort.Slice]

    [sort.Slice(x, less)] runs the pattern-defeating quicksort of the Go
    standard library (Go 1.19 and later) through two callbacks: [Less i j],
    the user's closure, and [Swap i j], which exchanges two elements of the
    slice in place.  The algorithm sees the data only through them, so it
    is written here over an arbitrary state [St] threaded through both. *)

Section PdqSort.

Local Open Scope nat_scope.

Context {St : Type}.

Definition M (A : Type) : Type := St -> A * St.

Definition ret {A : Type} (a : A) : M A := fun s => (a, s).

Definition bind {A B : Type} (c : M A) (k : A -> M B) : M B :=
  fun s => let (a, s') := c s in k a s'.

Notation "'let*' x ':=' c 'in' k" := (bind c (fun x => k))
  (at level 10, x name, c at level 99, k at level 200).
Notation "c ;;; k" := (bind c (fun _ => k))
  (at level 100, k at level 200, right associativity).

Record lessSwap : Type :=
  { Less : nat -> nat -> M bool; Swap : nat -> nat -> M unit }.

Variable data : lessSwap.

(** The generator of [breakPatterns]: one step of the library's xorshift
    on a 64-bit word. *)
Variable xorshift_next : Z -> Z.

Fixpoint for_each (l : list nat) (body : nat -> M unit) : M unit :=
  match l with
  | [] => ret tt
  | i :: l' => body i ;;; for_each l' body
  end.

(** [for j := i; j > a && data.Less(j, j-1); j-- { data.Swap(j, j-1) }] *)
Fixpoint insertion_shift (a j : nat) : M unit :=
  match j with
  | 0 => ret tt
  | S j' =>
      if a <? j then
        let* lt := Less data j j' in
        if lt then Swap data j j' ;;; insertion_shift a j' else ret tt
      else ret tt
  end.

Definition insertionSort_func (a b : nat) : M unit :=
  for_each (seq (a + 1) (b - (a + 1))) (insertion_shift a).

(** The loop of [siftDown]; [root] grows at every turn, so [hi] turns
    are enough. *)
Fixpoint siftDown_loop (fuel root hi first : nat) : M unit :=
  match fuel with
  | 0 => ret tt
  | S fuel' =>
      let child := 2 * root + 1 in
      if hi <=? child then ret tt
      else
        let* right := (if child + 1 <? hi
                  then Less data (first + child) (first + child + 1)
                  else ret false) in
        let child := if right then child + 1 else child in
        let* lt := Less data (first + root) (first + child) in
        if lt
        then Swap data (first + root) (first + child) ;;;
             siftDown_loop fuel' child hi first
        else ret tt
  end.

Definition siftDown_func (lo hi first : nat) : M unit :=
  siftDown_loop hi lo hi first.

Definition heapSort_func (a b : nat) : M unit :=
  let first := a in
  let lo := 0 in
  let hi := b - a in
  for_each (rev (seq 0 ((hi - 1) / 2 + 1)))
           (fun i => siftDown_func i hi first) ;;;
  for_each (rev (seq 0 hi))
           (fun i => Swap data first (first + i) ;;; siftDown_func lo i first).

(** [for i <= j && data.Less(i, a) { i++ }], at most [j + 1 - i] turns. *)
Fixpoint scan_less (fuel i j a : nat) : M nat :=
  match fuel with
  | 0 => ret i
  | S fuel' =>
      if i <=? j then
        let* lt := Less data i a in
        if lt then scan_less fuel' (i + 1) j a else ret i
      else ret i
  end.

(** [for i <= j && !data.Less(j, a) { j-- }] *)
Fixpoint scan_not_less (fuel i j a : nat) : M nat :=
  match fuel with
  | 0 => ret j
  | S fuel' =>
      if i <=? j then
        let* lt := Less data j a in
        if lt then ret j else scan_not_less fuel' i (j - 1) a
      else ret j
  end.

(** The unconditional [for] loop of [partition]. *)
Fixpoint partition_loop (fuel i j a : nat) : M (nat * nat) :=
  match fuel with
  | 0 => ret (i, j)
  | S fuel' =>
      let* i := scan_less (j + 1 - i) i j a in
      let* j := scan_not_less (j + 1 - i) i j a in
      if j <? i then ret (i, j)
      else Swap data i j ;;; partition_loop fuel' (i + 1) (j - 1) a
  end.

Definition partition_func (a b pivot : nat) : M (nat * bool) :=
  Swap data a pivot ;;;
  let i := a + 1 in
  let j := b - 1 in
  let* i := scan_less (j + 1 - i) i j a in
  let* j := scan_not_less (j + 1 - i) i j a in
  if j <? i then Swap data j a ;;; ret (j, true)
  else
    Swap data i j ;;;
    let* ij := partition_loop (j + 1 - i) (i + 1) (j - 1) a in
    Swap data (snd ij) a ;;;
    ret (snd ij, false).

(** [for i <= j && !data.Less(a, i) { i++ }] *)
Fixpoint scan_up_not_less (fuel i j a : nat) : M nat :=
  match fuel with
  | 0 => ret i
  | S fuel' =>
      if i <=? j then
        let* lt := Less data a i in
        if lt then ret i else scan_up_not_less fuel' (i + 1) j a
      else ret i
  end.

(** [for i <= j && data.Less(a, j) { j-- }] *)
Fixpoint scan_down_less (fuel i j a : nat) : M nat :=
  match fuel with
  | 0 => ret j
  | S fuel' =>
      if i <=? j then
        let* lt := Less data a j in
        if lt then scan_down_less fuel' i (j - 1) a else ret j
      else ret j
  end.

Fixpoint partitionEqual_loop (fuel i j a : nat) : M nat :=
  match fuel with
  | 0 => ret i
  | S fuel' =>
      let* i := scan_up_not_less (j + 1 - i) i j a in
      let* j := scan_down_less (j + 1 - i) i j a in
      if j <? i then ret i
      else Swap data i j ;;; partitionEqual_loop fuel' (i + 1) (j - 1) a
  end.

Definition partitionEqual_func (a b pivot : nat) : M nat :=
  Swap data a pivot ;;;
  partitionEqual_loop (b - a) (a + 1) (b - 1) a.

Inductive sortedHint : Type := unknownHint | increasingHint | decreasingHint.

(** [order2], [median] and [medianAdjacent] compare without moving data;
    [swaps] counts the pairs found out of order. *)
Definition order2_func (a b swaps : nat) : M (nat * nat * nat) :=
  let* lt := Less data b a in
  if lt then ret (b, a, swaps + 1) else ret (a, b, swaps).

Definition median_func (a b c swaps : nat) : M (nat * nat) :=
  let* r1 := order2_func a b swaps in
  let '(a, b, swaps) := r1 in
  let* r2 := order2_func b c swaps in
  let '(b, c, swaps) := r2 in
  let* r3 := order2_func a b swaps in
  let '(a, b, swaps) := r3 in
  ret (b, swaps).

Definition medianAdjacent_func (a swaps : nat) : M (nat * nat) :=
  median_func (a - 1) a (a + 1) swaps.

Definition shortestNinther : nat := 50.
Definition maxSwaps : nat := 4 * 3.

Definition choosePivot_func (a b : nat) : M (nat * sortedHint) :=
  let l := b - a in
  let swaps := 0 in
  let i := a + l / 4 * 1 in
  let j := a + l / 4 * 2 in
  let k := a + l / 4 * 3 in
  let* js :=
    (if 8 <=? l then
       let* ijk :=
         (if shortestNinther <=? l then
            let* r1 := medianAdjacent_func i swaps in
            let* r2 := medianAdjacent_func j (snd r1) in
            let* r3 := medianAdjacent_func k (snd r2) in
            ret (fst r1, fst r2, fst r3, snd r3)
          else ret (i, j, k, swaps)) in
       let '(i, j, k, swaps) := ijk in
       median_func i j k swaps
     else ret (j, swaps)) in
  let '(j, swaps) := js in
  if swaps =? 0 then ret (j, increasingHint)
  else if swaps =? maxSwaps then ret (j, decreasingHint)
  else ret (j, unknownHint).

(** [for i < j { data.Swap(i, j); i++; j-- }] *)
Fixpoint reverse_loop (fuel i j : nat) : M unit :=
  match fuel with
  | 0 => ret tt
  | S fuel' =>
      if i <? j then Swap data i j ;;; reverse_loop fuel' (i + 1) (j - 1)
      else ret tt
  end.

Definition reverseRange_func (a b : nat) : M unit :=
  reverse_loop (b - a) a (b - 1).

(** [for i < b && !data.Less(i, i-1) { i++ }] *)
Fixpoint scan_sorted (fuel i b : nat) : M nat :=
  match fuel with
  | 0 => ret i
  | S fuel' =>
      if i <? b then
        let* lt := Less data i (i - 1) in
        if lt then ret i else scan_sorted fuel' (i + 1) b
      else ret i
  end.

(** [for j := i - 1; j >= 1; j-- { if !data.Less(j, j-1) { break };
    data.Swap(j, j-1) }] *)
Fixpoint shift_left (j : nat) : M unit :=
  match j with
  | 0 => ret tt
  | S j' =>
      let* lt := Less data j j' in
      if lt then Swap data j j' ;;; shift_left j' else ret tt
  end.

(** [for j := i + 1; j < b; j++ { if !data.Less(j, j-1) { break };
    data.Swap(j, j-1) }] *)
Fixpoint shift_right (fuel j b : nat) : M unit :=
  match fuel with
  | 0 => ret tt
  | S fuel' =>
      if j <? b then
        let* lt := Less data j (j - 1) in
        if lt then Swap data j (j - 1) ;;; shift_right fuel' (j + 1) b
        else ret tt
      else ret tt
  end.

Definition maxSteps : nat := 5.
Definition shortestShifting : nat := 50.

Fixpoint partialInsertionSort_loop (steps i a b : nat) : M bool :=
  match steps with
  | 0 => ret false
  | S steps' =>
      let* i := scan_sorted (b - i) i b in
      if i =? b then ret true
      else if b - a <? shortestShifting then ret false
      else
        Swap data i (i - 1) ;;;
        (if 2 <=? i - a then shift_left (i - 1) else ret tt) ;;;
        (if 2 <=? b - i then shift_right (b - i) (i + 1) b else ret tt) ;;;
        partialInsertionSort_loop steps' i a b
  end.

Definition partialInsertionSort_func (a b : nat) : M bool :=
  partialInsertionSort_loop maxSteps (a + 1) a b.

(** [bits.Len(uint(n))] *)
Definition bits_Len (n : nat) : nat :=
  match n with
  | 0 => 0
  | _ => Nat.log2 n + 1
  end.

Definition nextPowerOfTwo (length : nat) : Z :=
  Z.shiftl 1 (Z.of_nat (bits_Len length)).

Fixpoint breakPatterns_loop (turns i : nat) (random modulus : Z)
    (idx a length : nat) : M unit :=
  match turns with
  | 0 => ret tt
  | S turns' =>
      let random := xorshift_next random in
      let other := Z.to_nat (Z.land random (modulus - 1)) in
      let other := if length <=? other then other - length else other in
      Swap data (idx + i) (a + other) ;;;
      breakPatterns_loop turns' (i + 1) random modulus idx a length
  end.

Definition breakPatterns_func (a b : nat) : M unit :=
  let length := b - a in
  if 8 <=? length then
    let random := Z.of_nat length in
    let modulus := nextPowerOfTwo length in
    let idx := a + (length / 4) * 2 - 1 in
    breakPatterns_loop 3 0 random modulus idx a length
  else ret tt.

Definition maxInsertion : nat := 12.

(** [pdqsort_func]: its [for] loop and its recursive call both become
    recursive calls; the two flags are the loop's variables.  Every turn
    of the loop and every call work on a strictly shorter range, so the
    depth never exceeds the initial length; [None] is an exhausted
    budget. *)
Fixpoint pdqsort_func (fuel a b limit : nat)
    (wasBalanced wasPartitioned : bool) (s : St) : option St :=
  match fuel with
  | 0 => None
  | S fuel' =>
      let length := b - a in
      if length <=? maxInsertion then Some (snd (insertionSort_func a b s))
      else if limit =? 0 then Some (snd (heapSort_func a b s))
      else
        let '(limit, s) :=
          if negb wasBalanced
          then (limit - 1, snd (breakPatterns_func a b s))
          else (limit, s) in
        let '((pivot, hint), s) := choosePivot_func a b s in
        let '((pivot, hint), s) :=
          match hint with
          | decreasingHint =>
              (((b - 1) - (pivot - a), increasingHint),
               snd (reverseRange_func a b s))
          | _ => ((pivot, hint), s)
          end in
        let '(sorted, s) :=
          match wasBalanced && wasPartitioned, hint with
          | true, increasingHint => partialInsertionSort_func a b s
          | _, _ => (false, s)
          end in
        if sorted then Some s
        else
          let '(equal, s) :=
            if 0 <? a
            then let '(lt, s) := Less data (a - 1) pivot s in (negb lt, s)
            else (false, s) in
          if equal then
            let '(mid, s) := partitionEqual_func a b pivot s in
            pdqsort_func fuel' mid b limit wasBalanced wasPartitioned s
          else
            let '((mid, alreadyPartitioned), s) := partition_func a b pivot s in
            let leftLen := mid - a in
            let rightLen := b - mid in
            let balanceThreshold := length / 8 in
            if leftLen <? rightLen then
              match pdqsort_func fuel' a mid limit true true s with
              | Some s =>
                  pdqsort_func fuel' (mid + 1) b limit
                    (balanceThreshold <=? leftLen) alreadyPartitioned s
              | None => None
              end
            else
              match pdqsort_func fuel' (mid + 1) b limit true true s with
              | Some s =>
                  pdqsort_func fuel' a mid limit
                    (balanceThreshold <=? rightLen) alreadyPartitioned s
              | None => None
              end
  end.

End PdqSort.

(** What [reflect.Swapper] returns: exchange [x[i]] and [x[j]] in place. *)
Definition swap_elems {A : Type} (x : list A) (i j : nat) : list A :=
  match x !! i, x !! j with
  | Some xi, Some xj => <[j := xi]> (<[i := xj]> x)
  | _, _ => x
  end.

(** [sort.Slice(x, less)].  The closure [less] may read the slice while it
    is being sorted, and may touch an environment [E] of its own. *)
Definition slice_data {A E : Type}
    (less : list A -> nat -> nat -> E -> bool * E) : @lessSwap (list A * E) :=
  {| Less := fun i j s =>
       let (lt, e) := less (fst s) i j (snd s) in (lt, (fst s, e));
     Swap := fun i j s => (tt, (swap_elems (fst s) i j, snd s)) |}.

Definition sort_Slice_run {A E : Type} (xorshift_next : Z -> Z)
    (less : list A -> nat -> nat -> E -> bool * E)
    (x : list A) (env : E) : option (list A * E) :=
  let length := length x in
  let limit := bits_Len length in
  pdqsort_func (slice_data less) xorshift_next (length + 1) 0 length limit
               true true (x, env).

(** The budget given above is never exhausted ([sort_Slice_run_total]
    below), so the default is never taken. *)
Definition sort_Slice {A E : Type} (xorshift_next : Z -> Z)
    (less : list A -> nat -> nat -> E -> bool * E)
    (x : list A) (env : E) : list A * E :=
  default (x, env) (sort_Slice_run xorshift_next less x env).

(** ** Reclamation: [deleteSimilarImages] and the loop of [main] *)

(** The file system and standard output. *)
Record Sys (FS : Type) : Type := { sys_fs : FS; sys_stdout : list string }.

Arguments sys_fs {FS} _.
Arguments sys_stdout {FS} _.

Section Reclaim.

Context {ImageHash FS : Type}.

Variable Distance : ImageHash -> ImageHash -> Z * error.

(** [os.Stat(path)] followed by [info.Size()], and [os.Remove(path)]. *)
Variable os_Stat : FS -> string -> Z * error.
Variable os_Remove : FS -> string -> FS * error.

(** The step of the pseudo-random generator with which the library sort
    breaks patterns in long slices. *)
Variable xorshift_next : Z -> Z.

Abbreviation Image := (ImageInfo ImageHash).

(** The closure passed to [sort.Slice]: it reads [group[i]], [group[j]]
    and [group[0]] from the slice being sorted. *)
Definition less_closure (group : list Image) (i j : nat)
    (out : list string) : bool * list string :=
  match group !! i, group !! 0%nat, group !! j with
  | Some gi, Some g0, Some gj =>
      match Distance (Hash gi) (Hash g0) with
      | (_, Some err) =>
          (false, out ++ [println2 "Error calculating distance:" err])
      | (distanceI, None) =>
          match Distance (Hash gj) (Hash g0) with
          | (_, Some err) =>
              (false, out ++ [println2 "Error calculating distance:" err])
          | (distanceJ, None) => (distanceI <? distanceJ, out)
          end
      end
  | _, _, _ => (false, out)
  end.

(** [for i := 1; i < len(group); i++], over the members still to visit. *)
Fixpoint delete_loop (rest : list Image) (totalSaved : Z) (fs : FS)
    : (Z * error) * FS :=
  match rest with
  | [] => ((totalSaved, nil_error), fs)
  | gi :: rest' =>
      match os_Stat fs (Path gi) with
      | (_, Some err) => ((0, Some err), fs)
      | (size, None) =>
          let totalSaved := add64 totalSaved size in
          match os_Remove fs (Path gi) with
          | (fs', Some err) => ((0, Some err), fs')
          | (fs', None) => delete_loop rest' totalSaved fs'
          end
      end
  end.

(** The result, the slice as the sort left it, and the system. *)
Definition deleteSimilarImages (group : list Image) (w : Sys FS)
    : (Z * error) * list Image * Sys FS :=
  let (sorted, out) := sort_Slice xorshift_next less_closure group (sys_stdout w) in
  let (r, fs) := delete_loop (drop 1 sorted) 0 (sys_fs w) in
  (r, sorted, {| sys_fs := fs; sys_stdout := out |}).

(** The deletion loop of [main]. *)
Fixpoint delete_groups (groups : list (list Image)) (totalSaved : Z)
    (w : Sys FS) : Z * Sys FS :=
  match groups with
  | [] => (totalSaved, w)
  | group :: groups' =>
      if (1 <? length group)%nat then
        let '(saved, err, _, w1) := deleteSimilarImages group w in
        match err with
        | Some e =>
            delete_groups groups' totalSaved
              {| sys_fs := sys_fs w1;
                 sys_stdout :=
                   sys_stdout w1 ++ [println2 "Error deleting images:" e] |}
        | None => delete_groups groups' (add64 totalSaved saved) w1
        end
      else delete_groups groups' totalSaved w
  end.

End Reclaim.

(** ** The driver: [parsePercentage] and [main] *)

Section Driver.

Context {ImageHash FS : Type}.

Variable Distance : ImageHash -> ImageHash -> Z * error.
Variable os_Stat : FS -> string -> Z * error.
Variable os_Remove : FS -> string -> FS * error.
Variable xorshift_next : Z -> Z.

(** [fmt.Sscanf(s, "%f", &percentage)]: the value left in [percentage]
    and the error. *)
Variable Sscanf_f : string -> float64 * error.

(** [loadImages(dir)]: the walk of the directory, decoding and hashing
    every image file found. *)
Variable loadImages : FS -> string -> list (ImageInfo ImageHash) * error.

Definition parsePercentage (percentageStr : string) : float64 * error :=
  match Sscanf_f percentageStr with
  | (_, Some err) => (F64.zero, Some err)
  | (percentage, None) =>
      if F64.ltb percentage F64.zero || F64.gtb percentage (F64.of_int 100)
      then (F64.zero, Some "percentage must be between 0 and 100"%string)
      else (F64.div percentage (F64.of_int 100), nil_error)
  end.

Definition println (w : Sys FS) (line : string) : Sys FS :=
  {| sys_fs := sys_fs w; sys_stdout := sys_stdout w ++ [line] |}.

(** The lines printed for the groups found. *)
Definition display (groups : list (list (ImageInfo ImageHash))) : list string :=
  flat_map (fun group => "Similar images:"%string :: map Path group ++ [""%string])
           groups.

(** [main], given the value of the [-d] flag and the remaining
    arguments. *)
Definition main (deleteFlag : bool) (args : list string) (w : Sys FS) : Sys FS :=
  if (length args <? 2)%nat then
    println w "Usage: go run main.go [-d] <directory> <similarity percentage>"
  else
    let dir := nth 0 args ""%string in
    match parsePercentage (nth 1 args ""%string) with
    | (_, Some err) => println w (println2 "Invalid similarity percentage:" err)
    | (similarityThreshold, None) =>
        match loadImages (sys_fs w) dir with
        | (_, Some err) => println w (println2 "Error loading images:" err)
        | (images, None) =>
            let (groups, gw) :=
              findSimilarImages Distance similarityThreshold
                {| w_images := images; w_stdout := sys_stdout w |} in
            let w1 := {| sys_fs := sys_fs w;
                         sys_stdout := w_stdout gw ++ display groups |} in
            if deleteFlag then
              let (totalSaved, w2) :=
                delete_groups Distance os_Stat os_Remove xorshift_next groups 0 w1 in
              println w2 ("Total space saved: " ++ pretty totalSaved ++ " bytes")
            else w1
        end
    end.

End Driver.

(** ** Loading: [loadImages] and [loadImage]

    [filepath.Walk] descends from a root with [os.Lstat] and the sorted
    names of every directory it meets.  What it finds is a finite tree:
    every entry carries the path under which the callback sees it (the
    root as given, below it [filepath.Join] of the directory and the
    name), and the entries of a directory come in the order of their
    names. *)

#[warnings="-register-all"] Inductive Tree : Type :=
| NoEntry (path : string) (err : string)
| Plain (path : string)
| Dir (path : string) (readdir : error) (entries : list Tree).

(** The pair [(info, err)] a callback of [filepath.Walk] is given: the
    info of the entry, with the error of reading its names when it is a
    directory that cannot be read, or no info and the error of
    [os.Lstat].  Of the info the program only asks [IsDir]. *)
Inductive walkArg : Type :=
| Info (IsDir : bool) (err : error)
| NoInfo (err : string).

(** [strings.HasSuffix] *)
Definition strings_HasSuffix (s suffix : string) : bool :=
  (String.length suffix <=? String.length s)%nat &&
  String.eqb (substring (String.length s - String.length suffix)
                        (String.length suffix) s) suffix.

Section Walking.

Context {St : Type}.

(** A [filepath.WalkFunc] that works on variables [St] of its
    environment. *)
Definition WalkFunc : Type := string -> walkArg -> St -> error * St.

(** [walk] of [path/filepath], with the entries the callback is shown in
    turn until it returns an error: the callback of [loadImages] returns
    the errors it is given and those of opening, decoding and hashing, and
    none of them is the sentinel [SkipDir] or [SkipAll], so that every
    error ends the walk. *)
Fixpoint walk (t : Tree) (walkFn : WalkFunc) (s : St) : error * St :=
  match t with
  | NoEntry path err => walkFn path (NoInfo err) s
  | Plain path => walkFn path (Info false nil_error) s
  | Dir path err entries =>
      let (err1, s1) := walkFn path (Info true err) s in
      match err, err1 with
      | None, None =>
          (fix walk_entries (l : list Tree) (s : St) : error * St :=
             match l with
             | [] => (nil_error, s)
             | t' :: l' =>
                 match walk t' walkFn s with
                 | (Some e, s') => (Some e, s')
                 | (None, s') => walk_entries l' s'
                 end
             end) entries s1
      | _, _ => (err1, s1)
      end
  end.

(** [filepath.Walk(root, fn)]: a root that [os.Lstat] does not find is
    shown to the callback like any other entry. *)
Definition filepath_Walk (root : Tree) (fn : WalkFunc) (s : St) : error * St :=
  walk root fn s.

End Walking.

Section Loading.

Context {ImageHash FS File GoImage : Type}.

(** What [filepath.Walk] finds at a root. *)
Variable os_Tree : FS -> string -> Tree.

(** [os.Open], the two decoders, and the nil [image.Image]. *)
Variable os_Open : FS -> string -> File * error.
Variable jpeg_Decode : File -> GoImage * error.
Variable png_Decode : File -> GoImage * error.
Variable nil_image : GoImage.

(** [goimagehash.PerceptionHash] *)
Variable PerceptionHash : GoImage -> ImageHash * error.

(** [strings.ToLower] *)
Variable strings_ToLower : string -> string.

(** [loadImage]; the deferred [file.Close()] has no part in the result. *)
Definition loadImage (fs : FS) (path : string) : GoImage * error :=
  match os_Open fs path with
  | (_, Some err) => (nil_image, Some err)
  | (file, None) =>
      if strings_HasSuffix (strings_ToLower path) ".jpg"
         || strings_HasSuffix (strings_ToLower path) ".jpeg"
      then jpeg_Decode file
      else if strings_HasSuffix (strings_ToLower path) ".png"
      then png_Decode file
      else (nil_image, Some "unsupported image format"%string)
  end.

(** The function literal passed to [filepath.Walk]; it appends to the
    variable [images] of [loadImages]. *)
Definition loadImages_func (fs : FS) : WalkFunc (St := list (ImageInfo ImageHash)) :=
  fun path arg images =>
    match arg with
    | NoInfo err => (Some err, images)
    | Info _ (Some err) => (Some err, images)
    | Info IsDir None =>
        if negb IsDir
           && (strings_HasSuffix (strings_ToLower path) ".jpg"
               || strings_HasSuffix (strings_ToLower path) ".jpeg"
               || strings_HasSuffix (strings_ToLower path) ".png")
        then
          match loadImage fs path with
          | (_, Some err) => (Some err, images)
          | (img, None) =>
              match PerceptionHash img with
              | (_, Some err) => (Some err, images)
              | (hash, None) =>
                  (nil_error, images ++ [{| Path := path; Hash := hash |}])
              end
          end
        else (nil_error, images)
    end.

Definition loadImages (fs : FS) (dir : string)
    : list (ImageInfo ImageHash) * error :=
  let (err, images) := filepath_Walk (os_Tree fs dir) (loadImages_func fs) [] in
  (images, err).

End Loading.

(** ** An in-memory file system

    Files have a size; a path can be protected against removal.  This
    instance serves for the concrete runs below. *)

Module MemFS.

Record t : Type := { files : gmap string Z; locked : gset string }.

Definition Stat (fs : t) (path : string) : Z * error :=
  match files fs !! path with
  | Some size => (size, nil_error)
  | None => (0, Some ("stat " ++ path ++ ": no such file or directory")%string)
  end.

Definition Remove (fs : t) (path : string) : t * error :=
  match files fs !! path with
  | Some _ =>
      if decide (path ∈ locked fs)
      then (fs, Some ("remove " ++ path ++ ": permission denied")%string)
      else ({| files := delete path (files fs); locked := locked fs |}, nil_error)
  | None => (fs, Some ("remove " ++ path ++ ": no such file or directory")%string)
  end.

Definition of_list (l : list (string * Z)) (protected : list string) : t :=
  {| files := list_to_map l; locked := list_to_set protected |}.

(** The paths present, in order. *)
Definition ls (fs : t) : list (string * Z) := map_to_list (files fs).

End MemFS.

(** ** Vocabulary of the properties *)

Section GroupingVocabulary.

Context {ImageHash : Type}.

Variable Distance : ImageHash -> ImageHash -> Z * error.

(** The test of the inner loop on a pair of hashes: the distance is
    defined and the similarity reaches the threshold. *)
Definition passes (similarityThreshold : float64) (h other : ImageHash) : bool :=
  match Distance h other with
  | (_, Some _) => false
  | (distance, None) => F64.geb (similarity_of distance) similarityThreshold
  end.

(** The same test on two positions of the input. *)
Definition similar_at (images : list (ImageInfo ImageHash))
    (similarityThreshold : float64) (i j : nat) : bool :=
  match images !! i, images !! j with
  | Some imi, Some imj => passes similarityThreshold (Hash imi) (Hash imj)
  | _, _ => false
  end.

(** The images found at a list of positions. *)
Definition pick (images : list (ImageInfo ImageHash)) (positions : list nat)
    : list (ImageInfo ImageHash) :=
  omap (fun i => images !! i) positions.

(** The inner loop of the source and the one on positions walk in step:
    the group holds the images at the positions collected. *)
Definition inner_rel (images : list (ImageInfo ImageHash)) (st : Inner) (pst : list nat * gmap nat bool) : Prop :=
  in_group st = pick images (fst pst) /\
  length (in_group st) = length (fst pst) /\
  in_used st = snd pst.

Definition outer_rel (images : list (ImageInfo ImageHash)) (st : Outer) (pst : list (list nat) * gmap nat bool) : Prop :=
  out_groups st = map (pick images) (fst pst) /\ out_used st = snd pst.

End GroupingVocabulary.

(** The grouping pass seen on positions: which positions are grouped
    depends only on a test [sim] on pairs of positions. *)
Section PositionView.

Variable sim : nat -> nat -> bool.

Definition ix_inner (i : nat) (st : list nat * gmap nat bool) (j : nat)
    : list nat * gmap nat bool :=
  if used_get (snd st) j then st
  else if sim i j then (fst st ++ [j], <[j := true]> (snd st))
  else st.

Definition ix_outer (n : nat) (st : list (list nat) * gmap nat bool) (i : nat)
    : list (list nat) * gmap nat bool :=
  if used_get (snd st) i then st
  else
    let r := fold_left (ix_inner i) (seq (S i) (n - S i)) ([i], snd st) in
    (if (1 <? length (fst r))%nat then fst st ++ [fst r] else fst st, snd r).

Definition ix_groups (n : nat) : list (list nat) :=
  fst (fold_left (ix_outer n) (seq 0 n) ([], ∅)).

(** What holds of the current group while the inner loop runs from the
    claimed set [U0]: its members after the anchor are distinct, lie
    beyond the anchor, pass the test against it, and are exactly the
    positions claimed since. *)
Definition inner_inv (n i : nat) (U0 : gmap nat bool)
    (st : list nat * gmap nat bool) : Prop :=
  exists rest,
    fst st = i :: rest /\
    NoDup rest /\
    (forall j, j ∈ rest ->
       (i < j < n)%nat /\ sim i j = true /\ used_get U0 j = false) /\
    (forall k, used_get (snd st) k = true <-> used_get U0 k = true \/ k ∈ rest).

(** What holds of the groups emitted before position [i]. *)
Definition outer_inv (n i : nat) (st : list (list nat) * gmap nat bool) : Prop :=
  NoDup (concat (fst st)) /\
  (forall k, k ∈ concat (fst st) ->
     ((k < i)%nat \/ used_get (snd st) k = true) /\ (k < n)%nat) /\
  (forall g, g ∈ fst st ->
     exists a rest, g = a :: rest /\ rest <> [] /\
       forall j, j ∈ rest -> (a < j)%nat /\ sim a j = true).

End PositionView.

(** The check behind the exactness of the similarity: the float computed
    for [d] is valid and its value is the rational [1 - d/64]. *)
Definition similarity_check (d : Z) : bool :=
  F64.valid (similarity_of d) &&
  match F64.to_Q (similarity_of d) with
  | Some q => Qeq_bool q (1 - inject_Z d / 64)
  | None => false
  end.

(** ** A stable insertion sort, as a specification *)

Section InsertionSpec.

Context {A : Type}.

Variable key : A -> Z.

(** Insert [x] into a list held in descending order of keys, past the
    elements whose key is greater and before the first whose key is not:
    in the reversed, ascending, list [x] lands behind its equals. *)
Fixpoint insert_desc (x : A) (rp : list A) : list A :=
  match rp with
  | [] => [x]
  | y :: rp' => if key x <? key y then y :: insert_desc x rp' else x :: rp
  end.

Definition insertion_sort (l : list A) : list A :=
  rev (fold_left (fun rp x => insert_desc x rp) l []).

(** The elements of [l] whose key is [k], in order. *)
Definition with_key (k : Z) (l : list A) : list A :=
  List.filter (fun x => key x =? k) l.

End InsertionSpec.

(** ** Vocabulary of reclamation *)

Section ReclaimVocabulary.

Context {FS : Type}.

Variable os_Stat : FS -> string -> Z * error.
Variable os_Remove : FS -> string -> FS * error.

(** Deleting [path] from [fs] fails with [e], at the stat or at the remove,
    and leaves [fs']. *)
Definition fails_at (fs : FS) (path : string) (e : string) (fs' : FS) : Prop :=
(snd (os_Stat fs path) = Some e /\ fs' = fs) \/
(snd (os_Stat fs path) = None /\ os_Remove fs path = (fs', Some e)).

End ReclaimVocabulary.

(** The distance to the anchor by which the closure of
    [deleteSimilarImages] compares two members. *)
Definition distance_to {ImageHash : Type}
    (Distance : ImageHash -> ImageHash -> Z * error)
    (anchor x : ImageInfo ImageHash) : Z :=
  fst (Distance (Hash x) (Hash anchor)).

(** What the insertion sort keeps true of the slice. *)
Definition anchored {ImageHash : Type} (anchor : ImageInfo ImageHash)
    (rest : list (ImageInfo ImageHash))
    (s : list (ImageInfo ImageHash) * list string) : Prop :=
  fst s !! 0%nat = Some anchor /\ fst s ≡ₚ anchor :: rest.

(** The check behind the thresholds of whole percentages: [n] passes the
    range test of [parsePercentage], and the threshold computed for it
    accepts a distance [d] exactly when [n/100 <= 1 - d/64]. *)
Definition percentage_check (n : Z) : bool :=
  negb (F64.ltb (F64.of_int n) F64.zero || F64.gtb (F64.of_int n) (F64.of_int 100)) &&
  forallb (fun d =>
             Bool.eqb (F64.geb (similarity_of d)
                               (F64.div (F64.of_int n) (F64.of_int 100)))
                      (64 * n <=? 100 * (64 - d)))
          (map Z.of_nat (seq 0 65)).

(** ** Vocabulary of the library sort *)

(** A computation of the sort keeps a property of the state. *)
Definition keeps {St A : Type} (P : St -> Prop) (c : M A) : Prop :=
  forall s : St, P s -> P (snd (c s)).

(** A line printed when a distance cannot be computed. *)
Definition distance_error_line (line : string) : Prop :=
  exists err : string, line = println2 "Error calculating distance:" err.

(** [out] is [out0] followed by lines about distances only. *)
Definition extends_with_errors (out0 out : list string) : Prop :=
  exists lines, out = out0 ++ lines /\ Forall distance_error_line lines.

(** ** Vocabulary of loading *)

(** The calls [filepath.Walk] makes on a tree for as long as the callback
    returns no error: every entry before what it contains, a directory
    that cannot be read without its entries. *)
Fixpoint visits (t : Tree) : list (string * walkArg) :=
  match t with
  | NoEntry path err => [(path, NoInfo err)]
  | Plain path => [(path, Info false nil_error)]
  | Dir path (Some err) _ => [(path, Info true (Some err))]
  | Dir path None entries => (path, Info true nil_error) :: flat_map visits entries
  end.

(** The callback over a list of calls, up to the first error. *)
Fixpoint run_calls {St : Type} (fn : WalkFunc) (calls : list (string * walkArg))
    (s : St) : error * St :=
  match calls with
  | [] => (nil_error, s)
  | (path, arg) :: calls' =>
      match fn path arg s with
      | (Some e, s') => (Some e, s')
      | (None, s') => run_calls fn calls' s'
      end
  end.

(** The paths of the entries that are not directories, in the order of
    the walk. *)
Definition plain_paths (t : Tree) : list string :=
  omap (fun call => match snd call with
                    | Info false None => Some (fst call)
                    | _ => None
                    end) (visits t).

(** Every entry is found, and every directory can be read. *)
Definition healthy (t : Tree) : Prop :=
  Forall (fun call => exists IsDir, snd call = Info IsDir nil_error) (visits t).

(** The test of [loadImages] on a path. *)
Definition image_suffix (strings_ToLower : string -> string) (path : string) : bool :=
  strings_HasSuffix (strings_ToLower path) ".jpg"
  || strings_HasSuffix (strings_ToLower path) ".jpeg"
  || strings_HasSuffix (strings_ToLower path) ".png".

(** The sizes of the files of a list of images, added up. *)
Definition total_size (fs : MemFS.t) {ImageHash : Type}
    (l : list (ImageInfo ImageHash)) : Z :=
  foldr (fun x acc => default 0 (MemFS.files fs !! Path x) + acc) 0 l.

(** ** Vocabulary of the heap *)

Section HeapVocabulary.

Local Open Scope nat_scope.

Context {ImageHash : Type}.

Variable zero : ImageInfo ImageHash.

(** The elements of a slice lie in the memory allocated so far. *)
Definition allocated (h : Heap.t ImageHash) (s : Slice) : Prop :=
  s_ptr s + s_len s <= Heap.h_brk h.

(** Every cell that [h] had allocated holds in [h'] what it held in [h],
    and is still allocated. *)
Definition untouched (h h' : Heap.t ImageHash) : Prop :=
  Heap.h_brk h <= Heap.h_brk h' /\
  forall p, p < Heap.h_brk h ->
    Heap.h_images h' !! p = Heap.h_images h !! p /\
    Heap.h_slices h' !! p = Heap.h_slices h !! p.

(** The inner loop on the heap and the one on lists walk in step: the
    group read from memory is the list, its backing array lies between
    the bound [B] and the end of the memory, and below the bound the
    memory is as in [href]. *)
Definition heap_inner_rel (B : nat) (href : Heap.t ImageHash)
    (st : Heap.Inner) (pst : Inner) : Prop :=
  Heap.in_used st = in_used pst /\
  Heap.h_stdout (Heap.in_heap st) = in_out pst /\
  Heap.read_images zero (Heap.in_heap st) (Heap.in_group st) = in_group pst /\
  B <= s_ptr (Heap.in_group st) /\
  s_ptr (Heap.in_group st) + s_cap (Heap.in_group st)
    <= Heap.h_brk (Heap.in_heap st) /\
  s_len (Heap.in_group st) <= s_cap (Heap.in_group st) /\
  (forall p, p < B ->
     Heap.h_images (Heap.in_heap st) !! p = Heap.h_images href !! p) /\
  Heap.h_slices (Heap.in_heap st) = Heap.h_slices href /\
  B <= Heap.h_brk (Heap.in_heap st).

(** The same for the outer loop: the groups read from memory are the
    lists, the slice of groups and the groups lie between the end of the
    memory the call found, [h0], and the end of the memory now, and what
    [h0] had allocated is untouched. *)
Definition heap_outer_rel (h0 : Heap.t ImageHash)
    (st : Heap.Outer) (pst : Outer) : Prop :=
  Heap.out_used st = out_used pst /\
  Heap.h_stdout (Heap.out_heap st) = out_stdout pst /\
  Heap.read_groups zero (Heap.out_heap st) (Heap.out_groups st) = out_groups pst /\
  untouched h0 (Heap.out_heap st) /\
  s_len (Heap.out_groups st) <= s_cap (Heap.out_groups st) /\
  s_ptr (Heap.out_groups st) + s_cap (Heap.out_groups st)
    <= Heap.h_brk (Heap.out_heap st) /\
  (s_len (Heap.out_groups st) < s_cap (Heap.out_groups st) ->
   Heap.h_brk h0 <= s_ptr (Heap.out_groups st)) /\
  Forall (fun g => s_ptr g + s_len g <= Heap.h_brk (Heap.out_heap st))
         (Heap.read nil_slice (Heap.h_slices (Heap.out_heap st))
                    (Heap.out_groups st)).

End HeapVocabulary.

(** ** Concrete inputs *)

Module Demo.

(** The thresholds [parsePercentage] computes for 75 and for 80. *)
Definition t75 : float64 := F64.div (F64.of_int 75) (F64.of_int 100).
Definition t80 : float64 := F64.div (F64.of_int 80) (F64.of_int 100).

(** Four images: [b] and [c] are 16 bits away from [a] and 32 bits away
    from each other; [d] is at least 48 bits away from all three. *)
Definition a := PHash.img "a.jpg" 0.
Definition b := PHash.img "b.jpg" (2 ^ 16 - 1).
Definition c := PHash.img "c.jpg" (2 ^ 32 - 2 ^ 16).
Definition d := PHash.img "d.jpg" (2 ^ 64 - 1).

Definition album : World PHash.t :=
  {| w_images := [a; b; c; d]; w_stdout := [] |}.

(** An image hashed with another kind of hash: its distance to the others
    is an error. *)
Definition odd : ImageInfo PHash.t :=
  {| Path := "odd.png"; Hash := {| PHash.kind := 1; PHash.bits := 0 |} |}.

(** A disk holding the four images and four more, where [c.jpg] cannot be
    removed. *)
Definition disk : MemFS.t :=
  MemFS.of_list
    [("a.jpg", 1000); ("b.jpg", 2000); ("c.jpg", 3000); ("d.jpg", 4000);
     ("e.jpg", 500); ("f.jpg", 600); ("g.jpg", 700); ("h.jpg", 800)]%string
    ["c.jpg"%string].

(** Three groups over that disk; the second is the one with [c.jpg]. *)
Definition three_groups : list (list (ImageInfo PHash.t)) :=
  [ [PHash.img "e.jpg" 256; PHash.img "f.jpg" 257];
    [a; b; c];
    [PHash.img "g.jpg" 1024; PHash.img "h.jpg" 1025] ].

(** A burst of thirteen shots: the second is one bit away from the first,
    the third two bits, and so on, the last two being met in the opposite
    order by the walk. *)
Definition burst : list (ImageInfo PHash.t) :=
  [ PHash.img "p00" 0; PHash.img "p01" 1; PHash.img "p02" 3;
    PHash.img "p03" 7; PHash.img "p04" 15; PHash.img "p05" 31;
    PHash.img "p06" 63; PHash.img "p07" 127; PHash.img "p08" 255;
    PHash.img "p09" 511; PHash.img "p10" 1023; PHash.img "p11" 4095;
    PHash.img "p12" 2047 ].

(** A disk holding the burst; each file has its own size. *)
Definition burst_disk : MemFS.t :=
  MemFS.of_list (map (fun im => (Path im, 1000 + PHash.bits (Hash im))) burst) [].

(** A generator for the concrete runs: the 64-bit xorshift with the shift
    triple 13, 7, 17. *)
Definition next (r : Z) : Z :=
  let r := Z.lxor r (Z.shiftl r 13 mod 2 ^ 64) in
  let r := Z.lxor r (Z.shiftr r 7) in
  Z.lxor r (Z.shiftl r 17 mod 2 ^ 64).

(** A scanner that knows two inputs: [NaN], which [fmt.Sscanf] reads with
    the verb [%f] as the float NaN, and [80]. *)
Definition scan (s : string) : float64 * error :=
  if String.eqb s "NaN" then (F64.nan, nil_error)
  else if String.eqb s "80" then (F64.of_int 80, nil_error)
  else (F64.zero, Some "expected integer"%string).

(** A loader that finds the burst whatever the directory. *)
Definition load (fs : MemFS.t) (dir : string) : list (ImageInfo PHash.t) * error :=
  (burst, nil_error).

(** A directory as [filepath.Walk] finds it: three image files, one of
    them with an upper-case suffix, a text file, and a directory whose
    name ends in [.jpg]. *)
Definition shoebox : Tree :=
  Dir "box" nil_error
    [ Plain "box/a.jpg";
      Plain "box/b.PNG";
      Dir "box/c.jpg" nil_error [Plain "box/c.jpg/notes.txt"];
      Plain "box/d.jpeg";
      Plain "box/readme.txt" ].

(** The same directory when the walk cannot read [box/c.jpg]. *)
Definition locked_shoebox : Tree :=
  Dir "box" nil_error
    [ Plain "box/a.jpg";
      Plain "box/b.PNG";
      Dir "box/c.jpg" (Some "open box/c.jpg: permission denied"%string) [];
      Plain "box/d.jpeg" ].

(** [strings.ToLower] on ASCII text. *)
Definition lower_ascii (c : Ascii.ascii) : Ascii.ascii :=
  let n := Ascii.nat_of_ascii c in
  if (65 <=? n)%nat && (n <=? 90)%nat then Ascii.ascii_of_nat (n + 32) else c.

Fixpoint lower (s : string) : string :=
  match s with
  | EmptyString => EmptyString
  | String c s' => String (lower_ascii c) (lower s')
  end.

(** Files hold a number, which stands for their pixels; a file of an even
    number is a JPEG file, a file of an odd number a PNG file, and the hash
    of an image is its number. *)
Definition open (fs : MemFS.t) (path : string) : Z * error :=
  match MemFS.files fs !! path with
  | Some content => (content, nil_error)
  | None => (0, Some ("open " ++ path ++ ": no such file or directory")%string)
  end.

Definition jpeg (content : Z) : Z * error :=
  if Z.even content then (content, nil_error)
  else (0, Some "invalid JPEG format: missing SOI marker"%string).

Definition png (content : Z) : Z * error :=
  if Z.odd content then (content, nil_error)
  else (0, Some "png: invalid format: not a PNG file"%string).

Definition hash (img : Z) : PHash.t * error := (PHash.phash img, nil_error).

Definition box_disk : MemFS.t :=
  MemFS.of_list
    [("box/a.jpg", 16); ("box/b.PNG", 17); ("box/c.jpg/notes.txt", 5);
     ("box/d.jpeg", 2 ^ 40); ("box/readme.txt", 7)]%string
    [].

(** A disk where [box/d.jpeg] holds a PNG image. *)
Definition mislabelled_disk : MemFS.t :=
  MemFS.of_list
    [("box/a.jpg", 16); ("box/b.PNG", 17); ("box/c.jpg/notes.txt", 5);
     ("box/d.jpeg", 19); ("box/readme.txt", 7)]%string
    [].

Definition loadBox (tree : Tree) (fs : MemFS.t) (dir : string)
    : list (ImageInfo PHash.t) * error :=
  loadImages (fun _ _ => tree) open jpeg png 0 hash lower fs dir.

(** The zero value [ImageInfo{}]. *)
Definition zero : ImageInfo PHash.t :=
  {| Path := EmptyString; Hash := {| PHash.kind := 0; PHash.bits := 0 |} |}.

(** A memory that holds the album in a backing array of five cells, the
    fifth holding an image beyond the length of the slice, and a slice
    over the first four. *)
Definition memory : Heap.t PHash.t :=
  {| Heap.h_images := list_to_map [(0%nat, a); (1%nat, b); (2%nat, c); (3%nat, d); (4%nat, odd)];
     Heap.h_slices := ∅;
     Heap.h_brk := 5;
     Heap.h_stdout := [] |}.

Definition album_slice : Slice := {| s_ptr := 0; s_len := 4; s_cap := 5 |}.

(** The growth of [append] on small slices: the capacity doubles. *)
Definition doubling (cap : nat) : nat := (cap - 1)%nat.

End Demo.

(** * Properties *)

(** ** float64: comparison and exact values *)

(** [lia] after naming the powers that occur, so that they are atoms. *)
Ltac name_powers :=
  repeat match goal with
         | |- context [Z.pow ?b ?e] =>
             let pw := fresh "pw" in
             set (pw := Z.pow b e) in *; clearbody pw
         | H : context [Z.pow ?b ?e] |- _ =>
             let pw := fresh "pw" in
             set (pw := Z.pow b e) in *; clearbody pw
         end.

Ltac pow_lia := name_powers; lia.

Module F64Facts.

Lemma digits2_pos_bounds (m : positive) :
  2 ^ (Zpos (digits2_pos m) - 1) <= Zpos m < 2 ^ Zpos (digits2_pos m).
Proof.
  induction m as [m IH | m IH |]; simpl digits2_pos.
  - rewrite Pos2Z.inj_succ. rewrite (Pos2Z.inj_xI m).
    replace (Z.succ (Zpos (digits2_pos m)) - 1)
      with (Z.succ (Zpos (digits2_pos m) - 1)) by lia.
    rewrite !Z.pow_succ_r by lia. pow_lia.
  - rewrite Pos2Z.inj_succ. rewrite (Pos2Z.inj_xO m).
    replace (Z.succ (Zpos (digits2_pos m)) - 1)
      with (Z.succ (Zpos (digits2_pos m) - 1)) by lia.
    rewrite !Z.pow_succ_r by lia. pow_lia.
  - simpl. lia.
Qed.

(** A valid finite float has at most 53 significant bits, and exactly 53
    above the least exponent. *)
Lemma valid_finite_inv (s : bool) (m : positive) (e : Z) :
  F64.valid (S754_finite s m e) = true ->
  -1074 <= e <= 971 /\ Zpos m < 2 ^ 53 /\ (-1074 < e -> 2 ^ 52 <= Zpos m).
Proof.
  unfold F64.valid, valid_binary, bounded, canonical_mantissa, fexp, emin.
  unfold F64.prec, F64.emax.
  intros H. apply andb_true_iff in H as [Hc He].
  apply Z.eqb_eq in Hc. apply Z.leb_le in He.
  pose proof (digits2_pos_bounds m) as [Hlo Hhi].
  assert (Hd : Zpos (digits2_pos m) <= 53) by lia.
  split; [lia|]. split.
  - eapply Z.lt_le_trans; [exact Hhi|].
    apply Z.pow_le_mono_r; lia.
  - intros Hgt.
    assert (Hd53 : Zpos (digits2_pos m) = 53) by lia.
    rewrite Hd53 in Hlo. exact Hlo.
Qed.

Lemma to_Q_scaled (x : float64) (q : Q) :
  F64.valid x = true -> F64.to_Q x = Some q ->
  (q == F64.scaled x # 2 ^ 1074)%Q.
Proof.
  destruct x as [s | s | | s m e]; intros Hv Hq; simpl in Hq |- *;
    try discriminate.
  - inversion Hq; subst. reflexivity.
  - apply valid_finite_inv in Hv as (He & _ & _).
    inversion Hq; subst; clear Hq.
    set (n := if s then Zneg m else Zpos m).
    destruct e as [| p | p].
    + unfold Qeq, inject_Z; simpl Qnum; simpl Qden.
      rewrite Z.mul_1_r. change (Z.pos (2 ^ 1074)) with (2 ^ 1074). lia.
    + unfold Qeq, inject_Z; simpl Qnum; simpl Qden.
      rewrite Z.pow_add_r by lia.
      change (Z.pos (2 ^ 1074)) with (2 ^ 1074). lia.
    + unfold Qeq; simpl Qnum; simpl Qden.
      rewrite Pos2Z.inj_pow.
      change (Z.pos (2 ^ 1074)) with (2 ^ 1074).
      replace 1074 with ((Zneg p + 1074) + Zpos p) at 1 by lia.
      rewrite Z.pow_add_r by lia. lia.
Qed.

Lemma pow2_pos (e : Z) : 0 <= e -> 0 < 2 ^ e.
Proof. intros He. apply Z.pow_pos_nonneg; lia. Qed.

(** Between valid floats the exponent decides: a smaller exponent is a
    smaller magnitude. *)
Lemma magnitude_lt (s1 s2 : bool) (m1 m2 : positive) (e1 e2 : Z) :
  F64.valid (S754_finite s1 m1 e1) = true ->
  F64.valid (S754_finite s2 m2 e2) = true ->
  e1 < e2 ->
  Zpos m1 * 2 ^ (e1 + 1074) < Zpos m2 * 2 ^ (e2 + 1074).
Proof.
  intros H1 H2 Hlt.
  apply valid_finite_inv in H1 as (He1 & Hm1 & _).
  apply valid_finite_inv in H2 as (He2 & _ & Hm2).
  assert (Hgt : -1074 < e2) by (clear - He1 Hlt; lia).
  specialize (Hm2 Hgt).
  replace (e2 + 1074) with ((e2 - e1 - 1) + 1 + (e1 + 1074)) by lia.
  rewrite (Z.pow_add_r 2 (e2 - e1 - 1 + 1) (e1 + 1074)) by lia.
  rewrite (Z.pow_add_r 2 (e2 - e1 - 1) 1) by lia.
  pose proof (pow2_pos (e1 + 1074) ltac:(lia)) as HP.
  pose proof (pow2_pos (e2 - e1 - 1) ltac:(lia)) as HQ.
  change (2 ^ 53) with 9007199254740992 in Hm1.
  change (2 ^ 52) with 4503599627370496 in Hm2.
  change (2 ^ 1) with 2.
  set (P := 2 ^ (e1 + 1074)) in *. set (G := 2 ^ (e2 - e1 - 1)) in *.
  clearbody P G.
  assert (A : Zpos m1 * P < 9007199254740992 * P) by nia.
  assert (B : 9007199254740992 * P <= 2 * (Zpos m2 * P)) by nia.
  assert (C : Zpos m2 * P <= Zpos m2 * P * G) by nia.
  replace (Zpos m2 * (G * 2 * P)) with (2 * (Zpos m2 * P * G)) by ring.
  lia.
Qed.

Lemma magnitude_compare (s1 s2 : bool) (m1 m2 : positive) (e1 e2 : Z) :
  F64.valid (S754_finite s1 m1 e1) = true ->
  F64.valid (S754_finite s2 m2 e2) = true ->
  match e1 ?= e2 with
  | Lt => Lt
  | Gt => Gt
  | Eq => Pos.compare_cont Eq m1 m2
  end = (Zpos m1 * 2 ^ (e1 + 1074) ?= Zpos m2 * 2 ^ (e2 + 1074)).
Proof.
  intros H1 H2. destruct (Z.compare_spec e1 e2) as [Heq | Hlt | Hgt].
  - subst e2. symmetry.
    pose proof (valid_finite_inv _ _ _ H1) as (He & _ & _).
    rewrite <- Zmult_compare_compat_r by (apply Z.lt_gt, pow2_pos; lia).
    reflexivity.
  - symmetry. apply Z.compare_lt_iff. eapply magnitude_lt; eauto.
  - symmetry. apply Z.compare_gt_iff. eapply magnitude_lt; eauto.
Qed.

(** [SFcompare] orders zeros and valid finite floats as their values. *)
Lemma compare_scaled (x y : float64) (qx qy : Q) :
  F64.valid x = true -> F64.valid y = true ->
  F64.to_Q x = Some qx -> F64.to_Q y = Some qy ->
  SFcompare x y = Some (F64.scaled x ?= F64.scaled y).
Proof.
  destruct x as [sx | sx | | sx mx ex], y as [sy | sy | | sy my ey];
    intros Hx Hy Hqx Hqy; try discriminate; simpl SFcompare; simpl F64.scaled.
  - reflexivity.
  - pose proof (valid_finite_inv _ _ _ Hy) as (He & _ & _).
    pose proof (pow2_pos (ey + 1074) ltac:(lia)) as HP.
    f_equal. symmetry. destruct sy.
    + apply Z.compare_gt_iff. name_powers. nia.
    + apply Z.compare_lt_iff. name_powers. nia.
  - pose proof (valid_finite_inv _ _ _ Hx) as (He & _ & _).
    pose proof (pow2_pos (ex + 1074) ltac:(lia)) as HP.
    f_equal. symmetry. destruct sx.
    + apply Z.compare_lt_iff. name_powers. nia.
    + apply Z.compare_gt_iff. name_powers. nia.
  - pose proof (valid_finite_inv _ _ _ Hx) as (Hex & _ & _).
    pose proof (valid_finite_inv _ _ _ Hy) as (Hey & _ & _).
    pose proof (pow2_pos (ex + 1074) ltac:(lia)) as HPx.
    pose proof (pow2_pos (ey + 1074) ltac:(lia)) as HPy.
    f_equal. destruct sx, sy.
    + change (Z.neg mx) with (- Zpos mx). change (Z.neg my) with (- Zpos my).
      rewrite !Z.mul_opp_l, Z.compare_opp.
      rewrite (Z.compare_antisym (Zpos mx * 2 ^ (ex + 1074))
                                 (Zpos my * 2 ^ (ey + 1074))).
      rewrite <- (magnitude_compare true true mx my ex ey Hx Hy).
      destruct (ex ?= ey); reflexivity.
    + symmetry. apply Z.compare_lt_iff. name_powers. nia.
    + symmetry. apply Z.compare_gt_iff. name_powers. nia.
    + apply (magnitude_compare false false mx my ex ey Hx Hy).
Qed.

(** Go's [x >= y] on zeros and valid finite floats is the order of the
    rationals. *)
Lemma geb_spec (x y : float64) (qx qy : Q) :
  F64.valid x = true -> F64.valid y = true ->
  F64.to_Q x = Some qx -> F64.to_Q y = Some qy ->
  F64.geb x y = true <-> (qy <= qx)%Q.
Proof.
  intros Hx Hy Hqx Hqy. unfold F64.geb, SFleb.
  rewrite (compare_scaled y x qy qx Hy Hx Hqy Hqx).
  rewrite (to_Q_scaled x qx Hx Hqx), (to_Q_scaled y qy Hy Hqy).
  unfold Qle; simpl Qnum; simpl Qden.
  assert (HP : 0 < Z.pos (2 ^ 1074)) by reflexivity.
  destruct (Z.compare_spec (F64.scaled y) (F64.scaled x)) as [He | Hl | Hg].
  - split; [intros _; rewrite He; lia | reflexivity].
  - split; [intros _; nia | reflexivity].
  - split; [discriminate | intros Hle; exfalso; nia].
Qed.

End F64Facts.

(** ** The similarity of a distance *)

Section SimilarityFacts.

Lemma similarity_check_all :
  forallb similarity_check (map Z.of_nat (seq 0 65)) = true.
Proof. vm_compute. reflexivity. Qed.

Lemma similarity_check_range (d : Z) :
  0 <= d <= 64 -> similarity_check d = true.
Proof.
  intros Hd.
  pose proof similarity_check_all as Hall.
  rewrite forallb_forall in Hall. apply Hall.
  apply in_map_iff. exists (Z.to_nat d). split; [lia|].
  apply in_seq. lia.
Qed.

Lemma similarity_value (d : Z) :
  0 <= d <= 64 ->
  F64.valid (similarity_of d) = true /\
  exists q, F64.to_Q (similarity_of d) = Some q /\ (q == 1 - inject_Z d / 64)%Q.
Proof.
  intros Hd. pose proof (similarity_check_range d Hd) as Hc.
  unfold similarity_check in Hc. apply andb_true_iff in Hc as [Hv Hq].
  split; [exact Hv|].
  destruct (F64.to_Q (similarity_of d)) as [q|]; [|discriminate].
  exists q. split; [reflexivity|]. apply Qeq_bool_iff. exact Hq.
Qed.

End SimilarityFacts.

(** ** The grouping pass on positions *)

Section PositionFacts.

Variable sim : nat -> nat -> bool.

Lemma used_get_insert (U : gmap nat bool) (j k : nat) :
  used_get (<[j := true]> U) k = if decide (j = k) then true else used_get U k.
Proof.
  unfold used_get. rewrite lookup_insert. destruct (decide (j = k)); reflexivity.
Qed.

Lemma used_get_empty (k : nat) : used_get ∅ k = false.
Proof. unfold used_get. rewrite lookup_empty. reflexivity. Qed.


Lemma inner_inv_init (n i : nat) (U0 : gmap nat bool) :
  inner_inv sim n i U0 ([i], U0).
Proof.
  exists []. simpl. split; [reflexivity|]. split; [constructor|].
  split.
  - intros j Hj. inversion Hj.
  - intros k. split; [auto|]. intros [H|H]; [exact H | inversion H].
Qed.

Lemma ix_inner_inv (n i j : nat) (U0 : gmap nat bool)
    (st : list nat * gmap nat bool) :
  (i < j < n)%nat -> inner_inv sim n i U0 st -> inner_inv sim n i U0 (ix_inner sim i st j).
Proof.
  intros Hij (rest & Hg & Hnd & Hmem & Hused).
  unfold ix_inner.
  destruct (used_get (snd st) j) eqn:Huj; [exists rest; auto|].
  destruct (sim i j) eqn:Hsim; [|exists rest; auto].
  assert (Hfresh : j ∉ rest).
  { intros Hin. assert (used_get (snd st) j = true) by (apply Hused; auto).
    congruence. }
  assert (HU0 : used_get U0 j = false).
  { destruct (used_get U0 j) eqn:E; [|reflexivity].
    assert (used_get (snd st) j = true) by (apply Hused; auto). congruence. }
  exists (rest ++ [j]). simpl. split; [rewrite Hg; reflexivity|].
  split.
  { apply NoDup_app. split; [exact Hnd|]. split.
    - intros x Hx Hxj. apply list_elem_of_singleton in Hxj. subst x. auto.
    - apply NoDup_singleton. }
  split.
  - intros k Hk. apply elem_of_app in Hk as [Hk|Hk]; [auto|].
    apply list_elem_of_singleton in Hk. subst k. auto.
  - intros k. rewrite used_get_insert, elem_of_app, list_elem_of_singleton.
    destruct (decide (j = k)) as [->|Hne].
    + split; auto.
    + rewrite Hused. split; intros [H|H]; auto.
      destruct H as [H|H]; [auto | congruence].
Qed.

Lemma ix_inner_loop_inv (n i : nat) (U0 : gmap nat bool) (js : list nat) :
  forall st,
    Forall (fun j => (i < j < n)%nat) js ->
    inner_inv sim n i U0 st ->
    inner_inv sim n i U0 (fold_left (ix_inner sim i) js st).
Proof.
  induction js as [|j js IH]; intros st Hjs Hinv; simpl; [exact Hinv|].
  inversion Hjs; subst. apply IH; [assumption|].
  apply ix_inner_inv; assumption.
Qed.

Lemma seq_inner_bounds (n i : nat) :
  Forall (fun j => (i < j < n)%nat) (seq (S i) (n - S i)).
Proof. apply Forall_forall. intros j Hj. apply elem_of_seq in Hj. lia. Qed.


Lemma outer_inv_init (n : nat) : outer_inv sim n 0 ([], ∅).
Proof.
  split; [apply NoDup_nil; exact I|].
  split; simpl; intros ? H; inversion H.
Qed.

Lemma ix_outer_inv (n i : nat) (st : list (list nat) * gmap nat bool) :
  (i < n)%nat -> outer_inv sim n i st -> outer_inv sim n (S i) (ix_outer sim n st i).
Proof.
  intros Hi (Hnd & Hel & Hgr). unfold ix_outer.
  destruct (used_get (snd st) i) eqn:Hui.
  { split; [exact Hnd|]. split; [|exact Hgr].
    intros k Hk. destruct (Hel k Hk) as [[H|H] Hn]; split; auto. }
  pose proof (ix_inner_loop_inv n i (snd st) _ _ (seq_inner_bounds n i)
                (inner_inv_init n i (snd st))) as (rest & Hg & Hndr & Hmem & Hused).
  set (r := fold_left (ix_inner sim i) (seq (S i) (n - S i)) ([i], snd st)) in *.
  rewrite Hg. simpl length. unfold outer_inv.
  destruct rest as [|j0 rest0]; simpl.
  - (* the lone anchor is dropped *)
    split; [exact Hnd|]. split; [|exact Hgr].
    intros k Hk. destruct (Hel k Hk) as [[H|H] Hn]; split; auto.
    right. apply Hused. auto.
  - set (rest := j0 :: rest0) in *.
    rewrite concat_app. simpl concat. rewrite app_nil_r.
    split.
    { apply NoDup_app. split; [exact Hnd|]. split.
      - intros x Hx Hin. destruct (Hel x Hx) as [Hx' _].
        apply elem_of_cons in Hin as [->|Hin].
        + destruct Hx' as [H|H]; [lia | congruence].
        + destruct (Hmem x Hin) as (Hlt & _ & HU0).
          destruct Hx' as [H|H]; [lia | congruence].
      - apply NoDup_cons. split; [|exact Hndr].
        intros Hin. destruct (Hmem i Hin) as (Hlt & _). lia. }
    split.
    { intros k Hk. apply elem_of_app in Hk as [Hk|Hk].
      - destruct (Hel k Hk) as [[H|H] Hn]; split; auto.
        right. apply Hused. auto.
      - apply elem_of_cons in Hk as [->|Hk]; [split; auto|].
        destruct (Hmem k Hk) as (Hlt & _). split; [|lia].
        right. apply Hused. auto. }
    intros g Hin. apply elem_of_app in Hin as [Hin|Hin]; [auto|].
    apply list_elem_of_singleton in Hin. subst g.
    exists i, rest. split; [reflexivity|]. split; [discriminate|].
    intros j Hj. destruct (Hmem j Hj) as (Hlt & Hs & _). split; [lia | exact Hs].
Qed.

Lemma ix_outer_loop_inv (n m : nat) :
  forall i st,
    (i + m <= n)%nat -> outer_inv sim n i st ->
    outer_inv sim n (i + m) (fold_left (ix_outer sim n) (seq i m) st).
Proof.
  induction m as [|m IH]; intros i st Hle Hinv; simpl.
  - rewrite Nat.add_0_r. exact Hinv.
  - replace (i + S m)%nat with (S i + m)%nat by lia.
    apply IH; [lia|]. apply ix_outer_inv; [lia | exact Hinv].
Qed.

Lemma ix_groups_inv (n : nat) :
  let gs := ix_groups sim n in
  NoDup (concat gs) /\
  (forall k, k ∈ concat gs -> (k < n)%nat) /\
  (forall g, g ∈ gs ->
     exists a rest, g = a :: rest /\ rest <> [] /\
       forall j, j ∈ rest -> (a < j)%nat /\ sim a j = true).
Proof.
  pose proof (ix_outer_loop_inv n n 0 ([], ∅) ltac:(lia) (outer_inv_init n))
    as (Hnd & Hel & Hgr).
  simpl. unfold ix_groups. split; [exact Hnd|]. split; [|exact Hgr].
  intros k Hk. apply Hel. exact Hk.
Qed.

End PositionFacts.

(** ** [findSimilarImages] and its view on positions *)

Lemma fold_left_pointwise {A B : Type} (f g : A -> B -> A) (l : list B) :
  (forall a b, f a b = g a b) -> forall a, fold_left f l a = fold_left g l a.
Proof.
  intros Hfg. induction l as [|b l IH]; intros a; simpl; [reflexivity|].
  rewrite Hfg. apply IH.
Qed.

Lemma ix_groups_pointwise (sim1 sim2 : nat -> nat -> bool) (n : nat) :
  (forall i j, sim1 i j = sim2 i j) -> ix_groups sim1 n = ix_groups sim2 n.
Proof.
  intros Hsim. unfold ix_groups. f_equal.
  apply fold_left_pointwise. intros st i. unfold ix_outer.
  rewrite (fold_left_pointwise (ix_inner sim1 i) (ix_inner sim2 i)).
  - reflexivity.
  - intros a j. unfold ix_inner. rewrite Hsim. reflexivity.
Qed.

Section GroupingFacts.

Context {ImageHash : Type}.

Variable Distance : ImageHash -> ImageHash -> Z * error.

Abbreviation Image := (ImageInfo ImageHash).

Variable images : list Image.
Variable similarityThreshold : float64.

Let sim := similar_at Distance images similarityThreshold.

Lemma pick_snoc (g : list nat) (j : nat) (imj : Image) :
  images !! j = Some imj -> pick images (g ++ [j]) = pick images g ++ [imj].
Proof.
  intros Hj. unfold pick. rewrite omap_app. simpl. rewrite Hj. reflexivity.
Qed.


Lemma inner_body_rel (i j : nat) (st : Inner) (pst : list nat * gmap nat bool) :
  inner_rel images st pst ->
  inner_rel images (inner_body Distance images similarityThreshold i st j)
            (ix_inner sim i pst j).
Proof.
  intros (Hg & Hlen & Hu). unfold inner_body, ix_inner. rewrite Hu.
  destruct (used_get (snd pst) j); [repeat split; assumption|].
  unfold sim, similar_at, passes.
  destruct (images !! i) as [imi|]; [|repeat split; assumption].
  destruct (images !! j) as [imj|] eqn:Hj; [|repeat split; assumption].
  destruct (Distance (Hash imi) (Hash imj)) as [d [e|]].
  - repeat split; assumption.
  - destruct (F64.geb (similarity_of d) similarityThreshold).
    + split; [|split]; simpl.
      * rewrite Hg. symmetry. apply pick_snoc. exact Hj.
      * rewrite !length_app, Hlen. reflexivity.
      * reflexivity.
    + repeat split; assumption.
Qed.

Lemma inner_loop_rel (i : nat) (js : list nat) :
  forall st pst,
    inner_rel images st pst ->
    inner_rel images (fold_left (inner_body Distance images similarityThreshold i) js st)
              (fold_left (ix_inner sim i) js pst).
Proof.
  induction js as [|j js IH]; intros st pst Hrel; simpl; [exact Hrel|].
  apply IH. apply inner_body_rel. exact Hrel.
Qed.


Lemma outer_body_rel (i : nat) (st : Outer) (pst : list (list nat) * gmap nat bool) :
  (i < length images)%nat ->
  outer_rel images st pst ->
  outer_rel images (outer_body Distance images similarityThreshold st i)
            (ix_outer sim (length images) pst i).
Proof.
  intros Hi (Hg & Hu). unfold outer_body, ix_outer. rewrite Hu.
  destruct (used_get (snd pst) i); [split; assumption|].
  destruct (lookup_lt_is_Some_2 images i Hi) as [imi Himi]. rewrite Himi.
  unfold inner_loop.
  pose proof (inner_loop_rel i (seq (S i) (length images - S i))
                {| in_group := [imi]; in_used := snd pst; in_out := out_stdout st |}
                ([i], snd pst)) as Hrel.
  destruct Hrel as (Hrg & Hrlen & Hru).
  { split; [|split]; simpl; try reflexivity.
    unfold pick. simpl. rewrite Himi. reflexivity. }
  split; simpl; [|exact Hru].
  rewrite Hrlen.
  destruct (1 <? length _)%nat; [|exact Hg].
  rewrite map_app, Hg, Hrg. reflexivity.
Qed.

Lemma outer_loop_rel (m : nat) :
  forall i st pst,
    (i + m <= length images)%nat ->
    outer_rel images st pst ->
    outer_rel images
      (fold_left (outer_body Distance images similarityThreshold) (seq i m) st)
      (fold_left (ix_outer sim (length images)) (seq i m) pst).
Proof.
  induction m as [|m IH]; intros i st pst Hle Hrel; simpl; [exact Hrel|].
  apply IH; [lia|]. apply outer_body_rel; [lia | exact Hrel].
Qed.

(** The groups returned are the images at the grouped positions. *)
Lemma findSimilarImages_positions (out : list string) :
  fst (findSimilarImages Distance similarityThreshold
         {| w_images := images; w_stdout := out |})
  = map (pick images) (ix_groups sim (length images)).
Proof.
  unfold findSimilarImages, outer_loop, ix_groups. simpl.
  apply (outer_loop_rel (length images) 0
           {| out_groups := []; out_used := ∅; out_stdout := out |} ([], ∅)).
  - lia.
  - split; reflexivity.
Qed.

(** Positions in range are all picked. *)
Lemma pick_in_range (g : list nat) :
  Forall (fun k => (k < length images)%nat) g ->
  Forall2 (fun k im => images !! k = Some im) g (pick images g).
Proof.
  induction 1 as [|k g Hk Hg IH]; simpl; [constructor|].
  destruct (lookup_lt_is_Some_2 images k Hk) as [im Him].
  unfold pick. simpl. rewrite Him. simpl. constructor; [exact Him | exact IH].
Qed.

End GroupingFacts.

Section GroupShape.

Context {ImageHash : Type}.

Variable Distance : ImageHash -> ImageHash -> Z * error.

Abbreviation Image := (ImageInfo ImageHash).

Variable images : list Image.
Variable similarityThreshold : float64.
Variable out : list string.

Let sim := similar_at Distance images similarityThreshold.
Let groups :=
  fst (findSimilarImages Distance similarityThreshold
         {| w_images := images; w_stdout := out |}).

Lemma elem_of_map_pick (group : list Image) (gs : list (list nat)) :
  group ∈ map (pick images) gs -> exists g, g ∈ gs /\ group = pick images g.
Proof.
  intros Hin. apply list_elem_of_In, in_map_iff in Hin as (g & Heq & Hg).
  exists g. split; [apply list_elem_of_In; exact Hg | symmetry; exact Heq].
Qed.

Lemma concat_map_pick (gs : list (list nat)) :
  concat (map (pick images) gs) = pick images (concat gs).
Proof.
  induction gs as [|g gs IH]; simpl; [reflexivity|].
  rewrite IH. unfold pick. rewrite omap_app. reflexivity.
Qed.

(** Every emitted group is an anchor position followed by at least one
    later position that passes the test against it, all in range. *)
Lemma group_shape (group : list Image) :
  group ∈ groups ->
  exists a rest ima,
    images !! a = Some ima /\
    rest <> [] /\
    group = ima :: pick images rest /\
    Forall2 (fun k im => images !! k = Some im) rest (pick images rest) /\
    forall j, j ∈ rest -> (a < j)%nat /\ sim a j = true.
Proof.
  unfold groups. rewrite findSimilarImages_positions. intros Hin.
  apply elem_of_map_pick in Hin as (g & Hg & ->).
  destruct (ix_groups_inv sim (length images)) as (_ & Hrange & Hshape).
  destruct (Hshape g Hg) as (a & rest & -> & Hne & Hrest).
  assert (Hall : Forall (fun k => (k < length images)%nat) (a :: rest)).
  { apply Forall_forall. intros k Hk. apply Hrange.
    apply list_elem_of_In, in_concat. exists (a :: rest).
    split; apply list_elem_of_In; assumption. }
  inversion Hall as [|? ? Ha Hr]; subst.
  destruct (lookup_lt_is_Some_2 images a Ha) as [ima Hima].
  exists a, rest, ima. split; [exact Hima|]. split; [exact Hne|].
  split; [unfold pick; simpl; rewrite Hima; reflexivity|].
  split; [apply pick_in_range; exact Hr | exact Hrest].
Qed.

(** A member of an emitted group passes the test with some other
    position, on one side or the other. *)
Lemma member_has_partner (group : list Image) (im : Image) :
  group ∈ groups -> im ∈ group ->
  exists k j, images !! k = Some im /\ j <> k /\
              (sim k j = true \/ sim j k = true).
Proof.
  intros Hg Him.
  destruct (group_shape group Hg) as (a & rest & ima & Hima & Hne & -> & Hpick & Hrest).
  apply elem_of_cons in Him as [->|Him].
  - destruct rest as [|j rest']; [congruence|].
    destruct (Hrest j ltac:(left)) as [Hlt Hs].
    exists a, j. split; [exact Hima|]. split; [lia | left; exact Hs].
  - apply list_elem_of_omap in Him as (j & Hj & Hlook).
    destruct (Hrest j Hj) as [Hlt Hs].
    exists j, a. split; [exact Hlook|]. split; [lia | right; exact Hs].
Qed.

(** The test only looks at the images found at the two positions. *)
Lemma sim_same_image_l (k k' j : nat) (im : Image) :
  images !! k = Some im -> images !! k' = Some im -> sim k j = sim k' j.
Proof. intros H1 H2. unfold sim, similar_at. rewrite H1, H2. reflexivity. Qed.

Lemma sim_same_image_r (k k' j : nat) (im : Image) :
  images !! k = Some im -> images !! k' = Some im -> sim j k = sim j k'.
Proof.
  intros H1 H2. unfold sim, similar_at. rewrite H1, H2. reflexivity.
Qed.

(** An image at a position that passes the test with no other position
    is in no emitted group. *)
Lemma unmatched_absent (k : nat) (imk : Image) (group : list Image) :
  images !! k = Some imk ->
  (forall j, j <> k -> sim k j = false /\ sim j k = false) ->
  group ∈ groups -> imk ∉ group.
Proof.
  intros Hk Hnone Hg Hin.
  destruct (member_has_partner group imk Hg Hin) as (k' & j & Hk' & Hne & Hs).
  destruct (decide (j = k)) as [->|Hjk].
  - (* the partner is [k] itself: [k'] is another copy of the image *)
    destruct (Hnone k' (not_eq_sym Hne)) as [H1 H2].
    destruct Hs as [Hs|Hs].
    + rewrite (sim_same_image_l k' k k imk Hk' Hk) in Hs.
      rewrite (sim_same_image_r k k' k imk Hk Hk') in Hs. congruence.
    + rewrite (sim_same_image_r k' k k imk Hk' Hk) in Hs.
      rewrite (sim_same_image_l k k' k imk Hk Hk') in Hs. congruence.
  - destruct (Hnone j Hjk) as [H1 H2].
    destruct Hs as [Hs|Hs].
    + rewrite (sim_same_image_l k' k j imk Hk' Hk) in Hs. congruence.
    + rewrite (sim_same_image_r k' k j imk Hk' Hk) in Hs. congruence.
Qed.

Lemma NoDup_pick (g : list nat) :
  NoDup images -> NoDup g -> NoDup (pick images g).
Proof.
  intros Himg. induction 1 as [|k g Hk Hg IH]; [apply NoDup_nil; exact I|].
  unfold pick. simpl. destruct (images !! k) as [im|] eqn:Hlook; [|exact IH].
  simpl. apply NoDup_cons. split; [|exact IH].
  intros Hin. apply list_elem_of_omap in Hin as (k' & Hk' & Hlook').
  assert (k = k') by exact (NoDup_lookup images k k' im Himg Hlook Hlook').
  subst k'. auto.
Qed.

(** The groups are the images at pairwise disjoint sets of positions. *)
Lemma groups_positions :
  exists positions : list (list nat),
    groups = map (pick images) positions /\
    NoDup (concat positions) /\
    Forall (fun k => (k < length images)%nat) (concat positions).
Proof.
  exists (ix_groups sim (length images)).
  destruct (ix_groups_inv sim (length images)) as (Hnd & Hrange & _).
  split; [apply findSimilarImages_positions|]. split; [exact Hnd|].
  apply Forall_forall. exact Hrange.
Qed.

End GroupShape.

(** ** Properties of the grouping pass *)

Lemma ix_outer_last (sim : nat -> nat -> bool) (n i : nat)
    (st : list (list nat) * gmap nat bool) :
  S i = n -> ix_outer sim n st i = st.
Proof.
  intros <-. unfold ix_outer. rewrite Nat.sub_diag. simpl.
  destruct (used_get (snd st) i); [reflexivity|]. destruct st; reflexivity.
Qed.

Lemma ix_groups_pair (sim : nat -> nat -> bool) :
  ix_groups sim 2 = if sim 0%nat 1%nat then [[0%nat; 1%nat]] else [].
Proof.
  unfold ix_groups. change (seq 0 2) with [0%nat; 1%nat]. simpl fold_left.
  rewrite ix_outer_last by reflexivity.
  unfold ix_outer. simpl snd. rewrite used_get_empty.
  change (seq 1 (2 - 1)) with [1%nat]. simpl fold_left.
  unfold ix_inner. simpl snd. rewrite used_get_empty.
  destruct (sim 0%nat 1%nat); reflexivity.
Qed.

(** A pair of images forms a group exactly when the inner loop's test
    passes on it. *)
Lemma pair_groups {ImageHash : Type}
    (Distance : ImageHash -> ImageHash -> Z * error)
    (t : float64) (a b : ImageInfo ImageHash) (out : list string) :
  fst (findSimilarImages Distance t {| w_images := [a; b]; w_stdout := out |})
  = if passes Distance t (Hash a) (Hash b) then [[a; b]] else [].
Proof.
  rewrite findSimilarImages_positions. simpl length. rewrite ix_groups_pair.
  replace (similar_at Distance [a; b] t 0 1)
    with (passes Distance t (Hash a) (Hash b)) by reflexivity.
  destruct (passes Distance t (Hash a) (Hash b)); reflexivity.
Qed.

Lemma passes_defined {ImageHash : Type}
    (Distance : ImageHash -> ImageHash -> Z * error)
    (t : float64) (h other : ImageHash) (d : Z) :
  Distance h other = (d, nil_error) ->
  passes Distance t h other = F64.geb (similarity_of d) t.
Proof. intros H. unfold passes. rewrite H. reflexivity. Qed.

Lemma passes_rational {ImageHash : Type}
    (Distance : ImageHash -> ImageHash -> Z * error)
    (t : float64) (h other : ImageHash) (d : Z) (q : Q) :
  Distance h other = (d, nil_error) -> 0 <= d <= 64 ->
  F64.valid t = true -> F64.to_Q t = Some q ->
  passes Distance t h other = true <-> (q <= 1 - inject_Z d / 64)%Q.
Proof.
  intros HD Hd Hv Hq. rewrite (passes_defined Distance t h other d HD).
  destruct (similarity_value d Hd) as (Hvs & qs & Hqs & Heq).
  rewrite (F64Facts.geb_spec _ _ qs q Hvs Hv Hqs Hq). rewrite Heq. reflexivity.
Qed.

(** C7. Every group returned has at least two members, and the image at a
    position that passes the test with no other position, on either side,
    is in none of the groups returned. *)
Theorem groups_have_two_members :
  forall (ImageHash : Type) (Distance : ImageHash -> ImageHash -> Z * error)
         (t : float64) (w : World ImageHash) (group : list (ImageInfo ImageHash)),
    group ∈ fst (findSimilarImages Distance t w) ->
    (2 <= length group)%nat /\
    (forall (k : nat) (imk : ImageInfo ImageHash),
       w_images w !! k = Some imk ->
       (forall j, j <> k ->
          similar_at Distance (w_images w) t k j = false /\
          similar_at Distance (w_images w) t j k = false) ->
       imk ∉ group).
Proof.
  intros ImageHash Distance t [images out] group Hg. simpl w_images. split.
  - destruct (group_shape Distance images t out group Hg)
      as (a & rest & ima & _ & Hne & -> & Hpick & _).
    apply Forall2_length in Hpick. simpl. rewrite <- Hpick.
    destruct rest; [congruence | simpl; lia].
  - intros k imk Hk Hnone.
    exact (unmatched_absent Distance images t out k imk group Hk Hnone Hg).
Qed.

Lemma groups_have_two_members_witness :
  (2 <= length [Demo.a; Demo.b; Demo.c])%nat /\
  (forall (k : nat) (imk : ImageInfo PHash.t),
     w_images Demo.album !! k = Some imk ->
     (forall j, j <> k ->
        similar_at PHash.Distance (w_images Demo.album) Demo.t75 k j = false /\
        similar_at PHash.Distance (w_images Demo.album) Demo.t75 j k = false) ->
     imk ∉ [Demo.a; Demo.b; Demo.c]).
Proof.
  apply (groups_have_two_members PHash.t PHash.Distance Demo.t75 Demo.album).
  apply list_elem_of_In. vm_compute. left. reflexivity.
Defined.

(** C6. The groups returned are pairwise disjoint: they are the images
    found at lists of positions of the input in which no position occurs
    twice, so that an input without repeated entries yields groups without
    a repeated image; and the image at a position that passes the test with
    no other position is absent from the output. *)
Theorem groups_disjoint :
  forall (ImageHash : Type) (Distance : ImageHash -> ImageHash -> Z * error)
         (t : float64) (w : World ImageHash),
    let groups := fst (findSimilarImages Distance t w) in
    (exists positions : list (list nat),
       groups = map (pick (w_images w)) positions /\
       NoDup (concat positions) /\
       Forall (fun k => (k < length (w_images w))%nat) (concat positions)) /\
    (NoDup (w_images w) -> NoDup (concat groups)) /\
    (forall (k : nat) (imk : ImageInfo ImageHash),
       w_images w !! k = Some imk ->
       (forall j, j <> k ->
          similar_at Distance (w_images w) t k j = false /\
          similar_at Distance (w_images w) t j k = false) ->
       imk ∉ concat groups).
Proof.
  intros ImageHash Distance t [images out] groups. simpl w_images.
  pose proof (groups_positions Distance images t out)
    as (positions & Heq & Hnd & Hrange).
  fold groups in Heq. split; [|split].
  - exists positions. auto.
  - intros Himg. rewrite Heq, concat_map_pick. apply NoDup_pick; assumption.
  - intros k imk Hk Hnone Hin.
    apply list_elem_of_In, in_concat in Hin as (group & Hg & Him).
    apply list_elem_of_In in Hg. apply list_elem_of_In in Him.
    exact (unmatched_absent Distance images t out k imk group Hk Hnone Hg Him).
Qed.

Lemma groups_disjoint_witness :
  NoDup (concat (fst (findSimilarImages PHash.Distance Demo.t75 Demo.album))).
Proof.
  apply (groups_disjoint PHash.t PHash.Distance Demo.t75 Demo.album).
  apply NoDup_ListNoDup. repeat constructor; vm_compute; intuition discriminate.
Defined.

(** C5. In every group returned, each member after the first is at a
    defined distance from the first whose similarity reaches the
    threshold; two members other than the first need not be that close to
    each other, as the group of [a], [b] and [c] shows. *)
Theorem members_close_to_anchor :
  (forall (ImageHash : Type) (Distance : ImageHash -> ImageHash -> Z * error)
          (t : float64) (w : World ImageHash)
          (group : list (ImageInfo ImageHash)),
     group ∈ fst (findSimilarImages Distance t w) ->
     exists anchor rest,
       group = anchor :: rest /\
       forall m, m ∈ rest ->
         exists d, Distance (Hash anchor) (Hash m) = (d, nil_error) /\
                   F64.geb (similarity_of d) t = true) /\
  ([Demo.a; Demo.b; Demo.c]
     ∈ fst (findSimilarImages PHash.Distance Demo.t75 Demo.album) /\
   PHash.Distance (Hash Demo.b) (Hash Demo.c) = (32, nil_error) /\
   F64.geb (similarity_of 32) Demo.t75 = false).
Proof.
  split.
  - intros ImageHash Distance t [images out] group Hg.
    destruct (group_shape Distance images t out group Hg)
      as (a & rest & ima & Hima & _ & -> & _ & Hrest).
    exists ima, (pick images rest). split; [reflexivity|].
    intros m Hm. apply list_elem_of_omap in Hm as (j & Hj & Hlook).
    destruct (Hrest j Hj) as [_ Hs].
    unfold similar_at in Hs. rewrite Hima, Hlook in Hs. unfold passes in Hs.
    destruct (Distance (Hash ima) (Hash m)) as [d [e|]]; [discriminate|].
    exists d. split; [reflexivity | exact Hs].
  - split; [|split].
    + apply list_elem_of_In. vm_compute. left. reflexivity.
    + reflexivity.
    + vm_compute. reflexivity.
Qed.

Lemma members_close_to_anchor_witness :
  exists anchor rest,
    [Demo.a; Demo.b; Demo.c] = anchor :: rest /\
    forall m, m ∈ rest ->
      exists d, PHash.Distance (Hash anchor) (Hash m) = (d, nil_error) /\
                F64.geb (similarity_of d) Demo.t75 = true.
Proof.
  apply (proj1 members_close_to_anchor PHash.t PHash.Distance Demo.t75 Demo.album).
  apply list_elem_of_In. vm_compute. left. reflexivity.
Defined.

(** ** Properties of reclamation *)

Section ReclaimFacts.

Context {ImageHash FS : Type}.

Variable Distance : ImageHash -> ImageHash -> Z * error.
Variable os_Stat : FS -> string -> Z * error.
Variable os_Remove : FS -> string -> FS * error.

Abbreviation Image := (ImageInfo ImageHash).

(** Files deleted without error only move the running total and the file
    system. *)
Lemma delete_loop_app (pre rest : list Image) :
  forall (t0 t1 : Z) (fs fs1 : FS),
    delete_loop os_Stat os_Remove pre t0 fs = ((t1, nil_error), fs1) ->
    delete_loop os_Stat os_Remove (pre ++ rest) t0 fs
    = delete_loop os_Stat os_Remove rest t1 fs1.
Proof.
  induction pre as [|gi pre IH]; intros t0 t1 fs fs1 Hpre; simpl in *.
  - inversion Hpre; subst. reflexivity.
  - destruct (os_Stat fs (Path gi)) as [size [e|]]; [discriminate|].
    destruct (os_Remove fs (Path gi)) as [fs' [e|]]; [discriminate|].
    apply IH. exact Hpre.
Qed.

(** The first failure ends the loop: what comes after is not looked at,
    and the count returned is 0. *)
Lemma delete_loop_fails (gi : Image) (post : list Image) (t1 : Z)
    (fs1 fs2 : FS) (e : string) :
  fails_at os_Stat os_Remove fs1 (Path gi) e fs2 ->
  delete_loop os_Stat os_Remove (gi :: post) t1 fs1 = ((0, Some e), fs2).
Proof.
  intros [[Hstat ->] | [Hstat Hrem]]; simpl.
  - destruct (os_Stat fs1 (Path gi)) as [size err]. simpl in Hstat. subst err.
    reflexivity.
  - destruct (os_Stat fs1 (Path gi)) as [size err]. simpl in Hstat. subst err.
    rewrite Hrem. reflexivity.
Qed.

End ReclaimFacts.

(** C3. When a stat or a remove fails in the middle of a group, the files
    after the failing one are not touched, [deleteSimilarImages] returns
    the error with a count of 0, whatever was freed before it in the group,
    and the loop of [main] prints the error and goes on with the following
    groups with the running total it had. *)
Theorem reclaim_failure_discards_group :
  forall (ImageHash FS : Type) (Distance : ImageHash -> ImageHash -> Z * error)
         (os_Stat : FS -> string -> Z * error)
         (os_Remove : FS -> string -> FS * error) (next : Z -> Z)
         (group pre post : list (ImageInfo ImageHash)) (x : ImageInfo ImageHash)
         (w : Sys FS) (freed : Z) (fs1 fs2 : FS) (e : string),
    let sorted := fst (sort_Slice next (less_closure Distance) group (sys_stdout w)) in
    let out := snd (sort_Slice next (less_closure Distance) group (sys_stdout w)) in
    (1 < length group)%nat ->
    drop 1 sorted = pre ++ x :: post ->
    delete_loop os_Stat os_Remove pre 0 (sys_fs w) = ((freed, nil_error), fs1) ->
    fails_at os_Stat os_Remove fs1 (Path x) e fs2 ->
    deleteSimilarImages Distance os_Stat os_Remove next group w
    = ((0, Some e), sorted, {| sys_fs := fs2; sys_stdout := out |}) /\
    (forall (groups' : list (list (ImageInfo ImageHash))) (totalSaved : Z),
       delete_groups Distance os_Stat os_Remove next (group :: groups') totalSaved w
       = delete_groups Distance os_Stat os_Remove next groups' totalSaved
           {| sys_fs := fs2;
              sys_stdout := out ++ [println2 "Error deleting images:" e] |}).
Proof.
  intros ImageHash FS Distance os_Stat os_Remove next group pre post x w freed fs1 fs2 e
         sorted out Hlen Hsorted Hpre Hfail.
  assert (Hdel : deleteSimilarImages Distance os_Stat os_Remove next group w
                 = ((0, Some e), sorted, {| sys_fs := fs2; sys_stdout := out |})).
  { unfold deleteSimilarImages. subst sorted out.
    destruct (sort_Slice next (less_closure Distance) group (sys_stdout w))
      as [sorted out]. simpl in *.
    rewrite Hsorted, (delete_loop_app os_Stat os_Remove pre (x :: post) _ _ _ _ Hpre).
    rewrite (delete_loop_fails os_Stat os_Remove x post freed fs1 fs2 e Hfail).
    reflexivity. }
  split; [exact Hdel|].
  intros groups' totalSaved. simpl.
  apply Nat.ltb_lt in Hlen. rewrite Hlen, Hdel. reflexivity.
Qed.

Lemma reclaim_failure_discards_group_witness :
  fst (fst (deleteSimilarImages PHash.Distance MemFS.Stat MemFS.Remove Demo.next
              [Demo.a; Demo.b; Demo.c]
              {| sys_fs := Demo.disk; sys_stdout := [] |}))
  = (0, Some "remove c.jpg: permission denied"%string) /\
  fst (delete_groups PHash.Distance MemFS.Stat MemFS.Remove Demo.next
         Demo.three_groups 0 {| sys_fs := Demo.disk; sys_stdout := [] |})
  = 600 + 800.
Proof.
  set (w := {| sys_fs := Demo.disk; sys_stdout := [] |}).
  set (fs1 := snd (delete_loop MemFS.Stat MemFS.Remove [Demo.b] 0 Demo.disk)).
  destruct (reclaim_failure_discards_group PHash.t MemFS.t PHash.Distance
              MemFS.Stat MemFS.Remove Demo.next [Demo.a; Demo.b; Demo.c] [Demo.b] []
              Demo.c w 2000 fs1 fs1 "remove c.jpg: permission denied")
    as [Hdel _].
  - simpl. lia.
  - vm_compute. reflexivity.
  - vm_compute. reflexivity.
  - right. split; vm_compute; reflexivity.
  - split; [rewrite Hdel; reflexivity | vm_compute; reflexivity].
Defined.

(** C1. On the burst of thirteen images, grouped at 80 percent, the sort
    moves another image to the front of the group while it runs, and the
    comparisons that follow measure the distance to that image: the slice
    it leaves is not in ascending order of distance to [p00], and the
    reclaimer deletes the first image of the group, [p00], with eleven
    others, and keeps [p06]. *)
Theorem reclaim_of_thirteen_deletes_the_anchor :
  fst (findSimilarImages PHash.Distance Demo.t80
         {| w_images := Demo.burst; w_stdout := [] |}) = [Demo.burst] /\
  forall next : Z -> Z,
    (exists sorted,
       sort_Slice_run next (less_closure PHash.Distance) Demo.burst []
       = Some (sorted, []) /\
       map Path sorted
       = ["p06"; "p05"; "p07"; "p04"; "p08"; "p03"; "p09"; "p02"; "p10"; "p01";
          "p12"; "p00"; "p11"]%string) /\
    let '(r, sorted, w') :=
      deleteSimilarImages PHash.Distance MemFS.Stat MemFS.Remove next Demo.burst
        {| sys_fs := Demo.burst_disk; sys_stdout := [] |} in
    r = (20115, nil_error) /\
    MemFS.ls (sys_fs w') = [("p06"%string, 1063)] /\
    MemFS.Stat (sys_fs w') "p00"
    = (0, Some "stat p00: no such file or directory"%string).
Proof.
  split; [vm_compute; reflexivity|]. intros next. split.
  - eexists. split; vm_compute; reflexivity.
  - vm_compute. repeat split; reflexivity.
Qed.

(** ** Properties of the percentage parser *)

(** Go's [x < y] on zeros and valid finite floats is the strict order of
    the rationals. *)
Lemma ltb_spec (x y : float64) (qx qy : Q) :
  F64.valid x = true -> F64.valid y = true ->
  F64.to_Q x = Some qx -> F64.to_Q y = Some qy ->
  F64.ltb x y = true <-> (qx < qy)%Q.
Proof.
  intros Hx Hy Hqx Hqy. unfold F64.ltb, SFltb.
  rewrite (F64Facts.compare_scaled x y qx qy Hx Hy Hqx Hqy).
  rewrite (F64Facts.to_Q_scaled x qx Hx Hqx), (F64Facts.to_Q_scaled y qy Hy Hqy).
  unfold Qlt; simpl Qnum; simpl Qden.
  assert (HP : 0 < Z.pos (2 ^ 1074)) by reflexivity.
  destruct (Z.compare_spec (F64.scaled x) (F64.scaled y)) as [He | Hl | Hg].
  - split; [discriminate | intros Hlt; exfalso; rewrite He in Hlt; lia].
  - split; [intros _; nia | reflexivity].
  - split; [discriminate | intros Hlt; exfalso; nia].
Qed.

(** A scanned value that is a number is refused exactly when it lies
    outside the interval from 0 to 100, and is otherwise divided by 100. *)
Lemma parsePercentage_number (Sscanf_f : string -> float64 * error)
    (s : string) (p : float64) (q : Q) :
  Sscanf_f s = (p, nil_error) ->
  F64.valid p = true -> F64.to_Q p = Some q ->
  ((0 <= q <= 100)%Q ->
     parsePercentage Sscanf_f s = (F64.div p (F64.of_int 100), nil_error)) /\
  ((q < 0)%Q \/ (100 < q)%Q ->
     parsePercentage Sscanf_f s
     = (F64.zero, Some "percentage must be between 0 and 100"%string)).
Proof.
  intros Hs Hv Hq. unfold parsePercentage. rewrite Hs.
  pose proof (ltb_spec p F64.zero q 0%Q Hv eq_refl Hq eq_refl) as Hlo.
  assert (Hhi : F64.ltb (F64.of_int 100) p = true <-> (100 < q)%Q).
  { rewrite (ltb_spec (F64.of_int 100) p (7036874417766400 # 2 ^ 46)%Q q
               eq_refl Hv eq_refl Hq).
    assert (H100 : (7036874417766400 # 2 ^ 46 == 100)%Q) by reflexivity.
    rewrite H100. reflexivity. }
  unfold F64.gtb. fold (F64.ltb (F64.of_int 100) p).
  split.
  - intros [H0 H100].
    destruct (F64.ltb p F64.zero) eqn:E1.
    { exfalso. apply (Qlt_not_le q 0); [apply Hlo; reflexivity | exact H0]. }
    destruct (F64.ltb (F64.of_int 100) p) eqn:E2.
    { exfalso. apply (Qlt_not_le 100 q); [apply Hhi; reflexivity | exact H100]. }
    reflexivity.
  - intros [H|H].
    + apply Hlo in H. rewrite H. reflexivity.
    + apply Hhi in H. rewrite H. rewrite orb_true_r. reflexivity.
Qed.

(** An infinite scanned value is refused. *)
Lemma parsePercentage_infinity (Sscanf_f : string -> float64 * error)
    (s : string) (sign : bool) :
  Sscanf_f s = (S754_infinity sign, nil_error) ->
  parsePercentage Sscanf_f s
  = (F64.zero, Some "percentage must be between 0 and 100"%string).
Proof.
  intros Hs. unfold parsePercentage. rewrite Hs. destruct sign; reflexivity.
Qed.

(** C9. A scanned NaN passes both range tests: [parsePercentage] returns
    it as the threshold, without an error, and [main] goes on to load and
    group the images. *)
Theorem parsePercentage_accepts_NaN :
  forall (Sscanf_f : string -> float64 * error) (s : string),
    Sscanf_f s = (F64.nan, nil_error) ->
    parsePercentage Sscanf_f s = (F64.nan, nil_error) /\
    forall (ImageHash FS : Type) (Distance : ImageHash -> ImageHash -> Z * error)
           (os_Stat : FS -> string -> Z * error)
           (os_Remove : FS -> string -> FS * error) (next : Z -> Z)
           (loadImages : FS -> string -> list (ImageInfo ImageHash) * error)
           (dir err : string) (w : Sys FS),
      loadImages (sys_fs w) dir = ([], Some err) ->
      main Distance os_Stat os_Remove next Sscanf_f loadImages false [dir; s] w
      = println w (println2 "Error loading images:" err).
Proof.
  intros Sscanf_f s Hs.
  assert (Hp : parsePercentage Sscanf_f s = (F64.nan, nil_error)).
  { unfold parsePercentage. rewrite Hs. reflexivity. }
  split; [exact Hp|].
  intros ImageHash FS Distance os_Stat os_Remove next loadImages dir err w Hload.
  unfold main. simpl. rewrite Hp, Hload. reflexivity.
Qed.

Lemma parsePercentage_accepts_NaN_witness :
  parsePercentage Demo.scan "NaN" = (F64.nan, nil_error) /\
  sys_stdout (main PHash.Distance MemFS.Stat MemFS.Remove Demo.next Demo.scan Demo.load
                true ["photos"; "NaN"]%string
                {| sys_fs := Demo.burst_disk; sys_stdout := [] |})
  = ["Total space saved: 0 bytes"%string].
Proof.
  split.
  - apply (parsePercentage_accepts_NaN Demo.scan "NaN"). reflexivity.
  - vm_compute. reflexivity.
Defined.

(** ** The library sort always returns *)

Section PdqSortFacts.

Local Open Scope nat_scope.

Context {St : Type}.

Variable data : @lessSwap St.
Variable xorshift_next : Z -> Z.

(** Name the outcome of the next call and continue with its result. *)
Tactic Notation "run_call" constr(c) "as" ident(x) ident(s) :=
  destruct c as [x s]; cbv beta iota.

Lemma scan_less_ge (fuel : nat) :
  forall i j a s, i <= fst (scan_less data fuel i j a s).
Proof.
  induction fuel as [|fuel IH]; intros i j a s; simpl; [lia|].
  destruct (i <=? j); [|simpl; lia].
  unfold bind. run_call (Less data i a s) as lt s1.
  destruct lt; [|simpl; lia].
  specialize (IH (i + 1) j a s1). lia.
Qed.

Lemma scan_not_less_bounds (fuel : nat) :
  forall i j a s,
    a + 1 <= i -> a <= j ->
    a <= fst (scan_not_less data fuel i j a s) <= j.
Proof.
  induction fuel as [|fuel IH]; intros i j a s Hi Hj; simpl; [lia|].
  destruct (i <=? j) eqn:Hij; [|simpl; lia].
  apply Nat.leb_le in Hij.
  unfold bind. run_call (Less data j a s) as lt s1.
  destruct lt; [simpl; lia|].
  specialize (IH i (j - 1) a s1 Hi ltac:(lia)). lia.
Qed.

Lemma partition_loop_bounds (fuel : nat) :
  forall i j a s,
    a + 1 <= i -> a <= j ->
    a <= snd (fst (partition_loop data fuel i j a s)) <= j.
Proof.
  induction fuel as [|fuel IH]; intros i j a s Hi Hj; simpl; [lia|].
  unfold bind; cbv beta.
  pose proof (scan_less_ge (j + 1 - i) i j a s) as Hup.
  run_call (scan_less data (j + 1 - i) i j a s) as i1 s1. simpl in Hup.
  pose proof (scan_not_less_bounds (j + 1 - i1) i1 j a s1 ltac:(lia) Hj) as Hdown.
  run_call (scan_not_less data (j + 1 - i1) i1 j a s1) as j1 s2. simpl in Hdown.
  destruct (j1 <? i1) eqn:Hlt; [simpl; lia|].
  apply Nat.ltb_ge in Hlt.
  destruct (Swap data i1 j1 s2) as [[] s3]; cbv beta iota.
  specialize (IH (i1 + 1) (j1 - 1) a s3 ltac:(lia) ltac:(lia)). lia.
Qed.

(** The pivot position returned by [partition] lies inside the range. *)
Lemma partition_func_bounds (a b pivot : nat) (s : St) :
  a < b -> a <= fst (fst (partition_func data a b pivot s)) < b.
Proof.
  intros Hab. unfold partition_func. unfold bind; cbv beta.
  destruct (Swap data a pivot s) as [[] s0]; cbv beta iota.
  pose proof (scan_less_ge (b - 1 + 1 - (a + 1)) (a + 1) (b - 1) a s0) as Hup.
  run_call (scan_less data (b - 1 + 1 - (a + 1)) (a + 1) (b - 1) a s0) as i1 s1.
  simpl in Hup.
  pose proof (scan_not_less_bounds (b - 1 + 1 - i1) i1 (b - 1) a s1
                ltac:(lia) ltac:(lia)) as Hdown.
  run_call (scan_not_less data (b - 1 + 1 - i1) i1 (b - 1) a s1) as j1 s2.
  simpl in Hdown.
  destruct (j1 <? i1) eqn:Hlt.
  - destruct (Swap data j1 a s2) as [[] s3]; cbv beta iota. simpl. lia.
  - apply Nat.ltb_ge in Hlt.
    destruct (Swap data i1 j1 s2) as [[] s3]; cbv beta iota.
    pose proof (partition_loop_bounds (j1 + 1 - i1) (i1 + 1) (j1 - 1) a s3
                  ltac:(lia) ltac:(lia)) as Hloop.
    destruct (partition_loop data (j1 + 1 - i1) (i1 + 1) (j1 - 1) a s3)
      as [[i2 j2] s4]; cbv beta iota.
    simpl in Hloop. simpl snd.
    destruct (Swap data j2 a s4) as [[] s5]; cbv beta iota. simpl. lia.
Qed.

Lemma scan_up_not_less_ge (fuel : nat) :
  forall i j a s, i <= fst (scan_up_not_less data fuel i j a s).
Proof.
  induction fuel as [|fuel IH]; intros i j a s; simpl; [lia|].
  destruct (i <=? j); [|simpl; lia].
  unfold bind. run_call (Less data a i s) as lt s1.
  destruct lt; [simpl; lia|].
  specialize (IH (i + 1) j a s1). lia.
Qed.

Lemma partitionEqual_loop_ge (fuel : nat) :
  forall i j a s, i <= fst (partitionEqual_loop data fuel i j a s).
Proof.
  induction fuel as [|fuel IH]; intros i j a s; simpl; [lia|].
  unfold bind; cbv beta.
  pose proof (scan_up_not_less_ge (j + 1 - i) i j a s) as Hup.
  run_call (scan_up_not_less data (j + 1 - i) i j a s) as i1 s1. simpl in Hup.
  run_call (scan_down_less data (j + 1 - i1) i1 j a s1) as j1 s2.
  destruct (j1 <? i1); [simpl; lia|].
  destruct (Swap data i1 j1 s2) as [[] s3]; cbv beta iota.
  specialize (IH (i1 + 1) (j1 - 1) a s3). lia.
Qed.

(** The position returned by [partitionEqual] lies beyond the start. *)
Lemma partitionEqual_func_gt (a b pivot : nat) (s : St) :
  a < fst (partitionEqual_func data a b pivot s).
Proof.
  unfold partitionEqual_func, bind. destruct (Swap data a pivot s) as [[] s0].
  pose proof (partitionEqual_loop_ge (b - a) (a + 1) (b - 1) a s0). lia.
Qed.

(** The loops that count their turns are given turns enough: two counts
    that both cover the distance still to go give the same result. *)
Lemma scan_less_turns (fuel : nat) :
  forall fuel' i j a s,
    j + 1 - i <= fuel -> j + 1 - i <= fuel' ->
    scan_less data fuel i j a s = scan_less data fuel' i j a s.
Proof.
  induction fuel as [|fuel IH]; intros [|fuel'] i j a s Hf Hf'; simpl;
    try reflexivity;
    destruct (i <=? j) eqn:Hij; try reflexivity;
    try (apply Nat.leb_le in Hij; lia).
  unfold bind. destruct (Less data i a s) as [[] s1]; [|reflexivity].
  apply IH; lia.
Qed.

Lemma scan_not_less_turns (fuel : nat) :
  forall fuel' i j a s,
    1 <= i -> j + 1 - i <= fuel -> j + 1 - i <= fuel' ->
    scan_not_less data fuel i j a s = scan_not_less data fuel' i j a s.
Proof.
  induction fuel as [|fuel IH]; intros [|fuel'] i j a s Hi Hf Hf'; simpl;
    try reflexivity;
    destruct (i <=? j) eqn:Hij; try reflexivity;
    apply Nat.leb_le in Hij; try lia.
  unfold bind. destruct (Less data j a s) as [[] s1]; [reflexivity|].
  apply IH; lia.
Qed.

Lemma scan_not_less_le (fuel : nat) :
  forall i j a s, fst (scan_not_less data fuel i j a s) <= j.
Proof.
  induction fuel as [|fuel IH]; intros i j a s; simpl; [lia|].
  destruct (i <=? j); [|simpl; lia].
  unfold bind. destruct (Less data j a s) as [[] s1]; [simpl; lia|].
  specialize (IH i (j - 1) a s1). lia.
Qed.

Lemma partition_loop_turns (fuel : nat) :
  forall fuel' i j a s,
    1 <= i -> j + 1 - i <= fuel -> j + 1 - i <= fuel' ->
    partition_loop data fuel i j a s = partition_loop data fuel' i j a s.
Proof.
  assert (Hstop : forall fuel i j a s,
             j + 1 - i = 0 -> partition_loop data fuel i j a s = (i, j, s)).
  { intros [|fuel0] i j a s E; [reflexivity|].
    cbn [partition_loop]. unfold bind. rewrite E. cbn [scan_less ret].
    rewrite E. cbn [scan_not_less ret].
    destruct (j <? i) eqn:Hji; [reflexivity | apply Nat.ltb_ge in Hji; lia]. }
  induction fuel as [|fuel IH]; intros [|fuel'] i j a s Hi Hf Hf'.
  - reflexivity.
  - rewrite !Hstop by lia. reflexivity.
  - rewrite !Hstop by lia. reflexivity.
  - cbn [partition_loop]. unfold bind; cbv beta.
    pose proof (scan_less_ge (j + 1 - i) i j a s) as Hup.
    run_call (scan_less data (j + 1 - i) i j a s) as i1 s1. simpl in Hup.
    pose proof (scan_not_less_le (j + 1 - i1) i1 j a s1) as Hdown.
    run_call (scan_not_less data (j + 1 - i1) i1 j a s1) as j1 s2. simpl in Hdown.
    destruct (j1 <? i1) eqn:Hji; [reflexivity|]. apply Nat.ltb_ge in Hji.
    destruct (Swap data i1 j1 s2) as [[] s3]; cbv beta iota.
    apply IH; lia.
Qed.

Lemma scan_up_not_less_turns (fuel : nat) :
  forall fuel' i j a s,
    j + 1 - i <= fuel -> j + 1 - i <= fuel' ->
    scan_up_not_less data fuel i j a s = scan_up_not_less data fuel' i j a s.
Proof.
  induction fuel as [|fuel IH]; intros [|fuel'] i j a s Hf Hf'; simpl;
    try reflexivity;
    destruct (i <=? j) eqn:Hij; try reflexivity;
    try (apply Nat.leb_le in Hij; lia).
  unfold bind. destruct (Less data a i s) as [[] s1]; [reflexivity|].
  apply IH; lia.
Qed.

Lemma scan_down_less_turns (fuel : nat) :
  forall fuel' i j a s,
    1 <= i -> j + 1 - i <= fuel -> j + 1 - i <= fuel' ->
    scan_down_less data fuel i j a s = scan_down_less data fuel' i j a s.
Proof.
  induction fuel as [|fuel IH]; intros [|fuel'] i j a s Hi Hf Hf'; simpl;
    try reflexivity;
    destruct (i <=? j) eqn:Hij; try reflexivity;
    apply Nat.leb_le in Hij; try lia.
  unfold bind. destruct (Less data a j s) as [[] s1]; [|reflexivity].
  apply IH; lia.
Qed.

Lemma scan_down_less_le (fuel : nat) :
  forall i j a s, fst (scan_down_less data fuel i j a s) <= j.
Proof.
  induction fuel as [|fuel IH]; intros i j a s; simpl; [lia|].
  destruct (i <=? j); [|simpl; lia].
  unfold bind. destruct (Less data a j s) as [[] s1]; [|simpl; lia].
  specialize (IH i (j - 1) a s1). lia.
Qed.

Lemma partitionEqual_loop_turns (fuel : nat) :
  forall fuel' i j a s,
    1 <= i -> j + 1 - i < fuel -> j + 1 - i < fuel' ->
    partitionEqual_loop data fuel i j a s = partitionEqual_loop data fuel' i j a s.
Proof.
  induction fuel as [|fuel IH]; intros [|fuel'] i j a s Hi Hf Hf'; try lia.
  cbn [partitionEqual_loop]. unfold bind; cbv beta.
  pose proof (scan_up_not_less_ge (j + 1 - i) i j a s) as Hup.
  run_call (scan_up_not_less data (j + 1 - i) i j a s) as i1 s1. simpl in Hup.
  pose proof (scan_down_less_le (j + 1 - i1) i1 j a s1) as Hdown.
  run_call (scan_down_less data (j + 1 - i1) i1 j a s1) as j1 s2. simpl in Hdown.
  destruct (j1 <? i1) eqn:Hji; [reflexivity|]. apply Nat.ltb_ge in Hji.
  destruct (Swap data i1 j1 s2) as [[] s3]; cbv beta iota.
  apply IH; lia.
Qed.

Lemma reverse_loop_turns (fuel : nat) :
  forall fuel' i j s,
    j - i <= fuel -> j - i <= fuel' ->
    reverse_loop data fuel i j s = reverse_loop data fuel' i j s.
Proof.
  induction fuel as [|fuel IH]; intros [|fuel'] i j s Hf Hf'; simpl;
    try reflexivity;
    destruct (i <? j) eqn:Hij; try reflexivity;
    apply Nat.ltb_lt in Hij; try lia.
  unfold bind. destruct (Swap data i j s) as [[] s1].
  apply IH; lia.
Qed.

Lemma scan_sorted_turns (fuel : nat) :
  forall fuel' i b s,
    b - i <= fuel -> b - i <= fuel' ->
    scan_sorted data fuel i b s = scan_sorted data fuel' i b s.
Proof.
  induction fuel as [|fuel IH]; intros [|fuel'] i b s Hf Hf'; simpl;
    try reflexivity;
    destruct (i <? b) eqn:Hib; try reflexivity;
    apply Nat.ltb_lt in Hib; try lia.
  unfold bind. destruct (Less data i (i - 1) s) as [[] s1]; [reflexivity|].
  apply IH; lia.
Qed.

Lemma shift_right_turns (fuel : nat) :
  forall fuel' j b s,
    b - j <= fuel -> b - j <= fuel' ->
    shift_right data fuel j b s = shift_right data fuel' j b s.
Proof.
  induction fuel as [|fuel IH]; intros [|fuel'] j b s Hf Hf'; simpl;
    try reflexivity;
    destruct (j <? b) eqn:Hjb; try reflexivity;
    apply Nat.ltb_lt in Hjb; try lia.
  unfold bind. destruct (Less data j (j - 1) s) as [[] s1]; [|reflexivity].
  destruct (Swap data j (j - 1) s1) as [[] s2].
  apply IH; lia.
Qed.

Lemma siftDown_loop_turns (fuel : nat) :
  forall fuel' root hi first s,
    hi - root <= fuel -> hi - root <= fuel' ->
    siftDown_loop data fuel root hi first s
    = siftDown_loop data fuel' root hi first s.
Proof.
  induction fuel as [|fuel IH]; intros [|fuel'] root hi first s Hf Hf'; simpl;
    try reflexivity;
    destruct (hi <=? root + (root + 0) + 1) eqn:Hc; try reflexivity;
    apply Nat.leb_gt in Hc; try lia.
  unfold bind.
  destruct (if root + (root + 0) + 1 + 1 <? hi
            then Less data (first + (root + (root + 0) + 1))
                   (first + (root + (root + 0) + 1) + 1)
            else ret false) as [right s1]; cbv beta iota.
  destruct (Less data (first + root)
              (first + (if right then root + (root + 0) + 1 + 1
                        else root + (root + 0) + 1)) s1) as [[] s2];
    [|reflexivity].
  destruct (Swap data (first + root)
              (first + (if right then root + (root + 0) + 1 + 1
                        else root + (root + 0) + 1)) s2) as [[] s3].
  apply IH; destruct right; lia.
Qed.

(** A budget above the length of the range is never exhausted. *)
Lemma pdqsort_func_total (fuel : nat) :
  forall a b limit wasBalanced wasPartitioned s,
    b - a < fuel ->
    is_Some (pdqsort_func data xorshift_next fuel a b limit
               wasBalanced wasPartitioned s).
Proof.
  induction fuel as [|fuel IH]; intros a b limit wb wp s Hfuel; [lia|].
  simpl.
  destruct (b - a <=? maxInsertion) eqn:Hlen; [eexists; reflexivity|].
  apply Nat.leb_gt in Hlen. unfold maxInsertion in Hlen.
  destruct (limit =? 0); [eexists; reflexivity|].
  destruct (if negb wb then (limit - 1, snd (breakPatterns_func data xorshift_next a b s))
            else (limit, s)) as [limit1 s1].
  destruct (choosePivot_func data a b s1) as [[pivot hint] s2].
  destruct (match hint with
            | decreasingHint =>
                (b - 1 - (pivot - a), increasingHint, snd (reverseRange_func data a b s2))
            | _ => (pivot, hint, s2)
            end) as [[pivot1 hint1] s3].
  destruct (match wb && wp, hint1 with
            | true, increasingHint => partialInsertionSort_func data a b s3
            | _, _ => (false, s3)
            end) as [sorted s4].
  destruct sorted; [eexists; reflexivity|].
  destruct (if 0 <? a
            then let '(lt, s5) := Less data (a - 1) pivot1 s4 in (negb lt, s5)
            else (false, s4)) as [equal s5].
  destruct equal.
  - pose proof (partitionEqual_func_gt a b pivot1 s5) as Hmid.
    destruct (partitionEqual_func data a b pivot1 s5) as [mid s6]. simpl in Hmid.
    apply IH. lia.
  - pose proof (partition_func_bounds a b pivot1 s5 ltac:(lia)) as Hmid.
    destruct (partition_func data a b pivot1 s5) as [[mid already] s6].
    simpl in Hmid.
    destruct (mid - a <? b - mid).
    + destruct (IH a mid limit1 true true s6 ltac:(lia)) as [s7 Hs7].
      rewrite Hs7. apply IH. lia.
    + destruct (IH (mid + 1) b limit1 true true s6 ltac:(lia)) as [s7 Hs7].
      rewrite Hs7. apply IH. lia.
Qed.

(** Ranges of at most twelve elements are sorted by insertion. *)
Lemma pdqsort_func_short (fuel a b limit : nat) (wasBalanced wasPartitioned : bool)
    (s : St) :
  b - a <= 12 ->
  pdqsort_func data xorshift_next (S fuel) a b limit wasBalanced wasPartitioned s
  = Some (snd (insertionSort_func data a b s)).
Proof.
  intros Hlen. simpl.
  destruct (b - a <=? maxInsertion) eqn:Hmax; [reflexivity|].
  apply Nat.leb_gt in Hmax. unfold maxInsertion in Hmax. lia.
Qed.

End PdqSortFacts.

(** [sort.Slice] returns on every slice and with every closure. *)
Lemma sort_Slice_run_total {A E : Type} (next : Z -> Z)
    (less : list A -> nat -> nat -> E -> bool * E) (x : list A) (env : E) :
  is_Some (sort_Slice_run next less x env).
Proof.
  unfold sort_Slice_run. apply pdqsort_func_total. lia.
Qed.

(** ** Reclaiming a group of at most twelve images *)

Lemma swap_elems_Permutation {A : Type} (x : list A) (i j : nat) :
  swap_elems x i j ≡ₚ x.
Proof.
  unfold swap_elems.
  destruct (x !! i) as [xi|] eqn:Hi; [|reflexivity].
  destruct (x !! j) as [xj|] eqn:Hj; [|reflexivity].
  apply Permutation_insert_swap; assumption.
Qed.

Lemma swap_elems_head {A : Type} (x : list A) (i j : nat) :
  (0 < i)%nat -> (0 < j)%nat -> swap_elems x i j !! 0%nat = x !! 0%nat.
Proof.
  intros Hi Hj. unfold swap_elems.
  destruct (x !! i) as [xi|]; [|reflexivity].
  destruct (x !! j) as [xj|]; [|reflexivity].
  rewrite !list_lookup_insert_ne by lia. reflexivity.
Qed.

Section SmallGroup.

Context {ImageHash : Type}.

Variable Distance : ImageHash -> ImageHash -> Z * error.
Variable next : Z -> Z.

Abbreviation Image := (ImageInfo ImageHash).

Variable anchor : Image.
Variable rest : list Image.

(** No member is nearer to the anchor than the anchor is to itself; so it
    is when the distance of a hash to itself is 0 and no distance is
    negative. *)
Hypothesis anchor_nearest :
  forall (x : Image) (dx d0 : Z),
    x ∈ anchor :: rest ->
    Distance (Hash x) (Hash anchor) = (dx, nil_error) ->
    Distance (Hash anchor) (Hash anchor) = (d0, nil_error) ->
    d0 <= dx.

Let data := slice_data (E := list string) (less_closure Distance).


Lemma less_keeps_slice (i j : nat) (s : list Image * list string) :
  fst (snd (Less data i j s)) = fst s.
Proof.
  unfold data, slice_data. simpl.
  destruct (less_closure Distance (fst s) i j (snd s)). reflexivity.
Qed.

(** The element after the anchor never sorts before it. *)
Lemma less_one_zero (s : list Image * list string) :
  anchored anchor rest s -> fst (Less data 1 0 s) = false.
Proof.
  intros [Hhead Hperm]. unfold data, slice_data. simpl.
  unfold less_closure. rewrite Hhead.
  destruct (fst s !! 1%nat) as [g1|] eqn:H1; [|reflexivity].
  assert (Hin : g1 ∈ anchor :: rest).
  { rewrite <- Hperm. eapply list_elem_of_lookup_2. exact H1. }
  destruct (Distance (Hash g1) (Hash anchor)) as [d1 [e1|]] eqn:HD1;
    [reflexivity|].
  destruct (Distance (Hash anchor) (Hash anchor)) as [d0 [e0|]] eqn:HD0;
    [reflexivity|].
  simpl. apply Z.ltb_ge. eapply anchor_nearest; eauto.
Qed.

Lemma insertion_shift_anchored (j : nat) :
  forall s, anchored anchor rest s -> anchored anchor rest (snd (insertion_shift data 0 j s)).
Proof.
  induction j as [|j IH]; intros s Hs; [exact Hs|].
  cbn [insertion_shift Nat.ltb Nat.leb]. unfold bind.
  pose proof (less_keeps_slice (S j) j s) as Hkeep.
  pose proof (less_one_zero s Hs) as Hone.
  destruct (Less data (S j) j s) as [isless s1] eqn:HL. simpl in Hkeep.
  assert (Hs1 : anchored anchor rest s1).
  { destruct Hs as [Hh Hp]. split; rewrite Hkeep; assumption. }
  destruct isless; [|exact Hs1].
  destruct j as [|j].
  { rewrite HL in Hone. discriminate. }
  change (Swap data (S (S j)) (S j) s1)
    with (tt, (swap_elems (fst s1) (S (S j)) (S j), snd s1)).
  cbv beta iota.
  apply IH. destruct Hs1 as [Hh Hp]. split; simpl.
  - rewrite swap_elems_head by lia. exact Hh.
  - rewrite swap_elems_Permutation. exact Hp.
Qed.

Lemma insertion_pass_anchored (l : list nat) :
  forall s, anchored anchor rest s ->
            anchored anchor rest (snd (for_each l (insertion_shift data 0) s)).
Proof.
  induction l as [|i l IH]; intros s Hs; simpl; [exact Hs|].
  unfold bind.
  pose proof (insertion_shift_anchored i s Hs) as Hi.
  destruct (insertion_shift data 0 i s) as [[] s1]. simpl in Hi.
  apply IH. exact Hi.
Qed.

(** On at most twelve images [sort.Slice] is an insertion sort: the anchor
    stays in front and the other members are permuted behind it. *)
Lemma sort_small_group_keeps_anchor (out : list string) :
  (length (anchor :: rest) <= 12)%nat ->
  exists rest', fst (sort_Slice next (less_closure Distance) (anchor :: rest) out)
                = anchor :: rest' /\ rest' ≡ₚ rest.
Proof.
  intros Hlen. unfold sort_Slice, sort_Slice_run.
  set (n := length (anchor :: rest)) in *.
  replace (n + 1)%nat with (S n) by lia.
  rewrite pdqsort_func_short by lia.
  simpl default. unfold insertionSort_func.
  pose proof (insertion_pass_anchored (seq (0 + 1) (n - (0 + 1)))
                (anchor :: rest, out) (conj eq_refl (reflexivity _)))
    as [Hhead Hperm].
  fold data.
  destruct (snd (for_each (seq (0 + 1) (n - (0 + 1))) (insertion_shift data 0)
                   (anchor :: rest, out))) as [sorted out'].
  simpl in *. destruct sorted as [|first rest']; [discriminate|].
  inversion Hhead; subst first. exists rest'. split; [reflexivity|].
  eapply Permutation_cons_inv. exact Hperm.
Qed.

End SmallGroup.

(** ** The insertion sort is a stable sort *)

Section InsertionSpecFacts.

Context {A : Type}.

Variable key : A -> Z.

Abbreviation ascending := (StronglySorted (fun x y : A => key x <= key y)).
Abbreviation descending := (StronglySorted (fun x y : A => key y <= key x)).

Lemma insert_desc_Permutation (x : A) (rp : list A) :
  insert_desc key x rp ≡ₚ x :: rp.
Proof.
  induction rp as [|y rp IH]; simpl; [reflexivity|].
  destruct (key x <? key y); [|reflexivity].
  rewrite IH. apply Permutation_swap.
Qed.

Lemma insert_desc_descending (x : A) (rp : list A) :
  descending rp -> descending (insert_desc key x rp).
Proof.
  induction rp as [|y rp IH]; intros Hs; simpl.
  - repeat constructor.
  - inversion Hs as [|? ? Hrp Hall]; subst.
    destruct (key x <? key y) eqn:Hlt.
    + apply Z.ltb_lt in Hlt. constructor; [apply IH; exact Hrp|].
      apply Forall_forall. intros z Hz.
      rewrite list_elem_of_In in Hz.
      rewrite <- list_elem_of_In, (insert_desc_Permutation x rp) in Hz.
      apply elem_of_cons in Hz as [->|Hz]; [lia|].
      rewrite Forall_forall in Hall. apply Hall. exact Hz.
    + apply Z.ltb_ge in Hlt. constructor; [exact Hs|].
      constructor; [exact Hlt|].
      eapply Forall_impl; [exact Hall|]. simpl. intros z Hz. lia.
Qed.

Lemma with_key_app (k : Z) (l1 l2 : list A) :
  with_key key k (l1 ++ l2) = with_key key k l1 ++ with_key key k l2.
Proof. apply List.filter_app. Qed.

Lemma insert_desc_stable (k : Z) (x : A) (rp : list A) :
  with_key key k (rev (insert_desc key x rp)) = with_key key k (rev rp ++ [x]).
Proof.
  unfold with_key. induction rp as [|y rp IH]; simpl; [reflexivity|].
  destruct (key x <? key y) eqn:Hlt; [|reflexivity].
  apply Z.ltb_lt in Hlt. simpl.
  rewrite !List.filter_app, IH, !List.filter_app. simpl.
  rewrite <- !app_assoc. f_equal.
  destruct (key x =? k) eqn:Hx, (key y =? k) eqn:Hy; try reflexivity.
  apply Z.eqb_eq in Hx, Hy. lia.
Qed.

Lemma fold_insert_Permutation (l : list A) :
  forall rp, fold_left (fun rp x => insert_desc key x rp) l rp ≡ₚ rp ++ l.
Proof.
  induction l as [|x l IH]; intros rp; simpl; [rewrite app_nil_r; reflexivity|].
  rewrite IH, insert_desc_Permutation. simpl. apply Permutation_middle.
Qed.

Lemma fold_insert_descending (l : list A) :
  forall rp, descending rp ->
             descending (fold_left (fun rp x => insert_desc key x rp) l rp).
Proof.
  induction l as [|x l IH]; intros rp Hrp; simpl; [exact Hrp|].
  apply IH, insert_desc_descending, Hrp.
Qed.

Lemma fold_insert_stable (k : Z) (l : list A) :
  forall rp,
    with_key key k (rev (fold_left (fun rp x => insert_desc key x rp) l rp))
    = with_key key k (rev rp ++ l).
Proof.
  induction l as [|x l IH]; intros rp; simpl; [rewrite app_nil_r; reflexivity|].
  rewrite IH, with_key_app, insert_desc_stable.
  change (x :: l) with ([x] ++ l).
  rewrite !with_key_app, <- app_assoc. reflexivity.
Qed.

Lemma descending_rev (l : list A) : descending l -> ascending (rev l).
Proof.
  induction 1 as [|x l Hl IH Hall]; simpl; [constructor|].
  apply StronglySorted_app_2; [|exact IH | repeat constructor].
  intros y z Hy Hz. apply list_elem_of_singleton in Hz. subst z.
  rewrite Forall_forall in Hall. apply Hall.
  apply list_elem_of_In, in_rev, list_elem_of_In in Hy. exact Hy.
Qed.

(** [insertion_sort] permutes, sorts by ascending key, and keeps the
    elements of equal key in their order. *)
Lemma insertion_sort_Permutation (l : list A) : insertion_sort key l ≡ₚ l.
Proof.
  unfold insertion_sort. rewrite <- Permutation_rev.
  apply (fold_insert_Permutation l []).
Qed.

Lemma insertion_sort_ascending (l : list A) : ascending (insertion_sort key l).
Proof.
  apply descending_rev, fold_insert_descending. constructor.
Qed.

Lemma insertion_sort_stable (k : Z) (l : list A) :
  with_key key k (insertion_sort key l) = with_key key k l.
Proof. apply (fold_insert_stable k l []). Qed.

End InsertionSpecFacts.

(** ** On at most twelve images the reclaimer sorts as specified *)

Lemma swap_elems_cons {A : Type} (a : A) (x : list A) (i j : nat) :
  swap_elems (a :: x) (S i) (S j) = a :: swap_elems x i j.
Proof.
  unfold swap_elems. simpl.
  destruct (x !! i) as [xi|]; [|reflexivity].
  destruct (x !! j) as [xj|]; reflexivity.
Qed.

Lemma swap_adjacent {A : Type} (pre : list A) (y x : A) (post : list A) :
  swap_elems (pre ++ y :: x :: post) (S (length pre)) (length pre)
  = pre ++ x :: y :: post.
Proof.
  induction pre as [|a pre IH]; simpl; [reflexivity|].
  rewrite swap_elems_cons, IH. reflexivity.
Qed.

Lemma insert_desc_last {A : Type} (key : A -> Z) (x a : A) (rp : list A) :
  last rp = Some a -> key a <= key x ->
  last (insert_desc key x rp) = Some a.
Proof.
  intros Hlast Hle. induction rp as [|y rp IH]; [discriminate|].
  simpl. destruct rp as [|z rp].
  - simpl in Hlast. inversion Hlast; subst y.
    destruct (key x <? key a) eqn:Hlt; [apply Z.ltb_lt in Hlt; lia | reflexivity].
  - destruct (key x <? key y); [|exact Hlast].
    specialize (IH Hlast). simpl in IH |- *.
    destruct (key x <? key z); exact IH.
Qed.

Lemma rev_last_head {A : Type} (a : A) (rp : list A) :
  last rp = Some a -> exists tl, rev rp = a :: tl.
Proof.
  intros Hlast. apply last_Some in Hlast as [rp0 ->].
  exists (rev rp0). rewrite rev_app_distr. reflexivity.
Qed.

Section SmallGroupSort.

Context {ImageHash : Type}.

Variable Distance : ImageHash -> ImageHash -> Z * error.
Variable next : Z -> Z.

Abbreviation Image := (ImageInfo ImageHash).

Variable anchor : Image.
Variable rest : list Image.

(** The distance of every member to the anchor is defined, and none is
    below that of the anchor to itself. *)
Hypothesis distance_defined :
  forall x : Image, x ∈ anchor :: rest ->
                    snd (Distance (Hash x) (Hash anchor)) = nil_error.

Hypothesis anchor_first :
  forall x : Image, x ∈ anchor :: rest ->
                    distance_to Distance anchor anchor <= distance_to Distance anchor x.

Let key := distance_to Distance anchor.
Let data := slice_data (E := list string) (less_closure Distance).

(** While the anchor is in front, the closure compares distances to it. *)
Lemma less_closure_key (l : list Image) (i j : nat) (gi gj : Image)
    (out : list string) :
  l !! 0%nat = Some anchor -> l !! i = Some gi -> l !! j = Some gj ->
  gi ∈ anchor :: rest -> gj ∈ anchor :: rest ->
  less_closure Distance l i j out = (key gi <? key gj, out).
Proof.
  intros H0 Hi Hj Hgi Hgj. unfold less_closure. rewrite Hi, H0, Hj.
  pose proof (distance_defined gi Hgi) as Ei.
  pose proof (distance_defined gj Hgj) as Ej.
  unfold key, distance_to.
  destruct (Distance (Hash gi) (Hash anchor)) as [di ei]. simpl in Ei. subst ei.
  destruct (Distance (Hash gj) (Hash anchor)) as [dj ej]. simpl in Ej. subst ej.
  reflexivity.
Qed.

(** One turn of the outer loop of the insertion sort inserts the next
    element into the sorted prefix. *)
Lemma insertion_shift_spec (rp : list Image) :
  forall (x : Image) (post : list Image) (out : list string),
    (rp = [] \/ last rp = Some anchor) ->
    (forall z, z ∈ x :: rp -> z ∈ anchor :: rest) ->
    insertion_shift data 0 (length rp) (rev rp ++ x :: post, out)
    = (tt, (rev (insert_desc key x rp) ++ post, out)).
Proof.
  induction rp as [|y rp IH]; intros x post out Hanch Hin; [reflexivity|].
  destruct Hanch as [Hnil|Hlast]; [discriminate|].
  cbn [insertion_shift length Nat.ltb Nat.leb]. unfold bind.
  assert (Hx : x ∈ anchor :: rest) by (apply Hin; left).
  assert (Hy : y ∈ anchor :: rest) by (apply Hin; right; left).
  destruct (rev_last_head anchor (y :: rp) Hlast) as [tl Htl].
  assert (Hless : Less data (S (length rp)) (length rp)
                    (rev (y :: rp) ++ x :: post, out)
                  = (key x <? key y, (rev (y :: rp) ++ x :: post, out))).
  { unfold data, slice_data. cbn [Less fst snd].
    rewrite (less_closure_key _ _ _ x y); try assumption; [reflexivity | | |].
    - rewrite Htl. reflexivity.
    - apply list_lookup_middle. simpl. rewrite length_app, length_rev. simpl. lia.
    - simpl. rewrite <- app_assoc. apply list_lookup_middle.
      rewrite length_rev. reflexivity. }
  rewrite Hless. cbv beta iota. simpl insert_desc.
  destruct (key x <? key y) eqn:Hlt.
  - assert (Hrp : last rp = Some anchor).
    { destruct rp as [|z rp]; [|exact Hlast].
      simpl in Hlast. inversion Hlast; subst y.
      apply Z.ltb_lt in Hlt. pose proof (anchor_first x Hx). fold key in H. lia. }
    change (Swap data (S (length rp)) (length rp) (rev (y :: rp) ++ x :: post, out))
      with (tt, (swap_elems (rev (y :: rp) ++ x :: post) (S (length rp)) (length rp),
                 out)).
    cbv beta iota. simpl rev. rewrite <- app_assoc. simpl app.
    rewrite <- (length_rev rp), swap_adjacent, length_rev.
    rewrite (IH x (y :: post) out (or_intror Hrp)).
    + rewrite <- app_assoc. reflexivity.
    + intros z Hz. apply Hin. apply elem_of_cons in Hz as [->|Hz];
        [left | right; right; exact Hz].
  - simpl rev. rewrite <- !app_assoc. reflexivity.
Qed.

Lemma insertion_pass_spec (todo : list Image) :
  forall (rp : list Image) (out : list string),
    last rp = Some anchor ->
    (forall z, z ∈ rp ++ todo -> z ∈ anchor :: rest) ->
    for_each (seq (length rp) (length todo)) (insertion_shift data 0)
             (rev rp ++ todo, out)
    = (tt, (rev (fold_left (fun rp x => insert_desc key x rp) todo rp), out)).
Proof.
  induction todo as [|x todo IH]; intros rp out Hlast Hin.
  - simpl. rewrite app_nil_r. reflexivity.
  - cbn [length seq for_each fold_left]. unfold bind.
    rewrite insertion_shift_spec.
    + assert (Hlen : length (insert_desc key x rp) = S (length rp)).
      { apply (Permutation_length (insert_desc_Permutation key x rp)). }
      rewrite <- Hlen. apply IH.
      * apply insert_desc_last; [exact Hlast|].
        apply anchor_first. apply Hin. apply elem_of_app. right. left.
      * intros z Hz. apply Hin. apply elem_of_app in Hz as [Hz|Hz].
        -- rewrite (insert_desc_Permutation key x rp) in Hz.
           apply elem_of_cons in Hz as [->|Hz]; apply elem_of_app;
             [right; left | left; exact Hz].
        -- apply elem_of_app. right. right. exact Hz.
    + right. exact Hlast.
    + intros z Hz. apply Hin. apply elem_of_cons in Hz as [->|Hz];
        apply elem_of_app; [right; left | left; exact Hz].
Qed.

(** [sort.Slice] with the closure of [deleteSimilarImages], on at most
    twelve images: the stable insertion sort by distance to the anchor,
    which prints nothing. *)
Lemma sort_small_group (out : list string) :
  (length (anchor :: rest) <= 12)%nat ->
  sort_Slice next (less_closure Distance) (anchor :: rest) out
  = (insertion_sort key (anchor :: rest), out).
Proof.
  intros Hlen. unfold sort_Slice, sort_Slice_run.
  set (n := length (anchor :: rest)) in *.
  replace (n + 1)%nat with (S n) by lia.
  rewrite pdqsort_func_short by lia.
  simpl default. unfold insertionSort_func. fold data.
  pose proof (insertion_pass_spec rest [anchor] out eq_refl) as Hpass.
  simpl in Hpass. change (0 + 1)%nat with 1%nat.
  replace (n - 1)%nat with (length rest) by (subst n; simpl; lia).
  rewrite Hpass; [reflexivity|]. intros z Hz. exact Hz.
Qed.

(** The anchor is the first of the sorted group. *)
Lemma insertion_sort_anchor_first :
  exists rest', insertion_sort key (anchor :: rest) = anchor :: rest' /\
                rest' ≡ₚ rest.
Proof.
  assert (Hlast : forall todo rp,
             last rp = Some anchor ->
             (forall z, z ∈ todo -> z ∈ anchor :: rest) ->
             last (fold_left (fun rp x => insert_desc key x rp) todo rp)
             = Some anchor).
  { induction todo as [|x todo IH]; intros rp Hrp Hin; simpl; [exact Hrp|].
    apply IH.
    - apply insert_desc_last; [exact Hrp|]. apply anchor_first, Hin. left.
    - intros z Hz. apply Hin. right. exact Hz. }
  unfold insertion_sort. simpl fold_left.
  destruct (rev_last_head anchor _ (Hlast rest [anchor] eq_refl
              ltac:(intros z Hz; right; exact Hz))) as [rest' Hrev].
  exists rest'. split; [exact Hrev|].
  pose proof (insertion_sort_Permutation key (anchor :: rest)) as Hperm.
  unfold insertion_sort in Hperm. simpl fold_left in Hperm.
  rewrite Hrev in Hperm. eapply Permutation_cons_inv. exact Hperm.
Qed.

End SmallGroupSort.

(** A group of at most twelve images whose distances to the first are
    defined, none below that of the first to itself: the reclaimer sorts
    the group by ascending distance to the first image, members at equal
    distance staying in their order, keeps the first image in front, and
    runs the deletions over all the others. *)
Lemma reclaim_small_group {ImageHash FS : Type}
    (Distance : ImageHash -> ImageHash -> Z * error)
    (os_Stat : FS -> string -> Z * error)
    (os_Remove : FS -> string -> FS * error) (next : Z -> Z)
    (anchor : ImageInfo ImageHash) (rest : list (ImageInfo ImageHash))
    (w : Sys FS) :
  (length (anchor :: rest) <= 12)%nat ->
  (forall x, x ∈ anchor :: rest ->
             snd (Distance (Hash x) (Hash anchor)) = nil_error) ->
  (forall x, x ∈ anchor :: rest ->
             distance_to Distance anchor anchor <= distance_to Distance anchor x) ->
  exists rest',
    rest' ≡ₚ rest /\
    StronglySorted (fun x y => distance_to Distance anchor x
                               <= distance_to Distance anchor y)
                   (anchor :: rest') /\
    (forall k, with_key (distance_to Distance anchor) k (anchor :: rest')
               = with_key (distance_to Distance anchor) k (anchor :: rest)) /\
    deleteSimilarImages Distance os_Stat os_Remove next (anchor :: rest) w
    = (fst (delete_loop os_Stat os_Remove rest' 0 (sys_fs w)),
       anchor :: rest',
       {| sys_fs := snd (delete_loop os_Stat os_Remove rest' 0 (sys_fs w));
          sys_stdout := sys_stdout w |}).
Proof.
  intros Hlen Hdef Hfirst.
  destruct (insertion_sort_anchor_first Distance anchor rest Hfirst)
    as (rest' & Hsorted & Hperm).
  exists rest'. split; [exact Hperm|]. rewrite <- Hsorted.
  split; [apply insertion_sort_ascending|].
  split; [intros k; apply insertion_sort_stable|].
  unfold deleteSimilarImages.
  rewrite (sort_small_group Distance next anchor rest Hdef Hfirst (sys_stdout w) Hlen).
  rewrite Hsorted. change (drop 1 (anchor :: rest')) with rest'.
  destruct (delete_loop os_Stat os_Remove rest' 0 (sys_fs w)) as [r fs].
  reflexivity.
Qed.

(** * Further properties of the program *)

(** ** The grouping pass: what each anchor takes *)

Section PositionOrder.

Local Open Scope nat_scope.

Variable sim : nat -> nat -> bool.

(** The candidates an anchor [i] takes out of [js] when the positions
    claimed so far are [U]. *)
Let taken (i : nat) (U : gmap nat bool) (js : list nat) : list nat :=
  List.filter (fun j => negb (used_get U j) && sim i j) js.

Lemma elem_of_taken (i : nat) (U : gmap nat bool) (js : list nat) (k : nat) :
  k ∈ taken i U js <-> k ∈ js /\ used_get U k = false /\ sim i k = true.
Proof.
  unfold taken. rewrite !list_elem_of_In, filter_In, andb_true_iff, negb_true_iff.
  reflexivity.
Qed.

Lemma ix_inner_loop_taken (i : nat) (js : list nat) :
  forall (g : list nat) (U : gmap nat bool),
    NoDup js ->
    fst (fold_left (ix_inner sim i) js (g, U)) = g ++ taken i U js /\
    forall k, used_get (snd (fold_left (ix_inner sim i) js (g, U))) k = true
              <-> used_get U k = true \/ k ∈ taken i U js.
Proof.
  induction js as [|j js IH]; intros g U Hnd.
  - simpl. rewrite app_nil_r. split; [reflexivity|].
    intros k. split; [auto|]. intros [H|H]; [exact H | inversion H].
  - apply NoDup_cons in Hnd as [Hj Hnd].
    cbn [fold_left].
    destruct (used_get U j) eqn:Huj.
    { assert (E : ix_inner sim i (g, U) j = (g, U))
        by (unfold ix_inner; cbn [fst snd]; rewrite Huj; reflexivity).
      rewrite E. destruct (IH g U Hnd) as [Hg Hu].
      assert (Ht : taken i U (j :: js) = taken i U js).
      { unfold taken. simpl. rewrite Huj. reflexivity. }
      rewrite Ht. split; assumption. }
    destruct (sim i j) eqn:Hs.
    + assert (E : ix_inner sim i (g, U) j = (g ++ [j], <[j := true]> U))
        by (unfold ix_inner; cbn [fst snd]; rewrite Huj, Hs; reflexivity).
      rewrite E. destruct (IH (g ++ [j]) (<[j := true]> U) Hnd) as [Hg Hu].
      assert (Ht : taken i (<[j := true]> U) js = taken i U js).
      { unfold taken. apply filter_ext_in. intros k Hk.
        rewrite used_get_insert. destruct (decide (j = k)) as [->|]; [|reflexivity].
        exfalso. apply Hj, list_elem_of_In. exact Hk. }
      assert (Ht' : taken i U (j :: js) = j :: taken i U js).
      { unfold taken. simpl. rewrite Huj, Hs. reflexivity. }
      rewrite Ht in Hg, Hu. rewrite Ht'. split.
      * rewrite Hg, <- app_assoc. reflexivity.
      * intros k. rewrite Hu, used_get_insert, elem_of_cons.
        destruct (decide (j = k)) as [->|Hne]; [tauto|].
        split; intros [H|H]; auto. destruct H as [H|H]; [congruence | auto].
    + assert (E : ix_inner sim i (g, U) j = (g, U))
        by (unfold ix_inner; cbn [fst snd]; rewrite Huj, Hs; reflexivity).
      rewrite E. destruct (IH g U Hnd) as [Hg Hu].
      assert (Ht : taken i U (j :: js) = taken i U js).
      { unfold taken. simpl. rewrite Huj, Hs. reflexivity. }
      rewrite Ht. split; assumption.
Qed.

Lemma taken_sorted (i : nat) (U : gmap nat bool) (a len : nat) :
  StronglySorted lt (taken i U (seq a len)).
Proof.
  unfold taken. revert a. induction len as [|len IH]; intros a; simpl.
  - constructor.
  - destruct (negb (used_get U a) && sim i a); [|apply IH].
    constructor; [apply IH|].
    apply Forall_forall. intros k Hk.
    apply list_elem_of_In, filter_In in Hk as [Hk _]. apply in_seq in Hk. lia.
Qed.

(** One turn of the outer loop. *)
Lemma ix_outer_taken (n i : nat) (gs : list (list nat)) (U : gmap nat bool) :
  used_get U i = false ->
  let sel := taken i U (seq (S i) (n - S i)) in
  fst (ix_outer sim n (gs, U) i)
  = (if decide (sel = []) then gs else gs ++ [i :: sel]) /\
  forall k, used_get (snd (ix_outer sim n (gs, U) i)) k = true
            <-> used_get U k = true \/ k ∈ sel.
Proof.
  intros Hui sel. unfold ix_outer. cbn [fst snd]. rewrite Hui.
  destruct (ix_inner_loop_taken i (seq (S i) (n - S i)) [i] U (NoDup_seq _ _))
    as [Hg Hu].
  cbn [fst snd]. rewrite Hg. fold sel. split; [|exact Hu].
  simpl length. destruct sel as [|j sel']; reflexivity.
Qed.

(** The state of the outer loop after the positions below [m]: every
    group is in ascending order of positions, the groups come in ascending
    order of their anchors, a claimed position is in a group, and of two
    positions that pass the test, the first below [m], one is claimed. *)
Lemma ix_outer_loop_order (n m : nat) :
  m <= n ->
  let st := fold_left (ix_outer sim n) (seq 0 m) ([], ∅) in
  Forall (fun g => StronglySorted lt g /\ hd 0 g < m) (fst st) /\
  StronglySorted lt (map (hd 0) (fst st)) /\
  (forall k, used_get (snd st) k = true -> k ∈ concat (fst st)) /\
  (forall i j, i < m -> i < j < n -> sim i j = true ->
     i ∈ concat (fst st) \/ used_get (snd st) j = true).
Proof.
  induction m as [|m IH]; intros Hle.
  - simpl. split; [constructor|]. split; [constructor|]. split.
    + intros k Hk. rewrite used_get_empty in Hk. discriminate.
    + intros i j Hi. lia.
  - rewrite seq_S, fold_left_app. cbn [fold_left Nat.add].
    specialize (IH ltac:(lia)). cbv zeta in IH.
    destruct (fold_left (ix_outer sim n) (seq 0 m) ([], ∅)) as [gs U].
    cbn [fst snd] in IH. destruct IH as (Hord & Hanch & Hused & Hpair).
    cbv zeta.
    assert (Hord' : Forall (fun g => StronglySorted lt g /\ hd 0 g < S m) gs).
    { eapply Forall_impl; [exact Hord|]. intros g [H1 H2]. split; [exact H1 | lia]. }
    destruct (used_get U m) eqn:Hum.
    { unfold ix_outer. cbn [fst snd]. rewrite Hum. cbn [fst snd].
      split; [exact Hord'|]. split; [exact Hanch|]. split; [exact Hused|].
      intros i j Hi Hj Hs. destruct (decide (i = m)) as [->|Hne].
      - left. apply Hused. exact Hum.
      - apply Hpair; [lia | exact Hj | exact Hs]. }
    destruct (ix_outer_taken n m gs U Hum) as [Hg Hu]. cbv zeta in Hg, Hu.
    set (sel := taken m U (seq (S m) (n - S m))) in *.
    rewrite Hg.
    assert (Hsel : forall k, k ∈ sel -> m < k < n /\ sim m k = true).
    { intros k Hk. apply elem_of_taken in Hk as (Hk & _ & Hs).
      apply elem_of_seq in Hk. split; [lia | exact Hs]. }
    assert (Hlone : forall i j, i < S m -> i < j < n -> sim i j = true ->
              i ∈ concat gs \/ (i = m /\ j ∈ sel) \/
              used_get (snd (ix_outer sim n (gs, U) m)) j = true).
    { intros i j Hi Hj Hs. destruct (decide (i = m)) as [->|Hne].
      - destruct (used_get U j) eqn:Huj.
        + right. right. apply Hu. left. exact Huj.
        + right. left. split; [reflexivity|]. apply elem_of_taken.
          split; [apply elem_of_seq; lia | auto].
      - destruct (Hpair i j ltac:(lia) Hj Hs) as [H|H]; [left; exact H|].
        right. right. apply Hu. left. exact H. }
    destruct (decide (sel = [])) as [Hnil|Hne].
    + split; [exact Hord'|]. split; [exact Hanch|]. split.
      * intros k Hk. apply Hu in Hk as [Hk|Hk]; [apply Hused; exact Hk|].
        rewrite Hnil in Hk. inversion Hk.
      * intros i j Hi Hj Hs.
        destruct (Hlone i j Hi Hj Hs) as [H|[[_ H]|H]]; auto.
        rewrite Hnil in H. inversion H.
    + split.
      { apply Forall_app. split; [exact Hord'|]. constructor; [|constructor].
        split; [|simpl; lia]. constructor; [apply taken_sorted|].
        apply Forall_forall. intros k Hk. apply Hsel in Hk. lia. }
      split.
      { rewrite map_app. apply StronglySorted_app_2.
        - intros x1 x2 Hx1 Hx2. simpl in Hx2.
          apply list_elem_of_singleton in Hx2. subst x2.
          apply list_elem_of_In, in_map_iff in Hx1 as (g & <- & Hg1).
          rewrite Forall_forall in Hord. apply Hord, list_elem_of_In. exact Hg1.
        - exact Hanch.
        - simpl. repeat constructor. }
      split.
      * intros k Hk. rewrite concat_app, elem_of_app. simpl. rewrite app_nil_r.
        apply Hu in Hk as [Hk|Hk]; [left; apply Hused; exact Hk|].
        right. right. exact Hk.
      * intros i j Hi Hj Hs. rewrite concat_app, elem_of_app. simpl.
        rewrite app_nil_r.
        destruct (Hlone i j Hi Hj Hs) as [H|[[-> H]|H]]; auto.
        left. right. left.
Qed.

(** The positions grouped, in full. *)
Lemma ix_groups_order (n : nat) :
  let gs := ix_groups sim n in
  Forall (StronglySorted lt) gs /\
  StronglySorted lt (map (hd 0) gs) /\
  (forall i j, i < j < n -> sim i j = true -> i ∈ concat gs \/ j ∈ concat gs).
Proof.
  pose proof (ix_outer_loop_order n n (Nat.le_refl n)) as (Hord & Hanch & Hused & Hpair).
  cbv zeta. unfold ix_groups. split.
  - eapply Forall_impl; [exact Hord|]. intros g [H _]. exact H.
  - split; [exact Hanch|]. intros i j Hij Hs.
    destruct (Hpair i j ltac:(lia) Hij Hs) as [H|H]; [left; exact H|].
    right. apply Hused. exact H.
Qed.

Lemma taken_all (i : nat) (js : list nat) :
  (forall j, j ∈ js -> sim i j = true) -> taken i ∅ js = js.
Proof.
  unfold taken. induction js as [|j js IH]; intros Hall; [reflexivity|].
  simpl. rewrite used_get_empty, (Hall j ltac:(left)). simpl.
  f_equal. apply IH. intros k Hk. apply Hall. right. exact Hk.
Qed.

Lemma ix_outer_skips (n : nat) (l : list nat) :
  forall st, Forall (fun i => used_get (snd st) i = true) l ->
             fold_left (ix_outer sim n) l st = st.
Proof.
  induction l as [|i l IH]; intros st Hall; [reflexivity|].
  inversion Hall as [|? ? Hi Hl]; subst. simpl.
  unfold ix_outer at 2. rewrite Hi. apply IH. exact Hl.
Qed.

(** When the first position passes the test against all the others, it
    takes them all. *)
Lemma ix_groups_star (n : nat) :
  2 <= n -> (forall j, 0 < j < n -> sim 0 j = true) ->
  ix_groups sim n = [seq 0 n].
Proof.
  intros Hn Hall. unfold ix_groups.
  destruct n as [|n]; [lia|]. cbn [seq fold_left].
  destruct (ix_outer_taken (S n) 0 [] ∅ (used_get_empty 0)) as [Hg Hu].
  cbv zeta in Hg, Hu.
  replace (S n - 1) with n in Hg, Hu by lia.
  rewrite taken_all in Hg, Hu
    by (intros j Hj; apply Hall; apply elem_of_seq in Hj; lia).
  destruct (decide (seq 1 n = [])) as [Hnil|_].
  { destruct n; [lia | discriminate]. }
  rewrite ix_outer_skips.
  - exact Hg.
  - apply Forall_forall. intros k Hk. apply Hu. right. exact Hk.
Qed.

End PositionOrder.

(** ** The grouping pass: order, coverage and size of the groups *)

Lemma pick_middle {ImageHash : Type} (l : list (ImageInfo ImageHash)) :
  forall pre, pick (pre ++ l) (seq (length pre) (length l)) = l.
Proof.
  unfold pick. induction l as [|x l IH]; intros pre; [reflexivity|].
  change (seq (length pre) (length (x :: l)))
    with (length pre :: seq (S (length pre)) (length l)).
  change (omap ?f (?k :: ?ks))
    with (match f k with Some y => y :: omap f ks | None => omap f ks end).
  cbv beta. rewrite list_lookup_middle by reflexivity. f_equal.
  specialize (IH (pre ++ [x])). rewrite <- app_assoc, length_app in IH.
  simpl in IH. rewrite Nat.add_1_r in IH. exact IH.
Qed.

(** All the positions of the input pick the input. *)
Lemma pick_all {ImageHash : Type} (images : list (ImageInfo ImageHash)) :
  pick images (seq 0 (length images)) = images.
Proof. exact (pick_middle images []). Qed.

Lemma length_pick {ImageHash : Type} (images : list (ImageInfo ImageHash))
    (g : list nat) :
  Forall (fun k => (k < length images)%nat) g -> length (pick images g) = length g.
Proof.
  intros Hg. symmetry. eapply Forall2_length. apply pick_in_range. exact Hg.
Qed.

Lemma elem_of_pick {ImageHash : Type} (images : list (ImageInfo ImageHash))
    (g : list nat) (k : nat) (im : ImageInfo ImageHash) :
  k ∈ g -> images !! k = Some im -> im ∈ pick images g.
Proof.
  intros Hk Him. unfold pick. apply list_elem_of_omap. exists k. auto.
Qed.

(** X1. The groups keep the order of the input: every group lists
    positions of the input in ascending order, its anchor first, and the
    groups come in the order of their anchors. *)
Theorem groups_follow_input_order :
  forall (ImageHash : Type) (Distance : ImageHash -> ImageHash -> Z * error)
         (t : float64) (w : World ImageHash),
  exists positions : list (list nat),
    fst (findSimilarImages Distance t w) = map (pick (w_images w)) positions /\
    Forall (fun g => StronglySorted lt g /\
                     Forall2 (fun k im => w_images w !! k = Some im)
                             g (pick (w_images w) g)) positions /\
    StronglySorted lt (map (hd 0%nat) positions).
Proof.
  intros ImageHash Distance t [images out]. simpl w_images.
  set (sim := similar_at Distance images t).
  exists (ix_groups sim (length images)).
  destruct (ix_groups_order sim (length images)) as (Hord & Hanch & _).
  destruct (ix_groups_inv sim (length images)) as (_ & Hrange & _).
  split; [apply findSimilarImages_positions|]. split; [|exact Hanch].
  apply Forall_forall. intros g Hg. split.
  - rewrite Forall_forall in Hord. apply Hord. exact Hg.
  - apply pick_in_range. apply Forall_forall. intros k Hk. apply Hrange.
    apply list_elem_of_In, in_concat. exists g.
    split; apply list_elem_of_In; assumption.
Qed.

(** X2. No similar pair is left out altogether: when an image passes
    the test against a later one, at least one of the two is in a
    group. *)
Theorem similar_pair_is_grouped :
  forall (ImageHash : Type) (Distance : ImageHash -> ImageHash -> Z * error)
         (t : float64) (w : World ImageHash) (i j : nat)
         (a b : ImageInfo ImageHash),
    (i < j)%nat ->
    w_images w !! i = Some a -> w_images w !! j = Some b ->
    passes Distance t (Hash a) (Hash b) = true ->
    exists group, group ∈ fst (findSimilarImages Distance t w) /\
                  (a ∈ group \/ b ∈ group).
Proof.
  intros ImageHash Distance t [images out] i j a b Hij Ha Hb Hpass.
  simpl w_images in *. rewrite findSimilarImages_positions.
  set (sim := similar_at Distance images t).
  destruct (ix_groups_order sim (length images)) as (_ & _ & Hpair).
  assert (Hs : sim i j = true).
  { unfold sim, similar_at. rewrite Ha, Hb. exact Hpass. }
  assert (Hj : (j < length images)%nat).
  { apply lookup_lt_is_Some. eauto. }
  assert (Hin : forall k im, images !! k = Some im ->
             k ∈ concat (ix_groups sim (length images)) ->
             exists group, group ∈ map (pick images) (ix_groups sim (length images))
                           /\ im ∈ group).
  { intros k im Hk Hc. apply list_elem_of_In, in_concat in Hc as (g & Hg & Hkg).
    exists (pick images g). split.
    - apply list_elem_of_In, in_map. exact Hg.
    - apply (elem_of_pick images g k); [apply list_elem_of_In; exact Hkg | exact Hk]. }
  destruct (Hpair i j ltac:(lia) Hs) as [H|H].
  - destruct (Hin i a Ha H) as (group & Hg & Hm). exists group. auto.
  - destruct (Hin j b Hb H) as (group & Hg & Hm). exists group. auto.
Qed.

Lemma similar_pair_is_grouped_witness :
  exists group,
    group ∈ fst (findSimilarImages PHash.Distance Demo.t75 Demo.album) /\
    (Demo.a ∈ group \/ Demo.b ∈ group).
Proof.
  apply (similar_pair_is_grouped PHash.t PHash.Distance Demo.t75 Demo.album
           0 1 Demo.a Demo.b).
  - lia.
  - reflexivity.
  - reflexivity.
  - vm_compute. reflexivity.
Defined.

(** X3. When the first image passes the test against every other image,
    there is one group and it is the whole input, in its order, whatever
    the other images are to each other. *)
Theorem first_image_takes_all :
  forall (ImageHash : Type) (Distance : ImageHash -> ImageHash -> Z * error)
         (t : float64) (w : World ImageHash) (first : ImageInfo ImageHash),
    (2 <= length (w_images w))%nat ->
    w_images w !! 0%nat = Some first ->
    (forall (j : nat) (b : ImageInfo ImageHash),
       (0 < j)%nat -> w_images w !! j = Some b ->
       passes Distance t (Hash first) (Hash b) = true) ->
    fst (findSimilarImages Distance t w) = [w_images w].
Proof.
  intros ImageHash Distance t [images out] first Hlen Hfirst Hall.
  simpl w_images in *. rewrite findSimilarImages_positions.
  rewrite ix_groups_star.
  - simpl. rewrite pick_all. reflexivity.
  - exact Hlen.
  - intros j Hj. unfold similar_at. rewrite Hfirst.
    destruct (lookup_lt_is_Some_2 images j ltac:(lia)) as [b Hb].
    rewrite Hb. apply (Hall j b); [lia | exact Hb].
Qed.

Lemma first_image_takes_all_witness :
  fst (findSimilarImages PHash.Distance Demo.t75
         {| w_images := [Demo.a; Demo.b; Demo.c]; w_stdout := [] |})
  = [[Demo.a; Demo.b; Demo.c]].
Proof.
  apply (first_image_takes_all PHash.t PHash.Distance Demo.t75
           {| w_images := [Demo.a; Demo.b; Demo.c]; w_stdout := [] |} Demo.a).
  - simpl. lia.
  - reflexivity.
  - intros j b Hj Hb.
    destruct j as [|[|[|j]]]; [lia | | | discriminate];
      inversion Hb; subst b; vm_compute; reflexivity.
Defined.

(** X4. The groups never hold more images than the input has, and there
    are at most half as many groups as images: an input of fewer than two
    images gives no group. *)
Theorem grouped_images_bound :
  forall (ImageHash : Type) (Distance : ImageHash -> ImageHash -> Z * error)
         (t : float64) (w : World ImageHash),
    let groups := fst (findSimilarImages Distance t w) in
    (length (concat groups) <= length (w_images w))%nat /\
    (2 * length groups <= length (concat groups))%nat /\
    ((length (w_images w) < 2)%nat -> groups = []).
Proof.
  intros ImageHash Distance t [images out] groups. simpl w_images.
  set (sim := similar_at Distance images t).
  assert (Hgroups : groups = map (pick images) (ix_groups sim (length images)))
    by apply findSimilarImages_positions.
  destruct (ix_groups_inv sim (length images)) as (Hnd & Hrange & Hshape).
  set (gs := ix_groups sim (length images)) in *.
  assert (Hall : Forall (fun k => (k < length images)%nat) (concat gs)).
  { apply Forall_forall. exact Hrange. }
  assert (H1 : (length (concat groups) <= length images)%nat).
  { rewrite Hgroups, concat_map_pick, length_pick by exact Hall.
    assert (Hincl : incl (concat gs) (seq 0%nat (length images))).
    { intros k Hk. apply in_seq. apply list_elem_of_In, Hrange in Hk. lia. }
    pose proof (NoDup_incl_length (proj1 (NoDup_ListNoDup _) Hnd) Hincl) as Hle.
    rewrite length_seq in Hle. exact Hle. }
  assert (H2 : (2 * length groups <= length (concat groups))%nat).
  { rewrite Hgroups. clear Hgroups H1 Hnd Hrange.
    induction gs as [|g gs' IH]; [simpl; lia|].
    simpl concat in Hall. apply Forall_app in Hall as [Hg Hgs'].
    simpl. rewrite length_app, length_pick by exact Hg.
    destruct (Hshape g ltac:(left)) as (a & rest & -> & Hne & _).
    destruct rest as [|j rest]; [congruence|].
    assert (IH' : (2 * length (map (pick images) gs')
                   <= length (concat (map (pick images) gs')))%nat).
    { apply IH.
      - intros g' Hg'. apply Hshape. right. exact Hg'.
      - exact Hgs'. }
    simpl length. lia. }
  split; [exact H1|]. split; [exact H2|].
  intros Hlt. destruct groups as [|g groups']; [reflexivity|].
  simpl in H1, H2. rewrite length_app in *. simpl in H2. lia.
Qed.

(** ** What the grouping pass prints *)

Lemma extends_with_errors_refl (out : list string) : extends_with_errors out out.
Proof. exists []. rewrite app_nil_r. split; [reflexivity | constructor]. Qed.

Lemma extends_with_errors_trans (out0 out1 out2 : list string) :
  extends_with_errors out0 out1 -> extends_with_errors out1 out2 ->
  extends_with_errors out0 out2.
Proof.
  intros (l1 & -> & H1) (l2 & -> & H2). exists (l1 ++ l2).
  rewrite app_assoc. split; [reflexivity|]. apply Forall_app. split; assumption.
Qed.

Lemma extends_with_errors_line (out : list string) (err : string) :
  extends_with_errors out (out ++ [println2 "Error calculating distance:" err]).
Proof.
  eexists. split; [reflexivity|]. constructor; [|constructor]. exists err. reflexivity.
Qed.

Section GroupingOutput.

Context {ImageHash : Type}.

Variable Distance : ImageHash -> ImageHash -> Z * error.
Variable images : list (ImageInfo ImageHash).
Variable similarityThreshold : float64.

(** The distance between any two images of the input is defined. *)
Let defined : Prop :=
  forall a b : ImageInfo ImageHash,
    a ∈ images -> b ∈ images -> snd (Distance (Hash a) (Hash b)) = nil_error.

(** What is printed from [out0] on: lines about distances, and nothing
    when every distance is defined. *)
Let printed (out0 out : list string) : Prop :=
  extends_with_errors out0 out /\ (defined -> out = out0).

Lemma inner_body_printed (i j : nat) (st : Inner) (out0 : list string) :
  printed out0 (in_out st) ->
  printed out0 (in_out (inner_body Distance images similarityThreshold i st j)).
Proof.
  intros [Hext Hdef]. unfold inner_body.
  destruct (used_get (in_used st) j); [split; assumption|].
  destruct (images !! i) as [imi|] eqn:Hi; [|split; assumption].
  destruct (images !! j) as [imj|] eqn:Hj; [|split; assumption].
  destruct (Distance (Hash imi) (Hash imj)) as [d [e|]] eqn:HD.
  - simpl. split.
    + eapply extends_with_errors_trans; [exact Hext|].
      apply extends_with_errors_line.
    + intros Hall. exfalso.
      pose proof (Hall imi imj (list_elem_of_lookup_2 _ _ _ Hi)
                    (list_elem_of_lookup_2 _ _ _ Hj)) as H.
      rewrite HD in H. discriminate.
  - destruct (F64.geb (similarity_of d) similarityThreshold);
      split; assumption.
Qed.

Lemma inner_loop_printed (i : nat) (js : list nat) (out0 : list string) :
  forall st, printed out0 (in_out st) ->
             printed out0 (in_out (fold_left (inner_body Distance images
                                                similarityThreshold i) js st)).
Proof.
  induction js as [|j js IH]; intros st Hst; simpl; [exact Hst|].
  apply IH. apply inner_body_printed. exact Hst.
Qed.

Lemma outer_body_printed (i : nat) (st : Outer) (out0 : list string) :
  printed out0 (out_stdout st) ->
  printed out0 (out_stdout (outer_body Distance images similarityThreshold st i)).
Proof.
  intros Hst. unfold outer_body.
  destruct (used_get (out_used st) i); [exact Hst|].
  destruct (images !! i) as [imi|]; [|exact Hst].
  simpl. unfold inner_loop. apply inner_loop_printed. exact Hst.
Qed.

Lemma outer_loop_printed (l : list nat) (out0 : list string) :
  forall st, printed out0 (out_stdout st) ->
             printed out0 (out_stdout (fold_left (outer_body Distance images
                                                    similarityThreshold) l st)).
Proof.
  induction l as [|i l IH]; intros st Hst; simpl; [exact Hst|].
  apply IH. apply outer_body_printed. exact Hst.
Qed.

Lemma findSimilarImages_printed (out : list string) :
  let out' := w_stdout (snd (findSimilarImages Distance similarityThreshold
                               {| w_images := images; w_stdout := out |})) in
  extends_with_errors out out' /\ (defined -> out' = out).
Proof.
  unfold findSimilarImages, outer_loop. simpl.
  apply (outer_loop_printed (seq 0 (length images)) out
           {| out_groups := []; out_used := ∅; out_stdout := out |}).
  split; [apply extends_with_errors_refl | reflexivity].
Qed.

End GroupingOutput.

(** X5. The grouping pass only adds to what has been printed, one line
    [Error calculating distance: ...] after another, and it prints
    nothing when the distance between any two images of the input is
    defined. *)
Theorem grouping_prints_distance_errors_only :
  forall (ImageHash : Type) (Distance : ImageHash -> ImageHash -> Z * error)
         (t : float64) (w : World ImageHash),
    let out' := w_stdout (snd (findSimilarImages Distance t w)) in
    (exists lines,
       out' = w_stdout w ++ lines /\
       Forall (fun line =>
                 exists err, line = println2 "Error calculating distance:" err)
              lines) /\
    ((forall a b, a ∈ w_images w -> b ∈ w_images w ->
                  snd (Distance (Hash a) (Hash b)) = nil_error) ->
     out' = w_stdout w).
Proof.
  intros ImageHash Distance t [images out]. simpl w_images. simpl w_stdout.
  exact (findSimilarImages_printed Distance images t out).
Qed.

(** ** Whole percentages *)

Lemma percentage_check_all :
  forallb percentage_check (map Z.of_nat (seq 0 101)) = true.
Proof. vm_compute. reflexivity. Qed.

Lemma percentage_check_range (n : Z) :
  0 <= n <= 100 -> percentage_check n = true.
Proof.
  intros Hn. pose proof percentage_check_all as Hall.
  rewrite forallb_forall in Hall. apply Hall.
  apply in_map_iff. exists (Z.to_nat n). split; [lia|].
  apply in_seq. lia.
Qed.

(** X6. For a whole percentage [n] from 0 to 100 the parser returns the
    float nearest to [n/100], and the rounding never shows in the test of
    the grouping pass: a pair at a distance [d] from 0 to 64 passes
    exactly when [n/100 <= 1 - d/64] holds of the exact fractions. *)
Theorem whole_percentage_threshold :
  forall (Sscanf_f : string -> float64 * error) (s : string) (n : Z),
    0 <= n <= 100 ->
    Sscanf_f s = (F64.of_int n, nil_error) ->
    exists t : float64,
      parsePercentage Sscanf_f s = (t, nil_error) /\
      t = F64.div (F64.of_int n) (F64.of_int 100) /\
      forall (ImageHash : Type) (Distance : ImageHash -> ImageHash -> Z * error)
             (h other : ImageHash) (d : Z),
        0 <= d <= 64 ->
        Distance h other = (d, nil_error) ->
        (passes Distance t h other = true <-> 64 * n <= 100 * (64 - d)).
Proof.
  intros Sscanf_f s n Hn Hs.
  pose proof (percentage_check_range n Hn) as Hc.
  unfold percentage_check in Hc. apply andb_true_iff in Hc as [Hrange Hall].
  apply negb_true_iff in Hrange.
  exists (F64.div (F64.of_int n) (F64.of_int 100)).
  split; [|split; [reflexivity|]].
  - unfold parsePercentage. rewrite Hs, Hrange. reflexivity.
  - intros ImageHash Distance h other d Hd HD.
    rewrite (passes_defined Distance _ h other d HD).
    rewrite forallb_forall in Hall.
    assert (Hin : In d (map Z.of_nat (seq 0 65))).
    { apply in_map_iff. exists (Z.to_nat d). split; [lia|]. apply in_seq. lia. }
    specialize (Hall d Hin). apply eqb_prop in Hall. rewrite Hall.
    apply Z.leb_le.
Qed.

Lemma whole_percentage_threshold_witness :
  exists t : float64,
    parsePercentage Demo.scan "80" = (t, nil_error) /\
    t = F64.div (F64.of_int 80) (F64.of_int 100) /\
    forall (ImageHash : Type) (Distance : ImageHash -> ImageHash -> Z * error)
           (h other : ImageHash) (d : Z),
      0 <= d <= 64 ->
      Distance h other = (d, nil_error) ->
      (passes Distance t h other = true <-> 64 * 80 <= 100 * (64 - d)).
Proof.
  apply (whole_percentage_threshold Demo.scan "80" 80).
  - lia.
  - reflexivity.
Defined.

(** ** What the library sort keeps

    The sort touches the data through [Less] and [Swap] only: a property
    of the state that both keep is kept by the sort, whatever the
    comparisons answer. *)

Section PdqSortKeeps.

Local Open Scope nat_scope.

Context {St : Type}.

Variable data : @lessSwap St.
Variable xorshift_next : Z -> Z.
Variable P : St -> Prop.

Hypothesis Less_keeps : forall i j, keeps P (Less data i j).
Hypothesis Swap_keeps : forall i j, keeps P (Swap data i j).

Lemma keeps_ret {A : Type} (a : A) : keeps P (ret a).
Proof. intros s Hs. exact Hs. Qed.

Lemma keeps_bind {A B : Type} (c : M A) (k : A -> M B) :
  keeps P c -> (forall a, keeps P (k a)) -> keeps P (bind c k).
Proof.
  intros Hc Hk s Hs. unfold bind. specialize (Hc s Hs).
  destruct (c s) as [a s1]. apply Hk. exact Hc.
Qed.

(** One step through a computation built from [bind], [ret], the two
    callbacks and case distinctions. *)
Ltac keeps_step :=
  lazymatch goal with
  | |- keeps _ (bind _ _) => apply keeps_bind; [|intros ?]
  | |- keeps _ (ret _) => apply keeps_ret
  | |- keeps _ (Less _ _ _) => apply Less_keeps
  | |- keeps _ (Swap _ _ _) => apply Swap_keeps
  | |- keeps _ (if ?b then _ else _) => destruct b
  | |- keeps _ (match ?x with _ => _ end) => destruct x
  end.

Ltac keeps_auto := repeat (keeps_step; try assumption).

Lemma keeps_for_each (l : list nat) (body : nat -> M unit) :
  (forall i, keeps P (body i)) -> keeps P (for_each l body).
Proof.
  intros Hbody. induction l as [|i l IH]; simpl; keeps_auto. apply Hbody.
Qed.

Lemma keeps_insertion_shift (a j : nat) : keeps P (insertion_shift data a j).
Proof. induction j as [|j IH]; cbn [insertion_shift]; keeps_auto. Qed.

Lemma keeps_insertionSort_func (a b : nat) : keeps P (insertionSort_func data a b).
Proof. apply keeps_for_each. intros i. apply keeps_insertion_shift. Qed.

Lemma keeps_siftDown_loop (fuel : nat) :
  forall root hi first, keeps P (siftDown_loop data fuel root hi first).
Proof.
  induction fuel as [|fuel IH]; intros root hi first; cbn [siftDown_loop];
    keeps_auto; apply IH.
Qed.

Lemma keeps_heapSort_func (a b : nat) : keeps P (heapSort_func data a b).
Proof.
  unfold heapSort_func, siftDown_func. keeps_auto.
  - apply keeps_for_each. intros i. apply keeps_siftDown_loop.
  - apply keeps_for_each. intros i. keeps_auto. apply keeps_siftDown_loop.
Qed.

Lemma keeps_scan_less (fuel : nat) :
  forall i j a, keeps P (scan_less data fuel i j a).
Proof.
  induction fuel as [|fuel IH]; intros i j a; cbn [scan_less]; keeps_auto; apply IH.
Qed.

Lemma keeps_scan_not_less (fuel : nat) :
  forall i j a, keeps P (scan_not_less data fuel i j a).
Proof.
  induction fuel as [|fuel IH]; intros i j a; cbn [scan_not_less]; keeps_auto;
    apply IH.
Qed.

Lemma keeps_partition_loop (fuel : nat) :
  forall i j a, keeps P (partition_loop data fuel i j a).
Proof.
  induction fuel as [|fuel IH]; intros i j a; cbn [partition_loop]; keeps_auto;
    first [apply keeps_scan_less | apply keeps_scan_not_less | apply IH].
Qed.

Lemma keeps_partition_func (a b pivot : nat) :
  keeps P (partition_func data a b pivot).
Proof.
  unfold partition_func. keeps_auto;
    first [apply keeps_scan_less | apply keeps_scan_not_less
          | apply keeps_partition_loop].
Qed.

Lemma keeps_scan_up_not_less (fuel : nat) :
  forall i j a, keeps P (scan_up_not_less data fuel i j a).
Proof.
  induction fuel as [|fuel IH]; intros i j a; cbn [scan_up_not_less]; keeps_auto;
    apply IH.
Qed.

Lemma keeps_scan_down_less (fuel : nat) :
  forall i j a, keeps P (scan_down_less data fuel i j a).
Proof.
  induction fuel as [|fuel IH]; intros i j a; cbn [scan_down_less]; keeps_auto;
    apply IH.
Qed.

Lemma keeps_partitionEqual_loop (fuel : nat) :
  forall i j a, keeps P (partitionEqual_loop data fuel i j a).
Proof.
  induction fuel as [|fuel IH]; intros i j a; cbn [partitionEqual_loop];
    keeps_auto;
    first [apply keeps_scan_up_not_less | apply keeps_scan_down_less | apply IH].
Qed.

Lemma keeps_partitionEqual_func (a b pivot : nat) :
  keeps P (partitionEqual_func data a b pivot).
Proof.
  unfold partitionEqual_func. keeps_auto. apply keeps_partitionEqual_loop.
Qed.

Lemma keeps_order2_func (a b swaps : nat) : keeps P (order2_func data a b swaps).
Proof. unfold order2_func. keeps_auto. Qed.

Lemma keeps_median_func (a b c swaps : nat) :
  keeps P (median_func data a b c swaps).
Proof.
  unfold median_func.
  repeat first [apply keeps_order2_func | keeps_step].
Qed.

Lemma keeps_choosePivot_func (a b : nat) : keeps P (choosePivot_func data a b).
Proof.
  unfold choosePivot_func, medianAdjacent_func. cbv zeta.
  repeat first [apply keeps_median_func | keeps_step].
Qed.

Lemma keeps_reverse_loop (fuel : nat) :
  forall i j, keeps P (reverse_loop data fuel i j).
Proof.
  induction fuel as [|fuel IH]; intros i j; cbn [reverse_loop]; keeps_auto;
    apply IH.
Qed.

Lemma keeps_scan_sorted (fuel : nat) :
  forall i b, keeps P (scan_sorted data fuel i b).
Proof.
  induction fuel as [|fuel IH]; intros i b; cbn [scan_sorted]; keeps_auto;
    apply IH.
Qed.

Lemma keeps_shift_left (j : nat) : keeps P (shift_left data j).
Proof. induction j as [|j IH]; cbn [shift_left]; keeps_auto. Qed.

Lemma keeps_shift_right (fuel : nat) :
  forall j b, keeps P (shift_right data fuel j b).
Proof.
  induction fuel as [|fuel IH]; intros j b; cbn [shift_right]; keeps_auto;
    apply IH.
Qed.

Lemma keeps_partialInsertionSort_loop (steps : nat) :
  forall i a b, keeps P (partialInsertionSort_loop data steps i a b).
Proof.
  induction steps as [|steps IH]; intros i a b;
    cbn [partialInsertionSort_loop]; keeps_auto;
    first [apply keeps_scan_sorted | apply keeps_shift_left
          | apply keeps_shift_right | apply IH].
Qed.

Lemma keeps_breakPatterns_loop (turns : nat) :
  forall i random modulus idx a length,
    keeps P (breakPatterns_loop data xorshift_next turns i random modulus idx a length).
Proof.
  induction turns as [|turns IH]; intros i random modulus idx a length;
    cbn [breakPatterns_loop]; cbv zeta; keeps_auto; apply IH.
Qed.

Lemma keeps_breakPatterns_func (a b : nat) :
  keeps P (breakPatterns_func data xorshift_next a b).
Proof.
  unfold breakPatterns_func. cbv zeta. keeps_auto. apply keeps_breakPatterns_loop.
Qed.

Lemma keeps_pdqsort_func (fuel : nat) :
  forall (a b limit : nat) (wasBalanced wasPartitioned : bool) (s s' : St),
    P s ->
    pdqsort_func data xorshift_next fuel a b limit wasBalanced wasPartitioned s
    = Some s' ->
    P s'.
Proof.
  induction fuel as [|fuel IH];
    intros a b limit wasBalanced wasPartitioned s s' HP Hrun; [discriminate|].
  cbn [pdqsort_func] in Hrun. cbv zeta in Hrun.
  destruct (b - a <=? maxInsertion).
  { inversion Hrun; subst s'. apply keeps_insertionSort_func. exact HP. }
  destruct (limit =? 0).
  { inversion Hrun; subst s'. apply keeps_heapSort_func. exact HP. }
  (* breaking patterns *)
  match type of Hrun with
  | (match ?X with _ => _ end) = _ =>
      assert (HA : P (snd X))
        by (destruct (negb wasBalanced); cbn [snd];
            [apply keeps_breakPatterns_func|]; exact HP);
      destruct X as [limit0 s0]
  end.
  cbn [snd] in HA.
  (* the pivot *)
  pose proof (keeps_choosePivot_func a b s0 HA) as HB.
  destruct (choosePivot_func data a b s0) as [[pivot hint] s1]. cbn [snd] in HB.
  match type of Hrun with
  | (match ?X with _ => _ end) = _ =>
      assert (HC : P (snd X))
        by (destruct hint; cbn [snd]; try exact HB;
            apply keeps_reverse_loop; exact HB);
      destruct X as [[pivot0 hint0] s2]
  end.
  cbn [snd] in HC.
  (* the attempt at an insertion sort *)
  match type of Hrun with
  | (match ?X with _ => _ end) = _ =>
      assert (HD : P (snd X))
        by (destruct (wasBalanced && wasPartitioned); [destruct hint0|];
            cbn [snd]; try exact HC;
            apply keeps_partialInsertionSort_loop; exact HC);
      destruct X as [sorted s3]
  end.
  cbn [snd] in HD.
  destruct sorted; [inversion Hrun; subst s'; exact HD|].
  (* the comparison with the predecessor of the range *)
  match type of Hrun with
  | (match ?X with _ => _ end) = _ =>
      assert (HE : P (snd X))
        by (destruct (0 <? a); [|exact HD];
            pose proof (Less_keeps (a - 1) pivot0 s3 HD) as HL;
            destruct (Less data (a - 1) pivot0 s3); exact HL);
      destruct X as [equal s4]
  end.
  cbn [snd] in HE.
  destruct equal.
  - pose proof (keeps_partitionEqual_func a b pivot0 s4 HE) as HF.
    destruct (partitionEqual_func data a b pivot0 s4) as [mid s5].
    eapply IH; [exact HF | exact Hrun].
  - pose proof (keeps_partition_func a b pivot0 s4 HE) as HF.
    destruct (partition_func data a b pivot0 s4) as [[mid alreadyPartitioned] s5].
    cbn [snd] in HF.
    destruct (mid - a <? b - mid).
    + destruct (pdqsort_func data xorshift_next fuel a mid limit0 true true s5)
        as [s6|] eqn:Hleft; [|discriminate].
      eapply IH; [|exact Hrun]. eapply IH; [exact HF | exact Hleft].
    + destruct (pdqsort_func data xorshift_next fuel (mid + 1) b limit0 true true s5)
        as [s6|] eqn:Hright; [|discriminate].
      eapply IH; [|exact Hrun]. eapply IH; [exact HF | exact Hright].
Qed.

End PdqSortKeeps.

(** [sort.Slice] keeps what the closure and the exchange of two elements
    keep. *)
Lemma sort_Slice_keeps {A E : Type} (next : Z -> Z)
    (less : list A -> nat -> nat -> E -> bool * E) (P : list A * E -> Prop) :
  (forall x i j e, P (x, e) -> P (x, snd (less x i j e))) ->
  (forall x i j e, P (x, e) -> P (swap_elems x i j, e)) ->
  forall x env, P (x, env) -> P (sort_Slice next less x env).
Proof.
  intros Hless Hswap x env HP. unfold sort_Slice.
  destruct (sort_Slice_run next less x env) as [s'|] eqn:Hrun; [|exact HP].
  simpl. unfold sort_Slice_run in Hrun.
  eapply (keeps_pdqsort_func (slice_data less) next P); [| |exact HP | exact Hrun].
  - intros i j [x0 e0] H0. simpl.
    specialize (Hless x0 i j e0 H0). destruct (less x0 i j e0). exact Hless.
  - intros i j [x0 e0] H0. simpl. apply Hswap. exact H0.
Qed.

(** ** Reclaiming a group of any size *)

Section ReclaimAnyGroup.

Context {ImageHash : Type}.

Variable Distance : ImageHash -> ImageHash -> Z * error.
Variable next : Z -> Z.
Variable group : list (ImageInfo ImageHash).

Lemma less_closure_prints (l : list (ImageInfo ImageHash)) (i j : nat)
    (out : list string) :
  extends_with_errors out (snd (less_closure Distance l i j out)).
Proof.
  unfold less_closure.
  destruct (l !! i) as [gi|]; [|apply extends_with_errors_refl].
  destruct (l !! 0%nat) as [g0|]; [|apply extends_with_errors_refl].
  destruct (l !! j) as [gj|]; [|apply extends_with_errors_refl].
  destruct (Distance (Hash gi) (Hash g0)) as [di [e|]];
    [apply extends_with_errors_line|].
  destruct (Distance (Hash gj) (Hash g0)) as [dj [e|]];
    [apply extends_with_errors_line | apply extends_with_errors_refl].
Qed.

Lemma less_closure_silent (l : list (ImageInfo ImageHash)) (i j : nat)
    (out : list string) :
  (forall a b, a ∈ l -> b ∈ l -> snd (Distance (Hash a) (Hash b)) = nil_error) ->
  snd (less_closure Distance l i j out) = out.
Proof.
  intros Hdef. unfold less_closure.
  destruct (l !! i) as [gi|] eqn:Hi; [|reflexivity].
  destruct (l !! 0%nat) as [g0|] eqn:H0; [|reflexivity].
  destruct (l !! j) as [gj|] eqn:Hj; [|reflexivity].
  pose proof (Hdef gi g0 (list_elem_of_lookup_2 _ _ _ Hi)
                (list_elem_of_lookup_2 _ _ _ H0)) as Ei.
  pose proof (Hdef gj g0 (list_elem_of_lookup_2 _ _ _ Hj)
                (list_elem_of_lookup_2 _ _ _ H0)) as Ej.
  destruct (Distance (Hash gi) (Hash g0)) as [di ei]. simpl in Ei. subst ei.
  destruct (Distance (Hash gj) (Hash g0)) as [dj ej]. simpl in Ej. subst ej.
  reflexivity.
Qed.

Lemma sort_group_Permutation (out : list string) :
  fst (sort_Slice next (less_closure Distance) group out) ≡ₚ group.
Proof.
  apply (sort_Slice_keeps next (less_closure Distance)
           (fun s => fst s ≡ₚ group)).
  - intros x i j e H. exact H.
  - intros x i j e H. simpl in *. rewrite swap_elems_Permutation. exact H.
  - reflexivity.
Qed.

Lemma sort_group_prints (out : list string) :
  extends_with_errors out (snd (sort_Slice next (less_closure Distance) group out)).
Proof.
  apply (sort_Slice_keeps next (less_closure Distance)
           (fun s => extends_with_errors out (snd s))).
  - intros x i j e H. simpl in *.
    eapply extends_with_errors_trans; [exact H | apply less_closure_prints].
  - intros x i j e H. exact H.
  - apply extends_with_errors_refl.
Qed.

Lemma sort_group_silent (out : list string) :
  (forall a b, a ∈ group -> b ∈ group ->
               snd (Distance (Hash a) (Hash b)) = nil_error) ->
  snd (sort_Slice next (less_closure Distance) group out) = out.
Proof.
  intros Hdef.
  apply (sort_Slice_keeps next (less_closure Distance)
           (fun s => fst s ≡ₚ group /\ snd s = out)).
  - intros x i j e [Hperm He]. simpl in *. subst e. split; [exact Hperm|].
    apply less_closure_silent. intros a b Ha Hb.
    apply Hdef; rewrite <- Hperm; assumption.
  - intros x i j e [Hperm He]. simpl in *. split; [|exact He].
    rewrite swap_elems_Permutation. exact Hperm.
  - split; reflexivity.
Qed.

End ReclaimAnyGroup.

(** X7. Whatever the size of the group and whatever the comparisons
    answer, the sort of the reclaimer only rearranges the group: the
    slice whose members after the first are deleted holds the members of
    the group, each as often as the group does.  The sort prints nothing
    but lines [Error calculating distance: ...], and no line at all when
    the distance between any two members is defined. *)
Theorem reclaim_rearranges_the_group :
  forall (ImageHash FS : Type) (Distance : ImageHash -> ImageHash -> Z * error)
         (os_Stat : FS -> string -> Z * error)
         (os_Remove : FS -> string -> FS * error) (next : Z -> Z)
         (group : list (ImageInfo ImageHash)) (w : Sys FS),
    let result := deleteSimilarImages Distance os_Stat os_Remove next group w in
    let sorted := snd (fst result) in
    let out' := sys_stdout (snd result) in
    sorted ≡ₚ group /\
    fst (fst result)
    = fst (delete_loop os_Stat os_Remove (drop 1 sorted) 0 (sys_fs w)) /\
    (exists lines,
       out' = sys_stdout w ++ lines /\
       Forall (fun line =>
                 exists err, line = println2 "Error calculating distance:" err)
              lines) /\
    ((forall a b, a ∈ group -> b ∈ group ->
                  snd (Distance (Hash a) (Hash b)) = nil_error) ->
     out' = sys_stdout w).
Proof.
  intros ImageHash FS Distance os_Stat os_Remove next group w.
  pose proof (sort_group_Permutation Distance next group (sys_stdout w)) as Hperm.
  pose proof (sort_group_prints Distance next group (sys_stdout w)) as Hout.
  pose proof (sort_group_silent Distance next group (sys_stdout w)) as Hsilent.
  unfold deleteSimilarImages.
  destruct (sort_Slice next (less_closure Distance) group (sys_stdout w))
    as [sorted out'].
  destruct (delete_loop os_Stat os_Remove (drop 1 sorted) 0 (sys_fs w))
    as [r fs] eqn:Hloop.
  cbn [fst snd sys_stdout] in *. rewrite Hloop.
  split; [exact Hperm|]. split; [reflexivity|]. split; [exact Hout | exact Hsilent].
Qed.

(** ** Reclaiming on the in-memory file system *)

Lemma wrap64_idemp (z : Z) : wrap64 (wrap64 z) = wrap64 z.
Proof.
  unfold wrap64. replace ((z + 2 ^ 63) mod 2 ^ 64 - 2 ^ 63 + 2 ^ 63)
    with ((z + 2 ^ 63) mod 2 ^ 64) by ring.
  rewrite Z.mod_mod by (vm_compute; discriminate). reflexivity.
Qed.

Lemma wrap64_add_l (u v : Z) : wrap64 (wrap64 u + v) = wrap64 (u + v).
Proof.
  unfold wrap64. f_equal.
  replace ((u + 2 ^ 63) mod 2 ^ 64 - 2 ^ 63 + v + 2 ^ 63)
    with ((u + 2 ^ 63) mod 2 ^ 64 + v) by ring.
  rewrite Zplus_mod_idemp_l. f_equal. ring.
Qed.

Section ReclaimOnDisk.

Context {ImageHash : Type}.

Abbreviation Image := (ImageInfo ImageHash).

(** Every file of the list is there and can be removed. *)
Let removable (fs : MemFS.t) (l : list Image) : Prop :=
  forall x, x ∈ l -> is_Some (MemFS.files fs !! Path x) /\
                     Path x ∉ MemFS.locked fs.

Lemma total_size_Permutation (fs : MemFS.t) (l1 l2 : list Image) :
  l1 ≡ₚ l2 -> total_size fs l1 = total_size fs l2.
Proof.
  unfold total_size. induction 1; simpl; try lia.
Qed.

Lemma total_size_ext (fs fs' : MemFS.t) (l : list Image) :
  (forall x, x ∈ l -> MemFS.files fs' !! Path x = MemFS.files fs !! Path x) ->
  total_size fs' l = total_size fs l.
Proof.
  unfold total_size. induction l as [|x l IH]; intros Hext; simpl; [reflexivity|].
  rewrite (Hext x ltac:(left)), IH; [reflexivity|].
  intros y Hy. apply Hext. right. exact Hy.
Qed.

(** The deletion loop over files that are there, under distinct paths:
    all of them go, the others stay, and the sizes add up. *)
Lemma delete_loop_on_disk (rest : list Image) :
  forall (fs : MemFS.t) (t : Z),
    NoDup (map Path rest) -> removable fs rest -> wrap64 t = t ->
    exists fs',
      delete_loop MemFS.Stat MemFS.Remove rest t fs
      = ((wrap64 (t + total_size fs rest), nil_error), fs') /\
      MemFS.locked fs' = MemFS.locked fs /\
      forall p, MemFS.files fs' !! p
                = if bool_decide (p ∈ map Path rest) then None
                  else MemFS.files fs !! p.
Proof.
  induction rest as [|x rest IH]; intros fs t Hnd Hrem Ht.
  - exists fs. simpl. rewrite Z.add_0_r, Ht. repeat split.
  - simpl map in Hnd. apply NoDup_cons in Hnd as [Hx Hnd].
    destruct (Hrem x ltac:(left)) as [[size Hsize] Hlock].
    cbn [delete_loop]. unfold MemFS.Stat at 1. rewrite Hsize.
    unfold MemFS.Remove at 1. rewrite Hsize.
    destruct (decide (Path x ∈ MemFS.locked fs)) as [Hin|_]; [contradiction|].
    set (fs1 := {| MemFS.files := delete (Path x) (MemFS.files fs);
                   MemFS.locked := MemFS.locked fs |}).
    assert (Hother : forall y, y ∈ rest ->
              MemFS.files fs1 !! Path y = MemFS.files fs !! Path y).
    { intros y Hy. simpl. apply lookup_delete_ne. intros Heq. apply Hx.
      rewrite Heq. apply list_elem_of_In, in_map, list_elem_of_In. exact Hy. }
    destruct (IH fs1 (add64 t size) Hnd) as (fs' & Hloop & Hlocked & Hfiles).
    { intros y Hy. rewrite (Hother y Hy).
      apply Hrem. right. exact Hy. }
    { apply wrap64_idemp. }
    exists fs'. split; [|split].
    + rewrite Hloop. unfold add64. rewrite wrap64_add_l.
      rewrite (total_size_ext fs fs1 rest Hother).
      unfold total_size at 2. simpl foldr. rewrite Hsize. simpl default.
      do 3 f_equal. fold (total_size fs rest). ring.
    + exact Hlocked.
    + intros p. rewrite Hfiles. simpl map.
      destruct (decide (p = Path x)) as [->|Hne].
      * rewrite (bool_decide_eq_true_2 (Path x ∈ Path x :: map Path rest))
          by left.
        simpl. rewrite lookup_delete_eq.
        destruct (bool_decide (Path x ∈ map Path rest)); reflexivity.
      * simpl. rewrite lookup_delete_ne by congruence.
        destruct (bool_decide (p ∈ map Path rest)) eqn:E.
        -- apply bool_decide_eq_true in E.
           rewrite bool_decide_eq_true_2 by (right; exact E). reflexivity.
        -- apply bool_decide_eq_false in E.
           rewrite bool_decide_eq_false_2; [reflexivity|].
           intros Hin. apply elem_of_cons in Hin as [Hin|Hin]; auto.
Qed.

End ReclaimOnDisk.

(** X8. On a disk where the files of a group are all there, under
    distinct paths, and can be removed, the reclaimer succeeds, whatever
    the size of the group: it returns the sizes of the files it removed,
    added up as an [int64], it removes every member but the one the sort
    left in front, and it touches no other file. *)
Theorem reclaim_leaves_one_file :
  forall (ImageHash : Type) (Distance : ImageHash -> ImageHash -> Z * error)
         (next : Z -> Z) (group : list (ImageInfo ImageHash)) (w : Sys MemFS.t),
    NoDup (map Path group) ->
    (forall x, x ∈ group ->
       is_Some (MemFS.files (sys_fs w) !! Path x) /\
       Path x ∉ MemFS.locked (sys_fs w)) ->
    let result := deleteSimilarImages Distance MemFS.Stat MemFS.Remove next group w in
    let sorted := snd (fst result) in
    let files' := MemFS.files (sys_fs (snd result)) in
    sorted ≡ₚ group /\
    fst (fst result)
    = (wrap64 (total_size (sys_fs w) (drop 1 sorted)), nil_error) /\
    (forall x, x ∈ drop 1 sorted -> files' !! Path x = None) /\
    (forall p, p ∉ map Path (drop 1 sorted) ->
               files' !! p = MemFS.files (sys_fs w) !! p) /\
    (forall keeper, head sorted = Some keeper ->
                    files' !! Path keeper = MemFS.files (sys_fs w) !! Path keeper).
Proof.
  intros ImageHash Distance next group w Hnd Hthere.
  pose proof (sort_group_Permutation Distance next group (sys_stdout w)) as Hperm.
  unfold deleteSimilarImages.
  destruct (sort_Slice next (less_closure Distance) group (sys_stdout w))
    as [sorted out'].
  cbn [fst] in Hperm.
  assert (Hnd' : NoDup (map Path sorted)).
  { rewrite Hperm. exact Hnd. }
  assert (Htail : NoDup (map Path (drop 1 sorted)) /\
                  forall keeper, head sorted = Some keeper ->
                                 Path keeper ∉ map Path (drop 1 sorted)).
  { destruct sorted as [|first tl]; simpl in *.
    - split; [constructor | discriminate].
    - apply NoDup_cons in Hnd' as [Hfirst Htl]. split; [exact Htl|].
      intros keeper Hk. inversion Hk; subst keeper. exact Hfirst. }
  destruct Htail as [Hndt Hkeeper].
  destruct (delete_loop_on_disk (drop 1 sorted) (sys_fs w) 0 Hndt)
    as (fs' & Hloop & _ & Hfiles).
  { intros x Hx. apply Hthere. rewrite <- Hperm.
    destruct sorted as [|first tl]; [inversion Hx | right; exact Hx]. }
  { reflexivity. }
  rewrite Hloop. cbn [fst snd sys_fs]. rewrite Z.add_0_l.
  split; [exact Hperm|]. split; [reflexivity|]. split; [|split].
  - intros x Hx. rewrite Hfiles, bool_decide_eq_true_2; [reflexivity|].
    apply list_elem_of_In, in_map, list_elem_of_In. exact Hx.
  - intros p Hp. rewrite Hfiles, bool_decide_eq_false_2; [reflexivity | exact Hp].
  - intros keeper Hk. rewrite Hfiles, bool_decide_eq_false_2; [reflexivity|].
    apply Hkeeper. exact Hk.
Qed.

Lemma reclaim_leaves_one_file_witness :
  let result := deleteSimilarImages PHash.Distance MemFS.Stat MemFS.Remove Demo.next
                  [Demo.a; Demo.b; Demo.d]
                  {| sys_fs := Demo.disk; sys_stdout := [] |} in
  fst (fst result) = (6000, nil_error) /\
  MemFS.files (sys_fs (snd result)) !! "a.jpg"%string = Some 1000.
Proof.
  set (w := {| sys_fs := Demo.disk; sys_stdout := [] |}).
  destruct (reclaim_leaves_one_file PHash.t PHash.Distance Demo.next
              [Demo.a; Demo.b; Demo.d] w)
    as (_ & Htotal & _ & _ & Hkeeper).
  - apply (bool_decide_unpack _). vm_compute. exact I.
  - intros x Hx.
    repeat (apply elem_of_cons in Hx as [->|Hx]);
      [| | |inversion Hx];
      (split; [eexists; vm_compute; reflexivity
              | apply (bool_decide_unpack _); vm_compute; exact I]).
  - split.
    + rewrite Htotal. vm_compute. reflexivity.
    + change "a.jpg"%string with (Path Demo.a).
      rewrite (Hkeeper Demo.a); [vm_compute; reflexivity|].
      vm_compute. reflexivity.
Defined.

(** X9. On such a disk, a group of at most twelve images whose distances
    to the first are defined, none below that of the first to itself,
    loses every file but that of its first image, and the bytes reported
    are the sizes of the files of the other members. *)
Theorem small_group_keeps_first_file :
  forall (ImageHash : Type) (Distance : ImageHash -> ImageHash -> Z * error)
         (next : Z -> Z) (anchor : ImageInfo ImageHash)
         (rest : list (ImageInfo ImageHash)) (w : Sys MemFS.t),
    (length (anchor :: rest) <= 12)%nat ->
    (forall x, x ∈ anchor :: rest ->
               snd (Distance (Hash x) (Hash anchor)) = nil_error) ->
    (forall x, x ∈ anchor :: rest ->
               distance_to Distance anchor anchor <= distance_to Distance anchor x) ->
    NoDup (map Path (anchor :: rest)) ->
    (forall x, x ∈ rest ->
       is_Some (MemFS.files (sys_fs w) !! Path x) /\
       Path x ∉ MemFS.locked (sys_fs w)) ->
    let result := deleteSimilarImages Distance MemFS.Stat MemFS.Remove next
                    (anchor :: rest) w in
    let files' := MemFS.files (sys_fs (snd result)) in
    head (snd (fst result)) = Some anchor /\
    fst (fst result) = (wrap64 (total_size (sys_fs w) rest), nil_error) /\
    files' !! Path anchor = MemFS.files (sys_fs w) !! Path anchor /\
    (forall x, x ∈ rest -> files' !! Path x = None) /\
    (forall p, p ∉ map Path rest -> files' !! p = MemFS.files (sys_fs w) !! p) /\
    sys_stdout (snd result) = sys_stdout w.
Proof.
  intros ImageHash Distance next anchor rest w Hlen Hdef Hfirst Hnd Hthere.
  destruct (reclaim_small_group Distance MemFS.Stat MemFS.Remove next anchor rest w
              Hlen Hdef Hfirst) as (rest' & Hperm & _ & _ & Hrun).
  cbv zeta. rewrite Hrun. cbn [fst snd sys_fs sys_stdout head].
  simpl map in Hnd. apply NoDup_cons in Hnd as [Hanchor Hnd].
  destruct (delete_loop_on_disk rest' (sys_fs w) 0) as (fs' & Hloop & _ & Hfiles).
  { rewrite Hperm. exact Hnd. }
  { intros x Hx. apply Hthere. rewrite <- Hperm. exact Hx. }
  { reflexivity. }
  rewrite Hloop. cbn [fst snd]. rewrite Z.add_0_l.
  assert (Hpaths : forall p, p ∈ map Path rest' <-> p ∈ map Path rest).
  { intros p. rewrite Hperm. reflexivity. }
  split; [reflexivity|]. split.
  { rewrite (total_size_Permutation (sys_fs w) rest' rest Hperm). reflexivity. }
  split; [|split; [|split; [|reflexivity]]].
  - rewrite Hfiles, bool_decide_eq_false_2; [reflexivity|].
    rewrite Hpaths. exact Hanchor.
  - intros x Hx. rewrite Hfiles, bool_decide_eq_true_2; [reflexivity|].
    apply Hpaths. apply list_elem_of_In, in_map, list_elem_of_In. exact Hx.
  - intros p Hp. rewrite Hfiles, bool_decide_eq_false_2; [reflexivity|].
    rewrite Hpaths. exact Hp.
Qed.

Lemma small_group_keeps_first_file_witness :
  let result := deleteSimilarImages PHash.Distance MemFS.Stat MemFS.Remove Demo.next
                  [Demo.a; Demo.d; Demo.b]
                  {| sys_fs := Demo.disk; sys_stdout := [] |} in
  head (snd (fst result)) = Some Demo.a /\
  fst (fst result) = (6000, nil_error) /\
  MemFS.files (sys_fs (snd result)) !! "a.jpg"%string = Some 1000 /\
  MemFS.files (sys_fs (snd result)) !! "b.jpg"%string = None.
Proof.
  set (w := {| sys_fs := Demo.disk; sys_stdout := [] |}).
  destruct (small_group_keeps_first_file PHash.t PHash.Distance Demo.next
              Demo.a [Demo.d; Demo.b] w)
    as (Hhead & Htotal & Hanchor & Hgone & _).
  - simpl. lia.
  - intros x Hx.
    repeat (apply elem_of_cons in Hx as [->|Hx]); [| | |inversion Hx];
      reflexivity.
  - intros x Hx.
    repeat (apply elem_of_cons in Hx as [->|Hx]); [| | |inversion Hx];
      vm_compute; discriminate.
  - apply (bool_decide_unpack _). vm_compute. exact I.
  - intros x Hx.
    repeat (apply elem_of_cons in Hx as [->|Hx]); [| |inversion Hx];
      (split; [eexists; vm_compute; reflexivity
              | apply (bool_decide_unpack _); vm_compute; exact I]).
  - split; [exact Hhead|]. split.
    + rewrite Htotal. vm_compute. reflexivity.
    + split.
      * change "a.jpg"%string with (Path Demo.a).
        rewrite Hanchor. vm_compute. reflexivity.
      * apply (Hgone Demo.b). right. left.
Defined.

(** ** The driver *)

Section DriverFacts.

Context {ImageHash FS : Type}.

Variable Distance : ImageHash -> ImageHash -> Z * error.
Variable os_Stat : FS -> string -> Z * error.
Variable os_Remove : FS -> string -> FS * error.
Variable next : Z -> Z.

(** The deletion loop of [main] only adds to what has been printed. *)
Lemma delete_groups_prints (groups : list (list (ImageInfo ImageHash))) :
  forall (totalSaved : Z) (w : Sys FS),
    exists extra,
      sys_stdout (snd (delete_groups Distance os_Stat os_Remove next groups
                         totalSaved w))
      = sys_stdout w ++ extra.
Proof.
  induction groups as [|group groups IH]; intros totalSaved w.
  - exists []. simpl. rewrite app_nil_r. reflexivity.
  - cbn [delete_groups]. destruct (1 <? length group)%nat; [|apply IH].
    pose proof (sort_group_prints Distance next group (sys_stdout w))
      as (lines & Hlines & _).
    unfold deleteSimilarImages.
    destruct (sort_Slice next (less_closure Distance) group (sys_stdout w))
      as [sorted out']. cbn [snd] in Hlines.
    destruct (delete_loop os_Stat os_Remove (drop 1 sorted) 0 (sys_fs w))
      as [[saved [e|]] fs].
    + destruct (IH totalSaved
                  {| sys_fs := fs;
                     sys_stdout := out' ++ [println2 "Error deleting images:" e] |})
        as (extra & Hextra).
      cbn [sys_fs sys_stdout] in *. rewrite Hextra, Hlines.
      eexists. rewrite <- !app_assoc. reflexivity.
    + destruct (IH (add64 totalSaved saved) {| sys_fs := fs; sys_stdout := out' |})
        as (extra & Hextra).
      cbn [sys_stdout] in *. rewrite Hextra, Hlines.
      eexists. rewrite <- !app_assoc. reflexivity.
Qed.

End DriverFacts.

(** X10. Without [-d] the program removes nothing; with or without it,
    too few arguments, a percentage that is refused or a failure to load
    the images end the run after one line, with the files as they
    were. *)
Theorem main_removes_only_with_d :
  forall (ImageHash FS : Type) (Distance : ImageHash -> ImageHash -> Z * error)
         (os_Stat : FS -> string -> Z * error)
         (os_Remove : FS -> string -> FS * error) (next : Z -> Z)
         (Sscanf_f : string -> float64 * error)
         (loadImages : FS -> string -> list (ImageInfo ImageHash) * error)
         (args : list string) (w : Sys FS),
    let run := main Distance os_Stat os_Remove next Sscanf_f loadImages in
    sys_fs (run false args w) = sys_fs w /\
    forall deleteFlag : bool,
      (length args < 2)%nat \/
      snd (parsePercentage Sscanf_f (nth 1 args ""%string)) <> nil_error \/
      snd (loadImages (sys_fs w) (nth 0 args ""%string)) <> nil_error ->
      sys_fs (run deleteFlag args w) = sys_fs w /\
      exists line, sys_stdout (run deleteFlag args w) = sys_stdout w ++ [line].
Proof.
  intros ImageHash FS Distance os_Stat os_Remove next Sscanf_f loadImages args w run.
  subst run. split.
  - unfold main. destruct (length args <? 2)%nat; [reflexivity|].
    destruct (parsePercentage Sscanf_f (nth 1 args ""%string)) as [t [e|]];
      [reflexivity|].
    destruct (loadImages (sys_fs w) (nth 0 args ""%string)) as [images [e|]];
      [reflexivity|].
    destruct (findSimilarImages Distance t _) as [groups gw]. reflexivity.
  - intros deleteFlag Hstop. unfold main.
    destruct (length args <? 2)%nat eqn:Hargs.
    { split; [reflexivity | eexists; reflexivity]. }
    apply Nat.ltb_ge in Hargs.
    destruct Hstop as [H|Hstop]; [lia|].
    destruct (parsePercentage Sscanf_f (nth 1 args ""%string)) as [t [e|]].
    { split; [reflexivity | eexists; reflexivity]. }
    destruct Hstop as [H|Hstop]; [contradiction|].
    destruct (loadImages (sys_fs w) (nth 0 args ""%string)) as [images [e|]].
    { split; [reflexivity | eexists; reflexivity]. }
    contradiction.
Qed.

(** X11. The flag [-d] does not change the listing of the groups: what
    the program prints with [-d] is what it prints without it, followed
    by the lines of the deletions. *)
Theorem listing_comes_before_the_deletions :
  forall (ImageHash FS : Type) (Distance : ImageHash -> ImageHash -> Z * error)
         (os_Stat : FS -> string -> Z * error)
         (os_Remove : FS -> string -> FS * error) (next : Z -> Z)
         (Sscanf_f : string -> float64 * error)
         (loadImages : FS -> string -> list (ImageInfo ImageHash) * error)
         (args : list string) (w : Sys FS),
    let run := main Distance os_Stat os_Remove next Sscanf_f loadImages in
    exists extra,
      sys_stdout (run true args w) = sys_stdout (run false args w) ++ extra /\
      ((2 <= length args)%nat ->
       snd (parsePercentage Sscanf_f (nth 1 args ""%string)) = nil_error ->
       snd (loadImages (sys_fs w) (nth 0 args ""%string)) = nil_error ->
       exists totalSaved : Z,
         last extra
         = Some ("Total space saved: " ++ pretty totalSaved ++ " bytes")%string).
Proof.
  intros ImageHash FS Distance os_Stat os_Remove next Sscanf_f loadImages args w run.
  subst run. unfold main.
  destruct (length args <? 2)%nat eqn:Hargs.
  { apply Nat.ltb_lt in Hargs. exists []. rewrite app_nil_r.
    split; [reflexivity | lia]. }
  destruct (parsePercentage Sscanf_f (nth 1 args ""%string)) as [t [e|]].
  { exists []. rewrite app_nil_r. split; [reflexivity | discriminate]. }
  destruct (loadImages (sys_fs w) (nth 0 args ""%string)) as [images [e|]].
  { exists []. rewrite app_nil_r. split; [reflexivity|]. intros _ _ H. discriminate. }
  destruct (findSimilarImages Distance t _) as [groups gw].
  set (w1 := {| sys_fs := sys_fs w; sys_stdout := w_stdout gw ++ display groups |}).
  destruct (delete_groups_prints Distance os_Stat os_Remove next groups 0 w1)
    as (extra & Hextra).
  destruct (delete_groups Distance os_Stat os_Remove next groups 0 w1)
    as [totalSaved w2].
  cbn [snd] in Hextra. unfold println. cbn [sys_stdout]. rewrite Hextra.
  exists (extra ++ [("Total space saved: " ++ pretty totalSaved ++ " bytes")%string]).
  rewrite app_assoc. split; [reflexivity|].
  intros _ _ _. exists totalSaved. apply last_snoc.
Qed.

(** X12. When the grouping pass finds no group, the run with [-d]
    removes nothing and reports 0 bytes after the (empty) listing. *)
Theorem nothing_to_reclaim :
  forall (ImageHash FS : Type) (Distance : ImageHash -> ImageHash -> Z * error)
         (os_Stat : FS -> string -> Z * error)
         (os_Remove : FS -> string -> FS * error) (next : Z -> Z)
         (Sscanf_f : string -> float64 * error)
         (loadImages : FS -> string -> list (ImageInfo ImageHash) * error)
         (dir percentage : string) (w : Sys FS) (t : float64)
         (images : list (ImageInfo ImageHash)),
    parsePercentage Sscanf_f percentage = (t, nil_error) ->
    loadImages (sys_fs w) dir = (images, nil_error) ->
    fst (findSimilarImages Distance t
           {| w_images := images; w_stdout := sys_stdout w |}) = [] ->
    let run := main Distance os_Stat os_Remove next Sscanf_f loadImages in
    run true [dir; percentage] w
    = println (run false [dir; percentage] w) "Total space saved: 0 bytes" /\
    sys_fs (run true [dir; percentage] w) = sys_fs w.
Proof.
  intros ImageHash FS Distance os_Stat os_Remove next Sscanf_f loadImages
         dir percentage w t images Hparse Hload Hnone run.
  subst run. unfold main. simpl length. simpl nth. cbn [Nat.ltb Nat.leb].
  rewrite Hparse, Hload.
  destruct (findSimilarImages Distance t _) as [groups gw]. simpl in Hnone.
  subst groups. simpl. split; reflexivity.
Qed.

Lemma nothing_to_reclaim_witness :
  main PHash.Distance MemFS.Stat MemFS.Remove Demo.next Demo.scan
       (fun _ _ => ([Demo.a; Demo.d], nil_error)) true ["photos"; "80"]%string
       {| sys_fs := Demo.disk; sys_stdout := [] |}
  = {| sys_fs := Demo.disk; sys_stdout := ["Total space saved: 0 bytes"%string] |}.
Proof.
  set (w := {| sys_fs := Demo.disk; sys_stdout := [] |}).
  destruct (nothing_to_reclaim PHash.t MemFS.t PHash.Distance MemFS.Stat
              MemFS.Remove Demo.next Demo.scan
              (fun _ _ => ([Demo.a; Demo.d], nil_error))
              "photos" "80" w Demo.t80 [Demo.a; Demo.d])
    as [Hrun _].
  - reflexivity.
  - reflexivity.
  - vm_compute. reflexivity.
  - rewrite Hrun. vm_compute. reflexivity.
Defined.

(** ** Loading the images *)

(** Induction on a tree, with the property known of the entries of a
    directory. *)
Lemma Tree_induction (P : Tree -> Prop) :
  (forall path err, P (NoEntry path err)) ->
  (forall path, P (Plain path)) ->
  (forall path readdir entries, Forall P entries -> P (Dir path readdir entries)) ->
  forall t, P t.
Proof.
  intros Hno Hplain Hdir. fix IH 1. intros [path err|path|path readdir entries].
  - apply Hno.
  - apply Hplain.
  - apply Hdir. induction entries as [|t entries IHentries]; constructor.
    + apply IH.
    + exact IHentries.
Qed.

Section WalkFacts.

Context {St : Type}.

Variable fn : @WalkFunc St.

Lemma run_calls_app (calls1 calls2 : list (string * walkArg)) :
  forall s,
    run_calls fn (calls1 ++ calls2) s
    = match run_calls fn calls1 s with
      | (Some e, s') => (Some e, s')
      | (None, s') => run_calls fn calls2 s'
      end.
Proof.
  induction calls1 as [|[path arg] calls1 IH]; intros s; simpl; [reflexivity|].
  destruct (fn path arg s) as [[e|] s']; [reflexivity | apply IH].
Qed.

(** [filepath.Walk] makes the calls of [visits], in that order, up to the
    first that returns an error. *)
Lemma walk_visits (t : Tree) :
  forall s, walk t fn s = run_calls fn (visits t) s.
Proof.
  induction t as [path err|path|path readdir entries IH] using Tree_induction;
    intros s.
  - simpl. destruct (fn path (NoInfo err) s) as [[e|] s']; reflexivity.
  - simpl. destruct (fn path (Info false nil_error) s) as [[e|] s']; reflexivity.
  - cbn [walk]. destruct readdir as [err|].
    + simpl. destruct (fn path (Info true (Some err)) s) as [[e|] s']; reflexivity.
    + cbn [visits run_calls]. unfold nil_error.
      destruct (fn path (Info true None) s) as [[e|] s1]; [reflexivity|].
      clear s. revert s1.
      induction IH as [|t entries Ht _ IHentries]; intros s1; [reflexivity|].
      cbn [flat_map]. rewrite run_calls_app, <- Ht.
      destruct (walk t fn s1) as [[e|] s2]; [reflexivity|]. apply IHentries.
Qed.

End WalkFacts.

Section LoadingFacts.

Context {ImageHash FS File GoImage : Type}.

Variable os_Tree : FS -> string -> Tree.
Variable os_Open : FS -> string -> File * error.
Variable jpeg_Decode : File -> GoImage * error.
Variable png_Decode : File -> GoImage * error.
Variable nil_image : GoImage.
Variable PerceptionHash : GoImage -> ImageHash * error.
Variable strings_ToLower : string -> string.

Variable fs : FS.

Let open_decode := loadImage os_Open jpeg_Decode png_Decode nil_image strings_ToLower fs.
Let callback :=
  loadImages_func os_Open jpeg_Decode png_Decode nil_image PerceptionHash
                  strings_ToLower fs.
Let suffix := image_suffix strings_ToLower.

(** The file at [path] is opened, decoded and hashed without error. *)
Let loads (path : string) : Prop :=
  snd (open_decode path) = nil_error /\
  snd (PerceptionHash (fst (open_decode path))) = nil_error.

Let info_of (path : string) : ImageInfo ImageHash :=
  {| Path := path; Hash := fst (PerceptionHash (fst (open_decode path))) |}.

(** Where an image of the result comes from. *)
Let loaded_from (calls : list (string * walkArg)) (im : ImageInfo ImageHash) : Prop :=
  (Path im, Info false nil_error) ∈ calls /\
  suffix (Path im) = true /\
  exists (file : File) (img : GoImage),
    os_Open fs (Path im) = (file, nil_error) /\
    (if strings_HasSuffix (strings_ToLower (Path im)) ".jpg"
        || strings_HasSuffix (strings_ToLower (Path im)) ".jpeg"
     then jpeg_Decode file else png_Decode file) = (img, nil_error) /\
    PerceptionHash img = (Hash im, nil_error).

Let paths_of (calls : list (string * walkArg)) : list string :=
  omap (fun call => match snd call with
                    | Info false None => Some (fst call)
                    | _ => None
                    end) calls.

Lemma loadImages_run (dir : string) :
  loadImages os_Tree os_Open jpeg_Decode png_Decode nil_image PerceptionHash
             strings_ToLower fs dir
  = (snd (run_calls callback (visits (os_Tree fs dir)) []),
     fst (run_calls callback (visits (os_Tree fs dir)) [])).
Proof.
  unfold loadImages, filepath_Walk. rewrite walk_visits. fold callback.
  destruct (run_calls callback (visits (os_Tree fs dir)) []). reflexivity.
Qed.

(** The callback on a file with one of the three suffixes. *)
Lemma callback_image (path : string) (images : list (ImageInfo ImageHash)) :
  suffix path = true ->
  callback path (Info false nil_error) images
  = match open_decode path with
    | (_, Some err) => (Some err, images)
    | (img, None) =>
        match PerceptionHash img with
        | (_, Some err) => (Some err, images)
        | (hash, None) => (nil_error, images ++ [{| Path := path; Hash := hash |}])
        end
    end.
Proof.
  intros Hs. unfold callback, loadImages_func. simpl negb.
  unfold suffix, image_suffix in Hs. rewrite Hs. reflexivity.
Qed.

Lemma callback_other (path : string) (IsDir : bool)
    (images : list (ImageInfo ImageHash)) :
  IsDir = true \/ suffix path = false ->
  callback path (Info IsDir nil_error) images = (nil_error, images).
Proof.
  intros H. unfold callback, loadImages_func.
  destruct H as [->|Hs]; [reflexivity|].
  unfold suffix, image_suffix in Hs. rewrite Hs, andb_false_r. reflexivity.
Qed.

(** With one of the three suffixes the third branch of [loadImage] is out
    of reach. *)
Lemma open_decode_image (path : string) (file : File) :
  suffix path = true -> os_Open fs path = (file, nil_error) ->
  open_decode path
  = if strings_HasSuffix (strings_ToLower path) ".jpg"
       || strings_HasSuffix (strings_ToLower path) ".jpeg"
    then jpeg_Decode file else png_Decode file.
Proof.
  intros Hs Hopen. unfold open_decode, loadImage. rewrite Hopen.
  unfold suffix, image_suffix in Hs.
  destruct (strings_HasSuffix (strings_ToLower path) ".jpg"
            || strings_HasSuffix (strings_ToLower path) ".jpeg"); [reflexivity|].
  simpl in Hs. rewrite Hs. reflexivity.
Qed.

Lemma run_calls_all_load (calls : list (string * walkArg)) :
  forall images,
    Forall (fun call => exists IsDir, snd call = Info IsDir nil_error) calls ->
    (forall path, (path, Info false nil_error) ∈ calls -> suffix path = true ->
                  loads path) ->
    run_calls callback calls images
    = (nil_error, images ++ map info_of (List.filter suffix (paths_of calls))).
Proof.
  induction calls as [|[path arg] calls IH]; intros images Hhealthy Hloads.
  - simpl. rewrite app_nil_r. reflexivity.
  - inversion Hhealthy as [|? ? [IsDir Harg] Hrest]; subst. simpl in Harg. subst arg.
    assert (Hloads' : forall p, (p, Info false nil_error) ∈ calls ->
                                suffix p = true -> loads p).
    { intros p Hp. apply Hloads. right. exact Hp. }
    cbn [run_calls].
    destruct IsDir.
    { rewrite callback_other by (left; reflexivity). apply IH; assumption. }
    unfold paths_of. cbn [omap list_omap snd fst]. unfold nil_error.
    fold (paths_of calls). cbn [List.filter].
    destruct (suffix path) eqn:Hs.
    + rewrite callback_image by exact Hs.
      destruct (Hloads path ltac:(left) Hs) as [Hopen Hhash].
      destruct (open_decode path) as [img err] eqn:Himg. simpl in Hopen, Hhash.
      subst err.
      destruct (PerceptionHash img) as [hash err] eqn:Hh. simpl in Hhash. subst err.
      unfold nil_error. cbv beta iota.
      rewrite IH by assumption. cbn [map]. rewrite <- app_assoc.
      unfold info_of at 2. rewrite Himg. simpl fst. rewrite Hh. reflexivity.
    + rewrite callback_other by (right; exact Hs). apply IH; assumption.
Qed.

Lemma run_calls_succeeds (calls : list (string * walkArg)) :
  forall images images',
    run_calls callback calls images = (nil_error, images') ->
    Forall (fun call => exists IsDir, snd call = Info IsDir nil_error) calls /\
    (forall path, (path, Info false nil_error) ∈ calls -> suffix path = true ->
                  loads path).
Proof.
  induction calls as [|[path arg] calls IH]; intros images images' Hrun.
  - split; [constructor|]. intros path Hp. inversion Hp.
  - cbn [run_calls] in Hrun.
    destruct (callback path arg images) as [[e|] images1] eqn:Hcall;
      [discriminate|].
    destruct (IH images1 images' Hrun) as [Hhealthy Hloads].
    assert (Harg : exists IsDir, arg = Info IsDir nil_error).
    { unfold callback, loadImages_func in Hcall.
      destruct arg as [IsDir [e|]|e]; try discriminate. exists IsDir. reflexivity. }
    split; [constructor; [exact Harg | exact Hhealthy]|].
    intros p Hp Hs. apply elem_of_cons in Hp as [Hp|Hp]; [|apply Hloads; assumption].
    inversion Hp; subst p arg. rewrite callback_image in Hcall by exact Hs.
    unfold loads.
    destruct (open_decode path) as [img [e|]]; [discriminate|]. cbn [fst snd].
    destruct (PerceptionHash img) as [hash [e|]]; [discriminate|].
    split; reflexivity.
Qed.

Lemma run_calls_loaded_from (calls : list (string * walkArg)) :
  forall images e images',
    run_calls callback calls images = (e, images') ->
    exists new, images' = images ++ new /\ Forall (loaded_from calls) new.
Proof.
  induction calls as [|[path arg] calls IH]; intros images e images' Hrun.
  - simpl in Hrun. inversion Hrun; subst. exists []. rewrite app_nil_r.
    split; [reflexivity | constructor].
  - cbn [run_calls] in Hrun.
    assert (Hweaken : forall new, Forall (loaded_from calls) new ->
                                  Forall (loaded_from ((path, arg) :: calls)) new).
    { intros new Hnew. eapply Forall_impl; [exact Hnew|].
      intros im (Hin & Hs & Hprov).
      split; [right; exact Hin | split; assumption]. }
    assert (Hstep : exists new1,
               snd (callback path arg images) = images ++ new1 /\
               Forall (loaded_from ((path, arg) :: calls)) new1).
    { unfold callback, loadImages_func.
      destruct arg as [IsDir [e0|]|e0];
        try (exists []; rewrite app_nil_r; split; [reflexivity | constructor]).
      destruct IsDir;
        try (exists []; rewrite app_nil_r; split; [reflexivity | constructor]).
      simpl negb. cbn [andb].
      destruct (strings_HasSuffix (strings_ToLower path) ".jpg"
                || strings_HasSuffix (strings_ToLower path) ".jpeg"
                || strings_HasSuffix (strings_ToLower path) ".png") eqn:Hs;
        [|exists []; rewrite app_nil_r; split; [reflexivity | constructor]].
      fold open_decode.
      destruct (open_decode path) as [img [e0|]] eqn:Himg;
        [exists []; rewrite app_nil_r; split; [reflexivity | constructor]|].
      destruct (PerceptionHash img) as [hash [e0|]] eqn:Hh;
        [exists []; rewrite app_nil_r; split; [reflexivity | constructor]|].
      exists [{| Path := path; Hash := hash |}]. split; [reflexivity|].
      constructor; [|constructor].
      split; [left|split; [exact Hs|]]. simpl.
      unfold open_decode, loadImage in Himg.
      destruct (os_Open fs path) as [file [e0|]] eqn:Hopen; [discriminate|].
      exists file, img. split; [reflexivity|]. split; [|exact Hh].
      destruct (strings_HasSuffix (strings_ToLower path) ".jpg"
                || strings_HasSuffix (strings_ToLower path) ".jpeg");
        [exact Himg|].
      simpl in Hs. rewrite Hs in Himg. exact Himg. }
    destruct Hstep as (new1 & Hnew1 & Hall1).
    destruct (callback path arg images) as [[e1|] images1]; simpl in Hnew1.
    + inversion Hrun; subst. exists new1. split; [reflexivity | exact Hall1].
    + destruct (IH images1 e images' Hrun) as (new & -> & Hall).
      exists (new1 ++ new). subst images1. rewrite app_assoc.
      split; [reflexivity|]. apply Forall_app. split; [exact Hall1|].
      apply Hweaken. exact Hall.
Qed.

End LoadingFacts.

Lemma elem_of_plain_paths (t : Tree) (path : string) :
  path ∈ plain_paths t <-> (path, Info false nil_error) ∈ visits t.
Proof.
  unfold plain_paths. rewrite list_elem_of_omap. split.
  - intros ([p arg] & Hin & Hsome). simpl in Hsome.
    destruct arg as [[|] [e|]|e]; try discriminate.
    inversion Hsome; subst p. exact Hin.
  - intros Hin. exists (path, Info false nil_error). split; [exact Hin | reflexivity].
Qed.

(** X13. On a tree where every entry is found and every directory can be
    read, and whose files with one of the three suffixes all open, decode
    and hash, [loadImages] returns without error one image for each of
    these files, in the order of the walk and under the path of the walk;
    directories, whatever their names, and files with other suffixes are
    passed over. *)
Theorem loadImages_of_a_healthy_tree :
  forall (ImageHash FS File GoImage : Type)
         (os_Tree : FS -> string -> Tree)
         (os_Open : FS -> string -> File * error)
         (jpeg_Decode png_Decode : File -> GoImage * error) (nil_image : GoImage)
         (PerceptionHash : GoImage -> ImageHash * error)
         (strings_ToLower : string -> string) (fs : FS) (dir : string),
    let tree := os_Tree fs dir in
    let decoded :=
      loadImage os_Open jpeg_Decode png_Decode nil_image strings_ToLower fs in
    healthy tree ->
    (forall path,
       path ∈ plain_paths tree -> image_suffix strings_ToLower path = true ->
       snd (decoded path) = nil_error /\
       snd (PerceptionHash (fst (decoded path))) = nil_error) ->
    loadImages os_Tree os_Open jpeg_Decode png_Decode nil_image PerceptionHash
               strings_ToLower fs dir
    = (map (fun path =>
              {| Path := path; Hash := fst (PerceptionHash (fst (decoded path))) |})
           (List.filter (image_suffix strings_ToLower) (plain_paths tree)),
       nil_error).
Proof.
  intros ImageHash FS File GoImage os_Tree os_Open jpeg_Decode png_Decode nil_image
         PerceptionHash strings_ToLower fs dir tree decoded Hhealthy Hloads.
  rewrite loadImages_run.
  rewrite (run_calls_all_load os_Open jpeg_Decode png_Decode nil_image
             PerceptionHash strings_ToLower fs (visits (os_Tree fs dir)) []).
  - reflexivity.
  - exact Hhealthy.
  - intros path Hin Hs. apply Hloads; [|exact Hs].
    apply elem_of_plain_paths. exact Hin.
Qed.

Lemma loadImages_of_a_healthy_tree_witness :
  Demo.loadBox Demo.shoebox Demo.box_disk "box"
  = ([PHash.img "box/a.jpg" 16; PHash.img "box/b.PNG" 17;
      PHash.img "box/d.jpeg" (2 ^ 40)], nil_error).
Proof.
  unfold Demo.loadBox.
  rewrite (loadImages_of_a_healthy_tree PHash.t MemFS.t Z Z
             (fun _ _ => Demo.shoebox) Demo.open Demo.jpeg Demo.png 0 Demo.hash
             Demo.lower Demo.box_disk "box").
  - vm_compute. reflexivity.
  - repeat constructor; eexists; reflexivity.
  - intros path Hin Hs. apply list_elem_of_In in Hin. vm_compute in Hin.
    repeat (destruct Hin as [<-|Hin]; [try discriminate; vm_compute; auto|]).
    contradiction.
Defined.

(** X14. [loadImages] returns without error only when the walk found
    every entry and read every directory, and every file with one of the
    three suffixes was opened, decoded and hashed: one image that does not
    load fails the whole call. *)
Theorem loadImages_succeeds_only_when_all_load :
  forall (ImageHash FS File GoImage : Type)
         (os_Tree : FS -> string -> Tree)
         (os_Open : FS -> string -> File * error)
         (jpeg_Decode png_Decode : File -> GoImage * error) (nil_image : GoImage)
         (PerceptionHash : GoImage -> ImageHash * error)
         (strings_ToLower : string -> string) (fs : FS) (dir : string),
    let tree := os_Tree fs dir in
    let decoded :=
      loadImage os_Open jpeg_Decode png_Decode nil_image strings_ToLower fs in
    snd (loadImages os_Tree os_Open jpeg_Decode png_Decode nil_image PerceptionHash
                    strings_ToLower fs dir) = nil_error ->
    healthy tree /\
    forall path,
      path ∈ plain_paths tree -> image_suffix strings_ToLower path = true ->
      snd (decoded path) = nil_error /\
      snd (PerceptionHash (fst (decoded path))) = nil_error.
Proof.
  intros ImageHash FS File GoImage os_Tree os_Open jpeg_Decode png_Decode nil_image
         PerceptionHash strings_ToLower fs dir tree decoded Hok.
  rewrite loadImages_run in Hok. cbn [snd] in Hok.
  destruct (run_calls _ (visits (os_Tree fs dir)) []) as [e images] eqn:Hrun.
  simpl in Hok. subst e.
  destruct (run_calls_succeeds os_Open jpeg_Decode png_Decode nil_image
              PerceptionHash strings_ToLower fs _ _ _ Hrun) as [Hhealthy Hloads].
  split; [exact Hhealthy|].
  intros path Hin Hs. apply Hloads; [|exact Hs].
  apply elem_of_plain_paths. exact Hin.
Qed.

Lemma loadImages_succeeds_only_when_all_load_witness :
  healthy Demo.shoebox /\
  forall path,
    path ∈ plain_paths Demo.shoebox -> image_suffix Demo.lower path = true ->
    snd (loadImage Demo.open Demo.jpeg Demo.png 0 Demo.lower Demo.box_disk path)
    = nil_error /\
    snd (Demo.hash (fst (loadImage Demo.open Demo.jpeg Demo.png 0 Demo.lower
                           Demo.box_disk path))) = nil_error.
Proof.
  apply (loadImages_succeeds_only_when_all_load PHash.t MemFS.t Z Z
           (fun _ _ => Demo.shoebox) Demo.open Demo.jpeg Demo.png 0 Demo.hash
           Demo.lower Demo.box_disk "box").
  vm_compute. reflexivity.
Defined.

(** X15. Every image [loadImages] returns, with or without an error,
    comes from a file of the walk that is not a directory and has one of
    the three suffixes; its hash is that of the image decoded from the
    open file by the decoder of its suffix, JPEG for [.jpg] and [.jpeg],
    PNG otherwise, whatever the file holds. *)
Theorem loaded_images_provenance :
  forall (ImageHash FS File GoImage : Type)
         (os_Tree : FS -> string -> Tree)
         (os_Open : FS -> string -> File * error)
         (jpeg_Decode png_Decode : File -> GoImage * error) (nil_image : GoImage)
         (PerceptionHash : GoImage -> ImageHash * error)
         (strings_ToLower : string -> string) (fs : FS) (dir : string)
         (im : ImageInfo ImageHash),
    im ∈ fst (loadImages os_Tree os_Open jpeg_Decode png_Decode nil_image
                         PerceptionHash strings_ToLower fs dir) ->
    Path im ∈ plain_paths (os_Tree fs dir) /\
    image_suffix strings_ToLower (Path im) = true /\
    exists (file : File) (img : GoImage),
      os_Open fs (Path im) = (file, nil_error) /\
      (if strings_HasSuffix (strings_ToLower (Path im)) ".jpg"
          || strings_HasSuffix (strings_ToLower (Path im)) ".jpeg"
       then jpeg_Decode file else png_Decode file) = (img, nil_error) /\
      PerceptionHash img = (Hash im, nil_error).
Proof.
  intros ImageHash FS File GoImage os_Tree os_Open jpeg_Decode png_Decode nil_image
         PerceptionHash strings_ToLower fs dir im Him.
  rewrite loadImages_run in Him. cbn [fst] in Him.
  destruct (run_calls _ (visits (os_Tree fs dir)) []) as [e images] eqn:Hrun.
  destruct (run_calls_loaded_from os_Open jpeg_Decode png_Decode nil_image
              PerceptionHash strings_ToLower fs _ _ _ _ Hrun) as (new & Hnew & Hall).
  simpl in Him, Hnew. subst images.
  rewrite Forall_forall in Hall. destruct (Hall im Him) as (Hin & Hs & Hprov).
  split; [apply elem_of_plain_paths; exact Hin|]. split; [exact Hs | exact Hprov].
Qed.

Lemma loaded_images_provenance_witness :
  exists (file img : Z),
    Demo.open Demo.box_disk "box/b.PNG" = (file, nil_error) /\
    Demo.png file = (img, nil_error) /\
    Demo.hash img = (PHash.phash 17, nil_error).
Proof.
  destruct (loaded_images_provenance PHash.t MemFS.t Z Z
              (fun _ _ => Demo.shoebox) Demo.open Demo.jpeg Demo.png 0 Demo.hash
              Demo.lower Demo.box_disk "box" (PHash.img "box/b.PNG" 17))
    as (_ & _ & file & img & Hopen & Hdecode & Hhash).
  - apply list_elem_of_In. vm_compute. right. left. reflexivity.
  - exists file, img. split; [exact Hopen|]. split; [exact Hdecode | exact Hhash].
Defined.

(** ** The whole deletion on the in-memory file system *)

Lemma total_size_app {ImageHash : Type} (fs : MemFS.t)
    (l1 l2 : list (ImageInfo ImageHash)) :
  total_size fs (l1 ++ l2) = total_size fs l1 + total_size fs l2.
Proof.
  unfold total_size. induction l1 as [|x l1 IH]; simpl; [reflexivity|].
  rewrite IH. ring.
Qed.

Lemma wrap64_add_r (u v : Z) : wrap64 (u + wrap64 v) = wrap64 (u + v).
Proof. rewrite Z.add_comm, wrap64_add_l. f_equal. ring. Qed.

Lemma elem_of_map_Path {ImageHash : Type} (x : ImageInfo ImageHash)
    (l : list (ImageInfo ImageHash)) :
  x ∈ l -> Path x ∈ map Path l.
Proof. intros Hx. apply list_elem_of_In, in_map, list_elem_of_In. exact Hx. Qed.

Section DeletionOnDisk.

Context {ImageHash : Type}.

Variable Distance : ImageHash -> ImageHash -> Z * error.
Variable next : Z -> Z.

Abbreviation Image := (ImageInfo ImageHash).

(** A group the sort handles by insertion, with distances to its first
    image that are defined and not below that of the first to itself. *)
Let small (g : list Image) : Prop :=
  (length g <= 12)%nat /\
  forall a, head g = Some a ->
    (forall x, x ∈ g -> snd (Distance (Hash x) (Hash a)) = nil_error) /\
    (forall x, x ∈ g -> distance_to Distance a a <= distance_to Distance a x).

(** The members the deletion loop of [main] removes. *)
Let removed (groups : list (list Image)) : list Image :=
  concat (map (drop 1) groups).

Lemma delete_groups_on_disk (groups : list (list Image)) :
  forall (t : Z) (w : Sys MemFS.t),
    Forall small groups ->
    NoDup (map Path (concat groups)) ->
    (forall x, x ∈ concat groups ->
       is_Some (MemFS.files (sys_fs w) !! Path x) /\
       Path x ∉ MemFS.locked (sys_fs w)) ->
    wrap64 t = t ->
    exists fs',
      delete_groups Distance MemFS.Stat MemFS.Remove next groups t w
      = (wrap64 (t + total_size (sys_fs w) (removed groups)),
         {| sys_fs := fs'; sys_stdout := sys_stdout w |}) /\
      MemFS.locked fs' = MemFS.locked (sys_fs w) /\
      forall p, MemFS.files fs' !! p
                = if bool_decide (p ∈ map Path (removed groups)) then None
                  else MemFS.files (sys_fs w) !! p.
Proof.
  induction groups as [|g groups IH]; intros t w Hsmall Hnd Hthere Ht.
  - exists (sys_fs w). simpl. rewrite Z.add_0_r, Ht. destruct w. repeat split.
  - inversion Hsmall as [|? ? [Hlen Hg] Hsmall']; subst.
    simpl concat in Hnd, Hthere. rewrite map_app in Hnd.
    apply NoDup_app in Hnd as (Hndg & Hdisj & Hndgs).
    assert (Hthere' : forall x, x ∈ concat groups ->
              is_Some (MemFS.files (sys_fs w) !! Path x) /\
              Path x ∉ MemFS.locked (sys_fs w)).
    { intros x Hx. apply Hthere. apply elem_of_app. right. exact Hx. }
    destruct g as [|a [|b rest0]].
    + (* an empty group *)
      cbn [delete_groups length Nat.ltb Nat.leb]. apply IH; assumption.
    + (* a lone image *)
      cbn [delete_groups length Nat.ltb Nat.leb]. apply IH; assumption.
    + set (rest := b :: rest0) in *.
      destruct (Hg a eq_refl) as [Hdef Hfirst].
      destruct (reclaim_small_group Distance MemFS.Stat MemFS.Remove next a rest w
                  Hlen Hdef Hfirst) as (rest' & Hperm & _ & _ & Hrun).
      simpl map in Hndg. apply NoDup_cons in Hndg as [Ha Hndrest].
      destruct (delete_loop_on_disk rest' (sys_fs w) 0)
        as (fs1 & Hloop & Hlocked1 & Hfiles1).
      { rewrite Hperm. exact Hndrest. }
      { intros x Hx. apply Hthere. apply elem_of_app. left. right.
        rewrite <- Hperm. exact Hx. }
      { reflexivity. }
      rewrite Hloop in Hrun. cbn [fst snd] in Hrun.
      rewrite Z.add_0_l, (total_size_Permutation _ _ _ Hperm) in Hrun.
      assert (Hpaths : forall p, p ∈ map Path rest' <-> p ∈ map Path rest).
      { intros p. rewrite Hperm. reflexivity. }
      assert (Hlater : forall x, x ∈ concat groups ->
                MemFS.files fs1 !! Path x = MemFS.files (sys_fs w) !! Path x).
      { intros x Hx. rewrite Hfiles1, bool_decide_eq_false_2; [reflexivity|].
        rewrite Hpaths. intros Hin.
        apply (Hdisj (Path x)); [right; exact Hin|].
        apply elem_of_map_Path. exact Hx. }
      destruct (IH (add64 t (wrap64 (total_size (sys_fs w) rest)))
                  {| sys_fs := fs1; sys_stdout := sys_stdout w |})
        as (fs' & Hgroups & Hlocked & Hfiles).
      { exact Hsmall'. }
      { exact Hndgs. }
      { intros x Hx. cbn [sys_fs]. rewrite (Hlater x Hx), Hlocked1.
        apply Hthere'. exact Hx. }
      { apply wrap64_idemp. }
      cbn [sys_fs sys_stdout] in Hgroups, Hlocked, Hfiles.
      assert (Hsub : forall x, x ∈ removed groups -> x ∈ concat groups).
      { intros x Hx. unfold removed in Hx.
        apply list_elem_of_In, in_concat in Hx as (tl & Htl & Hx).
        apply in_map_iff in Htl as (g' & <- & Hg').
        apply list_elem_of_In, in_concat. exists g'. split; [exact Hg'|].
        apply list_elem_of_In. apply (subseteq_drop 1 g').
        apply list_elem_of_In. exact Hx. }
      exists fs'. split; [|split].
      * cbn [delete_groups]. change (1 <? length (a :: rest))%nat with true.
        cbv iota. rewrite Hrun, Hgroups. f_equal.
        rewrite (total_size_ext (sys_fs w) fs1 (removed groups))
          by (intros x Hx; apply Hlater, Hsub; exact Hx).
        unfold removed. cbn [map concat drop]. fold (removed groups).
        rewrite total_size_app, drop_0. unfold add64.
        rewrite wrap64_add_l.
        replace (t + wrap64 (total_size (sys_fs w) rest)
                 + total_size (sys_fs w) (removed groups))
          with (t + total_size (sys_fs w) (removed groups)
                + wrap64 (total_size (sys_fs w) rest)) by ring.
        rewrite wrap64_add_r. f_equal. ring.
      * rewrite Hlocked. exact Hlocked1.
      * intros p. rewrite Hfiles, Hfiles1.
        unfold removed. cbn [map concat drop]. fold (removed groups).
        rewrite map_app.
        destruct (bool_decide (p ∈ map Path (removed groups))) eqn:E1.
        { apply bool_decide_eq_true in E1.
          rewrite bool_decide_eq_true_2; [reflexivity|].
          apply elem_of_app. right. exact E1. }
        apply bool_decide_eq_false in E1.
        destruct (bool_decide (p ∈ map Path rest')) eqn:E2.
        { apply bool_decide_eq_true in E2.
          rewrite bool_decide_eq_true_2; [reflexivity|].
          apply elem_of_app. left. apply Hpaths. exact E2. }
        apply bool_decide_eq_false in E2.
        rewrite bool_decide_eq_false_2; [reflexivity|].
        intros Hin. apply elem_of_app in Hin as [Hin|Hin]; [|auto].
        apply E2, Hpaths. exact Hin.
Qed.

End DeletionOnDisk.

Lemma NoDup_paths_pick {ImageHash : Type} (images : list (ImageInfo ImageHash))
    (g : list nat) :
  NoDup (map Path images) -> NoDup g -> NoDup (map Path (pick images g)).
Proof.
  intros Himg. induction 1 as [|k g Hk Hg IH]; [apply NoDup_nil; exact I|].
  unfold pick. simpl. destruct (images !! k) as [im|] eqn:Hlook; [|exact IH].
  simpl. apply NoDup_cons. split; [|exact IH].
  intros Hin. apply list_elem_of_In, in_map_iff in Hin as (im' & Hpath & Him').
  apply list_elem_of_In, list_elem_of_omap in Him' as (k' & Hk' & Hlook').
  assert (k = k').
  { apply (NoDup_lookup (map Path images) k k' (Path im) Himg).
    - rewrite list_lookup_fmap, Hlook. reflexivity.
    - rewrite list_lookup_fmap, Hlook'. simpl. rewrite Hpath. reflexivity. }
  subst k'. auto.
Qed.

Lemma elem_of_pick_inv {ImageHash : Type} (images : list (ImageInfo ImageHash))
    (g : list nat) (x : ImageInfo ImageHash) :
  x ∈ pick images g -> x ∈ images.
Proof.
  intros Hx. apply list_elem_of_omap in Hx as (k & _ & Hk).
  eapply list_elem_of_lookup_2. exact Hk.
Qed.

(** The image in front of a group is not among the members removed. *)
Lemma head_not_removed {ImageHash : Type}
    (groups : list (list (ImageInfo ImageHash))) :
  NoDup (map Path (concat groups)) ->
  forall g a, g ∈ groups -> head g = Some a ->
              Path a ∉ map Path (concat (map (drop 1) groups)).
Proof.
  induction groups as [|g0 groups IH]; intros Hnd g a Hg Ha; [inversion Hg|].
  simpl concat in Hnd. rewrite map_app in Hnd.
  apply NoDup_app in Hnd as (Hnd0 & Hdisj & Hnds).
  assert (Hsub : forall p, p ∈ map Path (concat (map (drop 1) groups)) ->
                           p ∈ map Path (concat groups)).
  { intros p Hp. apply list_elem_of_In, in_map_iff in Hp as (x & <- & Hx).
    apply elem_of_map_Path.
    apply in_concat in Hx as (tl & Htl & Hx).
    apply in_map_iff in Htl as (g' & <- & Hg').
    apply list_elem_of_In, in_concat. exists g'. split; [exact Hg'|].
    apply list_elem_of_In. apply (subseteq_drop 1 g').
    apply list_elem_of_In. exact Hx. }
  cbn [map concat]. rewrite map_app, elem_of_app.
  apply elem_of_cons in Hg as [->|Hg].
  - destruct g0 as [|a0 tl]; [discriminate|]. simpl in Ha. inversion Ha; subst a0.
    simpl map in Hnd0. apply NoDup_cons in Hnd0 as [Hfront _].
    intros [Hin|Hin]; [apply Hfront; exact Hin|].
    apply (Hdisj (Path a)); [left | apply Hsub; exact Hin].
  - intros [Hin|Hin]; [|exact (IH Hnds g a Hg Ha Hin)].
    apply (Hdisj (Path a)).
    + apply list_elem_of_In, in_map_iff in Hin as (x & Hpath & Hx).
      rewrite <- Hpath. apply elem_of_map_Path.
      apply (subseteq_drop 1 g0). apply list_elem_of_In. exact Hx.
    + apply elem_of_map_Path. apply list_elem_of_In, in_concat.
      exists g. split; [apply list_elem_of_In; exact Hg|].
      destruct g as [|a' tl]; [discriminate|]. simpl in Ha. inversion Ha. left.
      reflexivity.
Qed.

(** X16. The whole run with [-d] on a disk that holds the files of the
    images under distinct paths, all removable, when the distances are
    defined, none below that of an image to itself, and no group has
    more than twelve members: the first image of every group keeps its
    file, the files of the other members are gone, no other file is
    touched, and the last line reports the sizes of the files removed. *)
Theorem small_groups_keep_their_first_image :
  forall (ImageHash : Type) (Distance : ImageHash -> ImageHash -> Z * error)
         (next : Z -> Z) (Sscanf_f : string -> float64 * error)
         (loadImages : MemFS.t -> string -> list (ImageInfo ImageHash) * error)
         (dir percentage : string) (w : Sys MemFS.t) (t : float64)
         (images : list (ImageInfo ImageHash)),
    parsePercentage Sscanf_f percentage = (t, nil_error) ->
    loadImages (sys_fs w) dir = (images, nil_error) ->
    NoDup (map Path images) ->
    (forall x, x ∈ images ->
       is_Some (MemFS.files (sys_fs w) !! Path x) /\
       Path x ∉ MemFS.locked (sys_fs w)) ->
    (forall a x, a ∈ images -> x ∈ images ->
       snd (Distance (Hash x) (Hash a)) = nil_error /\
       distance_to Distance a a <= distance_to Distance a x) ->
    let groups :=
      fst (findSimilarImages Distance t
             {| w_images := images; w_stdout := sys_stdout w |}) in
    Forall (fun g => (length g <= 12)%nat) groups ->
    let run := main Distance MemFS.Stat MemFS.Remove next Sscanf_f loadImages in
    let files' := MemFS.files (sys_fs (run true [dir; percentage] w)) in
    let removed := concat (map (drop 1) groups) in
    (forall g a, g ∈ groups -> head g = Some a ->
                 files' !! Path a = MemFS.files (sys_fs w) !! Path a) /\
    (forall x, x ∈ removed -> files' !! Path x = None) /\
    (forall p, p ∉ map Path removed ->
               files' !! p = MemFS.files (sys_fs w) !! p) /\
    sys_stdout (run true [dir; percentage] w)
    = sys_stdout (run false [dir; percentage] w)
      ++ [("Total space saved: "
           ++ pretty (wrap64 (total_size (sys_fs w) removed)) ++ " bytes")%string].
Proof.
  intros ImageHash Distance next Sscanf_f loadImages dir percentage w t images
         Hparse Hload Hnd Hthere Hdist groups Hlen run files' removed.
  destruct (groups_positions Distance images t (sys_stdout w))
    as (positions & Hpos & Hndpos & _).
  fold groups in Hpos.
  assert (Hmember : forall x, x ∈ concat groups -> x ∈ images).
  { intros x Hx. rewrite Hpos, concat_map_pick in Hx.
    eapply elem_of_pick_inv. exact Hx. }
  assert (Hndg : NoDup (map Path (concat groups))).
  { rewrite Hpos, concat_map_pick. apply NoDup_paths_pick; assumption. }
  assert (Hin_group : forall g x, g ∈ groups -> x ∈ g -> x ∈ images).
  { intros g x Hg Hx. apply Hmember. apply list_elem_of_In, in_concat.
    exists g. split; apply list_elem_of_In; assumption. }
  destruct (delete_groups_on_disk Distance next groups 0
              {| sys_fs := sys_fs w;
                 sys_stdout :=
                   w_stdout (snd (findSimilarImages Distance t
                                    {| w_images := images;
                                       w_stdout := sys_stdout w |}))
                   ++ display groups |})
    as (fs' & Hrun & _ & Hfiles).
  { apply Forall_forall. intros g Hg. split.
    - rewrite Forall_forall in Hlen. apply Hlen. exact Hg.
    - intros a Ha.
      assert (Hag : a ∈ g).
      { destruct g as [|a' tl]; [discriminate|]. inversion Ha. left. }
      split; intros x Hx; apply Hdist; eauto. }
  { exact Hndg. }
  { intros x Hx. cbn [sys_fs]. apply Hthere, Hmember. exact Hx. }
  { reflexivity. }
  cbn [sys_fs sys_stdout] in Hrun, Hfiles. rewrite Z.add_0_l in Hrun.
  assert (Hmain : run true [dir; percentage] w
                  = println {| sys_fs := fs';
                               sys_stdout := sys_stdout (run false [dir; percentage] w) |}
                      ("Total space saved: "
                       ++ pretty (wrap64 (total_size (sys_fs w) removed))
                       ++ " bytes")).
  { subst run. unfold main. simpl length. simpl nth. cbn [Nat.ltb Nat.leb].
    rewrite Hparse, Hload.
    subst groups removed.
    destruct (findSimilarImages Distance t
                {| w_images := images; w_stdout := sys_stdout w |})
      as [groups gw].
    cbn [fst snd] in *. rewrite Hrun. reflexivity. }
  subst files'. rewrite Hmain. cbn [println sys_fs sys_stdout].
  split; [|split; [|split; [|reflexivity]]].
  - intros g a Hg Ha. rewrite Hfiles, bool_decide_eq_false_2; [reflexivity|].
    apply (head_not_removed groups Hndg g a Hg Ha).
  - intros x Hx. rewrite Hfiles, bool_decide_eq_true_2; [reflexivity|].
    apply elem_of_map_Path. exact Hx.
  - intros p Hp. rewrite Hfiles, bool_decide_eq_false_2; [reflexivity | exact Hp].
Qed.

Lemma small_groups_keep_their_first_image_witness :
  let trio := [PHash.img "p00" 0; PHash.img "p01" 1; PHash.img "p02" 3] in
  let w' := main PHash.Distance MemFS.Stat MemFS.Remove Demo.next Demo.scan
              (fun _ _ => (trio, nil_error)) true ["photos"; "80"]%string
              {| sys_fs := Demo.burst_disk; sys_stdout := [] |} in
  MemFS.files (sys_fs w') !! "p00"%string = Some 1000 /\
  MemFS.files (sys_fs w') !! "p01"%string = None /\
  MemFS.files (sys_fs w') !! "p03"%string = Some 1007 /\
  sys_stdout w'
  = ["Similar images:"; "p00"; "p01"; "p02"; ""; "Total space saved: 2004 bytes"]%string.
Proof.
  intros trio.
  set (w := {| sys_fs := Demo.burst_disk; sys_stdout := [] |}).
  destruct (small_groups_keep_their_first_image PHash.t PHash.Distance Demo.next
              Demo.scan (fun _ _ => (trio, nil_error))
              "photos" "80" w Demo.t80 trio)
    as (Hkeep & Hgone & Hother & Hout).
  - reflexivity.
  - reflexivity.
  - apply (bool_decide_unpack _). vm_compute. exact I.
  - intros x Hx.
    repeat (apply elem_of_cons in Hx as [->|Hx]); [| | |inversion Hx];
      (split; [eexists; vm_compute; reflexivity
              | apply (bool_decide_unpack _); vm_compute; exact I]).
  - intros a x Ha Hx.
    repeat (apply elem_of_cons in Ha as [->|Ha]); [| | |inversion Ha];
      (repeat (apply elem_of_cons in Hx as [->|Hx]); [| | |inversion Hx];
       (split; [reflexivity | vm_compute; discriminate])).
  - vm_compute. repeat constructor.
  - cbv zeta. split; [|split; [|split]].
    + change "p00"%string with (Path (PHash.img "p00" 0)).
      rewrite (Hkeep trio (PHash.img "p00" 0)); [vm_compute; reflexivity | |].
      * apply list_elem_of_In. vm_compute. left. reflexivity.
      * reflexivity.
    + change "p01"%string with (Path (PHash.img "p01" 1)).
      apply Hgone. apply list_elem_of_In. vm_compute. left. reflexivity.
    + rewrite Hother; [vm_compute; reflexivity|].
      vm_compute. intros H. apply list_elem_of_In in H. simpl in H.
      destruct H as [H|[H|H]]; [discriminate | discriminate | exact H].
    + rewrite Hout. vm_compute. reflexivity.
Defined.

(** ** Thresholds at the ends of the range *)

Lemma passes_NaN {ImageHash : Type}
    (Distance : ImageHash -> ImageHash -> Z * error) (h other : ImageHash) :
  passes Distance F64.nan h other = false.
Proof. unfold passes. destruct (Distance h other) as [d [e|]]; reflexivity. Qed.

(** When no pair of positions passes the test there is no group. *)
Lemma no_pass_no_group {ImageHash : Type}
    (Distance : ImageHash -> ImageHash -> Z * error) (t : float64)
    (images : list (ImageInfo ImageHash)) (out : list string) :
  (forall i j, similar_at Distance images t i j = false) ->
  fst (findSimilarImages Distance t {| w_images := images; w_stdout := out |}) = [].
Proof.
  intros Hnone.
  destruct (fst (findSimilarImages Distance t
                   {| w_images := images; w_stdout := out |}))
    as [|group groups] eqn:Hgroups; [reflexivity|].
  exfalso.
  destruct (group_shape Distance images t out group)
    as (a & rest & ima & _ & Hne & _ & _ & Hrest).
  { rewrite Hgroups. left. }
  destruct rest as [|j rest]; [congruence|].
  destruct (Hrest j ltac:(left)) as [_ Hs]. rewrite Hnone in Hs. discriminate.
Qed.

(** X17. With the threshold NaN no pair passes the test: the grouping
    pass finds no group whatever the images are, and a run with [-d] on a
    percentage scanned as NaN removes nothing and reports 0 bytes. *)
Theorem NaN_threshold_groups_nothing :
  forall (ImageHash : Type) (Distance : ImageHash -> ImageHash -> Z * error),
    (forall w : World ImageHash,
       fst (findSimilarImages Distance F64.nan w) = []) /\
    (forall (FS : Type) (os_Stat : FS -> string -> Z * error)
            (os_Remove : FS -> string -> FS * error) (next : Z -> Z)
            (Sscanf_f : string -> float64 * error)
            (loadImages : FS -> string -> list (ImageInfo ImageHash) * error)
            (dir percentage : string) (w : Sys FS),
       Sscanf_f percentage = (F64.nan, nil_error) ->
       snd (loadImages (sys_fs w) dir) = nil_error ->
       let run := main Distance os_Stat os_Remove next Sscanf_f loadImages in
       run true [dir; percentage] w
       = println (run false [dir; percentage] w) "Total space saved: 0 bytes" /\
       sys_fs (run true [dir; percentage] w) = sys_fs w).
Proof.
  intros ImageHash Distance.
  assert (Hnone : forall w : World ImageHash,
             fst (findSimilarImages Distance F64.nan w) = []).
  { intros [images out]. apply no_pass_no_group. intros i j.
    unfold similar_at. destruct (images !! i); [|reflexivity].
    destruct (images !! j); [apply passes_NaN | reflexivity]. }
  split; [exact Hnone|].
  intros FS os_Stat os_Remove next Sscanf_f loadImages dir percentage w Hscan Hload run.
  subst run. unfold main. simpl length. simpl nth. cbn [Nat.ltb Nat.leb].
  assert (Hparse : parsePercentage Sscanf_f percentage = (F64.nan, nil_error)).
  { unfold parsePercentage. rewrite Hscan. reflexivity. }
  rewrite Hparse.
  destruct (loadImages (sys_fs w) dir) as [images e]. simpl in Hload. subst e.
  pose proof (Hnone {| w_images := images; w_stdout := sys_stdout w |}) as Hg.
  destruct (findSimilarImages Distance F64.nan _) as [groups gw].
  simpl in Hg. subst groups. simpl. split; reflexivity.
Qed.

(** X18. At 0 percent every image whose distance to the first image is
    defined, from 0 to 64, goes into the group of the first: when that
    holds of all of them the listing is one group, the whole input. *)
Theorem zero_percent_groups_everything :
  forall (ImageHash : Type) (Distance : ImageHash -> ImageHash -> Z * error)
         (Sscanf_f : string -> float64 * error) (percentage : string)
         (w : World ImageHash) (first : ImageInfo ImageHash),
    Sscanf_f percentage = (F64.of_int 0, nil_error) ->
    (2 <= length (w_images w))%nat ->
    w_images w !! 0%nat = Some first ->
    (forall (j : nat) (b : ImageInfo ImageHash),
       (0 < j)%nat -> w_images w !! j = Some b ->
       exists d, Distance (Hash first) (Hash b) = (d, nil_error) /\ 0 <= d <= 64) ->
    exists t : float64,
      parsePercentage Sscanf_f percentage = (t, nil_error) /\
      fst (findSimilarImages Distance t w) = [w_images w].
Proof.
  intros ImageHash Distance Sscanf_f percentage [images out] first
         Hscan Hlen Hfirst Hall.
  simpl w_images in *.
  pose proof (percentage_check_range 0 ltac:(lia)) as Hc.
  unfold percentage_check in Hc. apply andb_true_iff in Hc as [Hrange Hpass].
  apply negb_true_iff in Hrange. rewrite forallb_forall in Hpass.
  exists (F64.div (F64.of_int 0) (F64.of_int 100)). split.
  { unfold parsePercentage. rewrite Hscan, Hrange. reflexivity. }
  rewrite findSimilarImages_positions, ix_groups_star.
  - simpl. rewrite pick_all. reflexivity.
  - exact Hlen.
  - intros j Hj. unfold similar_at. rewrite Hfirst.
    destruct (lookup_lt_is_Some_2 images j ltac:(lia)) as [b Hb]. rewrite Hb.
    destruct (Hall j b ltac:(lia) Hb) as (d & HD & Hd).
    rewrite (passes_defined Distance _ _ _ d HD).
    assert (Hin : In d (map Z.of_nat (seq 0 65))).
    { apply in_map_iff. exists (Z.to_nat d). split; [lia|]. apply in_seq. lia. }
    specialize (Hpass d Hin). apply eqb_prop in Hpass. rewrite Hpass.
    apply Z.leb_le. lia.
Qed.

Lemma zero_percent_groups_everything_witness :
  exists t : float64,
    parsePercentage (fun _ => (F64.of_int 0, nil_error)) "0" = (t, nil_error) /\
    fst (findSimilarImages PHash.Distance t Demo.album) = [w_images Demo.album].
Proof.
  apply (zero_percent_groups_everything PHash.t PHash.Distance
           (fun _ => (F64.of_int 0, nil_error)) "0" Demo.album Demo.a).
  - reflexivity.
  - simpl. lia.
  - reflexivity.
  - intros j b Hj Hb.
    destruct j as [|[|[|[|j]]]]; [lia | | | | discriminate];
      inversion Hb; subst b; eexists; (split; [vm_compute; reflexivity|]);
      split; discriminate.
Defined.

(** X19. A percentage scanned as a number below 0 or above 100, or as an
    infinity, is refused: the program prints that the percentage must be
    between 0 and 100 and ends, with or without [-d], whatever the
    directory holds. *)
Theorem refused_percentage_stops_the_run :
  forall (Sscanf_f : string -> float64 * error) (percentage : string)
         (p : float64),
    Sscanf_f percentage = (p, nil_error) ->
    (exists sign, p = S754_infinity sign) \/
    (exists q, F64.valid p = true /\ F64.to_Q p = Some q /\
               ((q < 0)%Q \/ (100 < q)%Q)) ->
    parsePercentage Sscanf_f percentage
    = (F64.zero, Some "percentage must be between 0 and 100"%string) /\
    forall (ImageHash FS : Type) (Distance : ImageHash -> ImageHash -> Z * error)
           (os_Stat : FS -> string -> Z * error)
           (os_Remove : FS -> string -> FS * error) (next : Z -> Z)
           (loadImages : FS -> string -> list (ImageInfo ImageHash) * error)
           (deleteFlag : bool) (dir : string) (w : Sys FS),
      main Distance os_Stat os_Remove next Sscanf_f loadImages deleteFlag
           [dir; percentage] w
      = println w
          "Invalid similarity percentage: percentage must be between 0 and 100".
Proof.
  intros Sscanf_f percentage p Hscan Hout.
  assert (Hparse : parsePercentage Sscanf_f percentage
                   = (F64.zero, Some "percentage must be between 0 and 100"%string)).
  { destruct Hout as [[sign ->]|(q & Hv & Hq & Hrange)].
    - apply (parsePercentage_infinity Sscanf_f percentage sign Hscan).
    - apply (parsePercentage_number Sscanf_f percentage p q Hscan Hv Hq).
      exact Hrange. }
  split; [exact Hparse|].
  intros ImageHash FS Distance os_Stat os_Remove next loadImages deleteFlag dir w.
  unfold main. simpl length. simpl nth. cbn [Nat.ltb Nat.leb].
  rewrite Hparse. reflexivity.
Qed.

Lemma refused_percentage_stops_the_run_witness :
  parsePercentage (fun _ => (F64.of_int 101, nil_error)) "101"
  = (F64.zero, Some "percentage must be between 0 and 100"%string).
Proof.
  apply (refused_percentage_stops_the_run
           (fun _ => (F64.of_int 101, nil_error)) "101" (F64.of_int 101)).
  - reflexivity.
  - right. exists (7107243161944064 # 2 ^ 46)%Q.
    split; [reflexivity|]. split; [reflexivity|]. right. reflexivity.
Defined.

(** ** The sort of a group of at most twelve images *)

(** X20. On a group of at most twelve images whose distances to the
    first are defined, none below that of the first to itself, the sort of
    the reclaimer is the stable sort the design asks for: the sorted slice
    is a rearrangement of the group in ascending order of distance to the
    first image, members at the same distance keep their order, the first
    image stays in front, and nothing is printed. *)
Theorem small_group_sorted_by_distance :
  forall (ImageHash : Type) (Distance : ImageHash -> ImageHash -> Z * error)
         (next : Z -> Z) (anchor : ImageInfo ImageHash)
         (rest : list (ImageInfo ImageHash)) (out : list string),
    (length (anchor :: rest) <= 12)%nat ->
    (forall x, x ∈ anchor :: rest ->
               snd (Distance (Hash x) (Hash anchor)) = nil_error) ->
    (forall x, x ∈ anchor :: rest ->
               distance_to Distance anchor anchor <= distance_to Distance anchor x) ->
    let key := distance_to Distance anchor in
    let sorted := fst (sort_Slice next (less_closure Distance) (anchor :: rest) out) in
    sorted ≡ₚ anchor :: rest /\
    StronglySorted (fun x y => key x <= key y) sorted /\
    (forall k, List.filter (fun x => key x =? k) sorted
               = List.filter (fun x => key x =? k) (anchor :: rest)) /\
    head sorted = Some anchor /\
    snd (sort_Slice next (less_closure Distance) (anchor :: rest) out) = out.
Proof.
  intros ImageHash Distance next anchor rest out Hlen Hdef Hfirst key sorted.
  subst sorted.
  rewrite (sort_small_group Distance next anchor rest Hdef Hfirst out Hlen).
  cbn [fst snd]. fold key.
  split; [apply insertion_sort_Permutation|].
  split; [apply insertion_sort_ascending|].
  split; [intros k; apply (insertion_sort_stable key k)|].
  split; [|reflexivity].
  destruct (insertion_sort_anchor_first Distance anchor rest Hfirst)
    as (rest' & Hsorted & _).
  fold key in Hsorted. rewrite Hsorted. reflexivity.
Qed.

Lemma small_group_sorted_by_distance_witness :
  let group := [Demo.a; Demo.d; Demo.b; Demo.c] in
  let sorted := fst (sort_Slice Demo.next (less_closure PHash.Distance) group []) in
  sorted ≡ₚ group /\
  head sorted = Some Demo.a /\
  map Path sorted = ["a.jpg"; "b.jpg"; "c.jpg"; "d.jpg"]%string.
Proof.
  destruct (small_group_sorted_by_distance PHash.t PHash.Distance Demo.next
              Demo.a [Demo.d; Demo.b; Demo.c] [])
    as (Hperm & _ & _ & Hhead & _).
  - simpl. lia.
  - intros x Hx.
    repeat (apply elem_of_cons in Hx as [->|Hx]); [| | | |inversion Hx];
      reflexivity.
  - intros x Hx.
    repeat (apply elem_of_cons in Hx as [->|Hx]); [| | | |inversion Hx];
      vm_compute; discriminate.
  - split; [exact Hperm|]. split; [exact Hhead|]. vm_compute. reflexivity.
Defined.

(** ** A directory that is missing, unreadable or empty *)

(** X21. When the directory given does not exist or cannot be read,
    [loadImages] returns the error of the walk and no image, and the
    program prints [Error loading images:] with that error and ends, with
    or without [-d]; when the directory is empty, [loadImages] returns no
    image and no error, the run without [-d] prints nothing and the run
    with [-d] prints that 0 bytes were saved. *)
Theorem missing_or_empty_directory :
  forall (ImageHash FS File GoImage : Type)
         (os_Tree : FS -> string -> Tree)
         (os_Open : FS -> string -> File * error)
         (jpeg_Decode png_Decode : File -> GoImage * error) (nil_image : GoImage)
         (PerceptionHash : GoImage -> ImageHash * error)
         (strings_ToLower : string -> string)
         (Distance : ImageHash -> ImageHash -> Z * error)
         (os_Stat : FS -> string -> Z * error)
         (os_Remove : FS -> string -> FS * error) (next : Z -> Z)
         (Sscanf_f : string -> float64 * error)
         (dir percentage : string) (w : Sys FS) (t : float64),
    parsePercentage Sscanf_f percentage = (t, nil_error) ->
    let load := loadImages os_Tree os_Open jpeg_Decode png_Decode nil_image
                           PerceptionHash strings_ToLower in
    let run := main Distance os_Stat os_Remove next Sscanf_f load in
    (forall e entries,
       os_Tree (sys_fs w) dir = NoEntry dir e \/
       os_Tree (sys_fs w) dir = Dir dir (Some e) entries ->
       load (sys_fs w) dir = ([], Some e) /\
       forall deleteFlag,
         run deleteFlag [dir; percentage] w
         = println w (println2 "Error loading images:" e)) /\
    (os_Tree (sys_fs w) dir = Dir dir nil_error [] ->
     load (sys_fs w) dir = ([], nil_error) /\
     run false [dir; percentage] w = w /\
     run true [dir; percentage] w = println w "Total space saved: 0 bytes").
Proof.
  intros ImageHash FS File GoImage os_Tree os_Open jpeg_Decode png_Decode nil_image
         PerceptionHash strings_ToLower Distance os_Stat os_Remove next Sscanf_f
         dir percentage w t Hparse load run.
  assert (Hmain : forall deleteFlag,
             run deleteFlag [dir; percentage] w
             = match load (sys_fs w) dir with
               | (_, Some err) => println w (println2 "Error loading images:" err)
               | (images, None) =>
                   let (groups, gw) :=
                     findSimilarImages Distance t
                       {| w_images := images; w_stdout := sys_stdout w |} in
                   let w1 := {| sys_fs := sys_fs w;
                                sys_stdout := w_stdout gw ++ display groups |} in
                   if deleteFlag then
                     let (totalSaved, w2) :=
                       delete_groups Distance os_Stat os_Remove next groups 0 w1 in
                     println w2 ("Total space saved: " ++ pretty totalSaved ++ " bytes")
                   else w1
               end).
  { intros deleteFlag. subst run. unfold main. simpl length. simpl nth.
    cbn [Nat.ltb Nat.leb]. rewrite Hparse. reflexivity. }
  split.
  - intros e entries Htree.
    assert (Hload : load (sys_fs w) dir = ([], Some e)).
    { subst load. unfold loadImages, filepath_Walk.
      destruct Htree as [->| ->]; reflexivity. }
    split; [exact Hload|]. intros deleteFlag. rewrite Hmain, Hload. reflexivity.
  - intros Htree.
    assert (Hload : load (sys_fs w) dir = ([], nil_error)).
    { subst load. unfold loadImages, filepath_Walk. rewrite Htree. reflexivity. }
    split; [exact Hload|]. rewrite !Hmain, Hload. unfold nil_error. cbv iota beta.
    destruct w as [fs out]. simpl. rewrite app_nil_r. split; reflexivity.
Qed.

Lemma missing_or_empty_directory_witness :
  main PHash.Distance MemFS.Stat MemFS.Remove Demo.next Demo.scan
       (loadImages (fun _ dir => NoEntry dir ("lstat " ++ dir ++ ": no such file or directory"))
                   Demo.open Demo.jpeg Demo.png 0 Demo.hash Demo.lower)
       true ["phtos"; "80"]%string {| sys_fs := Demo.box_disk; sys_stdout := [] |}
  = {| sys_fs := Demo.box_disk;
       sys_stdout :=
         ["Error loading images: lstat phtos: no such file or directory"%string] |}.
Proof.
  set (w := {| sys_fs := Demo.box_disk; sys_stdout := [] |}).
  destruct (missing_or_empty_directory PHash.t MemFS.t Z Z
              (fun _ dir => NoEntry dir ("lstat " ++ dir ++ ": no such file or directory"))
              Demo.open Demo.jpeg Demo.png 0 Demo.hash Demo.lower
              PHash.Distance MemFS.Stat MemFS.Remove Demo.next Demo.scan
              "phtos" "80" w Demo.t80)
    as [Hmissing _].
  - reflexivity.
  - destruct (Hmissing "lstat phtos: no such file or directory"%string [])
      as [_ Hrun].
    + left. reflexivity.
    + rewrite Hrun. reflexivity.
Defined.

(** ** What a run can remove *)

Section RemovalFrame.

Context {ImageHash FS : Type}.

Variable Distance : ImageHash -> ImageHash -> Z * error.
Variable os_Stat : FS -> string -> Z * error.
Variable os_Remove : FS -> string -> FS * error.
Variable next : Z -> Z.

(** A property of the file system. *)
Variable kept : FS -> Prop.

(** Removing the file of [x] keeps the property, whether [os.Remove]
    succeeds or not. *)
Let harmless (x : ImageInfo ImageHash) : Prop :=
  forall fs, kept fs -> kept (fst (os_Remove fs (Path x))).

Lemma delete_loop_frame (rest : list (ImageInfo ImageHash)) :
  forall (t : Z) (fs : FS),
    Forall harmless rest -> kept fs ->
    kept (snd (delete_loop os_Stat os_Remove rest t fs)).
Proof.
  induction rest as [|x rest IH]; intros t fs Hrest Hfs; [exact Hfs|].
  inversion Hrest as [|? ? Hx Hrest']; subst. cbn [delete_loop].
  destruct (os_Stat fs (Path x)) as [size [e|]]; [exact Hfs|].
  specialize (Hx fs Hfs).
  destruct (os_Remove fs (Path x)) as [fs' [e|]]; [exact Hx|].
  apply IH; assumption.
Qed.

Lemma deleteSimilarImages_frame (group : list (ImageInfo ImageHash)) (w : Sys FS) :
  Forall harmless group -> kept (sys_fs w) ->
  kept (sys_fs (snd (deleteSimilarImages Distance os_Stat os_Remove next group w))).
Proof.
  intros Hgroup Hw.
  pose proof (sort_group_Permutation Distance next group (sys_stdout w)) as Hperm.
  unfold deleteSimilarImages.
  destruct (sort_Slice next (less_closure Distance) group (sys_stdout w))
    as [sorted out']. cbn [fst] in Hperm.
  assert (Hrest : Forall harmless (drop 1 sorted)).
  { apply Forall_forall. intros x Hx. rewrite Forall_forall in Hgroup.
    apply Hgroup. rewrite <- Hperm. apply (subseteq_drop 1 sorted). exact Hx. }
  pose proof (delete_loop_frame (drop 1 sorted) 0 (sys_fs w) Hrest Hw) as Hloop.
  destruct (delete_loop os_Stat os_Remove (drop 1 sorted) 0 (sys_fs w)) as [r fs'].
  exact Hloop.
Qed.

Lemma delete_groups_frame (groups : list (list (ImageInfo ImageHash))) :
  forall (t : Z) (w : Sys FS),
    Forall (Forall harmless) groups -> kept (sys_fs w) ->
    kept (sys_fs (snd (delete_groups Distance os_Stat os_Remove next groups t w))).
Proof.
  induction groups as [|group groups IH]; intros t w Hgroups Hw; [exact Hw|].
  inversion Hgroups as [|? ? Hgroup Hgroups']; subst. cbn [delete_groups].
  destruct (1 <? length group)%nat; [|apply IH; assumption].
  pose proof (deleteSimilarImages_frame group w Hgroup Hw) as Hone.
  destruct (deleteSimilarImages Distance os_Stat os_Remove next group w)
    as [[[saved err] sorted] w1]. cbn [snd] in Hone.
  destruct err as [e|]; apply IH; assumption.
Qed.

End RemovalFrame.

(** X22. A run only ever removes files of members of the groups it
    found, whatever the sizes of the groups and whatever fails on the
    way: a property of the file system that survives the removal of the
    file of any member of a group survives the run. *)
Theorem only_group_members_are_removed :
  forall (ImageHash FS : Type) (Distance : ImageHash -> ImageHash -> Z * error)
         (os_Stat : FS -> string -> Z * error)
         (os_Remove : FS -> string -> FS * error) (next : Z -> Z)
         (Sscanf_f : string -> float64 * error)
         (loadImages : FS -> string -> list (ImageInfo ImageHash) * error)
         (deleteFlag : bool) (dir percentage : string) (w : Sys FS)
         (kept : FS -> Prop),
    (forall t images group x fs,
       parsePercentage Sscanf_f percentage = (t, nil_error) ->
       loadImages (sys_fs w) dir = (images, nil_error) ->
       group ∈ fst (findSimilarImages Distance t
                      {| w_images := images; w_stdout := sys_stdout w |}) ->
       x ∈ group ->
       kept fs -> kept (fst (os_Remove fs (Path x)))) ->
    kept (sys_fs w) ->
    kept (sys_fs (main Distance os_Stat os_Remove next Sscanf_f loadImages
                       deleteFlag [dir; percentage] w)).
Proof.
  intros ImageHash FS Distance os_Stat os_Remove next Sscanf_f loadImages
         deleteFlag dir percentage w kept Hharmless Hw.
  unfold main. simpl length. simpl nth. cbn [Nat.ltb Nat.leb].
  destruct (parsePercentage Sscanf_f percentage) as [t [e|]]; [exact Hw|].
  destruct (loadImages (sys_fs w) dir) as [images [e|]]; [exact Hw|].
  specialize (Hharmless t images).
  destruct (findSimilarImages Distance t
              {| w_images := images; w_stdout := sys_stdout w |})
    as [groups gw]. cbn [fst] in Hharmless.
  destruct deleteFlag; [|exact Hw].
  set (w1 := {| sys_fs := sys_fs w; sys_stdout := w_stdout gw ++ display groups |}).
  pose proof (delete_groups_frame Distance os_Stat os_Remove next kept groups 0 w1)
    as Hframe.
  destruct (delete_groups Distance os_Stat os_Remove next groups 0 w1)
    as [totalSaved w2].
  cbn [snd println sys_fs] in *. apply Hframe; [|exact Hw].
  apply Forall_forall. intros group Hgroup.
  apply Forall_forall. intros x Hx fs Hfs.
  apply (Hharmless group x fs eq_refl eq_refl Hgroup Hx Hfs).
Qed.

Lemma only_group_members_are_removed_witness :
  MemFS.files
    (sys_fs (main PHash.Distance MemFS.Stat MemFS.Remove Demo.next Demo.scan
                  Demo.load true ["photos"; "80"]%string
                  {| sys_fs := MemFS.of_list [("p00", 1000); ("notes.txt", 12)]%string [];
                     sys_stdout := [] |}))
  !! "notes.txt"%string = Some 12.
Proof.
  apply (only_group_members_are_removed PHash.t MemFS.t PHash.Distance MemFS.Stat
           MemFS.Remove Demo.next Demo.scan Demo.load true "photos" "80"
           {| sys_fs := MemFS.of_list [("p00", 1000); ("notes.txt", 12)]%string [];
              sys_stdout := [] |}
           (fun fs => MemFS.files fs !! "notes.txt"%string = Some 12)).
  - intros t images group x fs Hparse Hload Hgroup Hx Hfs.
    inversion Hparse; subst t. inversion Hload; subst images.
    assert (Hpath : Path x <> "notes.txt"%string).
    { apply list_elem_of_In in Hgroup. vm_compute in Hgroup.
      destruct Hgroup as [<-|[]].
      repeat (apply elem_of_cons in Hx as [->|Hx]); try discriminate.
      inversion Hx. }
    unfold MemFS.Remove.
    destruct (MemFS.files fs !! Path x); [|exact Hfs].
    destruct (decide (Path x ∈ MemFS.locked fs)); [exact Hfs|].
    simpl. rewrite lookup_delete_ne by exact Hpath. exact Hfs.
  - vm_compute. reflexivity.
Defined.

(** ** The grouping pass is greedy *)

Section PositionGreedy.

Local Open Scope nat_scope.

Variable sim : nat -> nat -> bool.

(** The positions claimed by the groups: their members after the first. *)
Let claimed (gs : list (list nat)) : list nat := concat (map (drop 1) gs).

Lemma claimed_app (gs1 gs2 : list (list nat)) :
  claimed (gs1 ++ gs2) = claimed gs1 ++ claimed gs2.
Proof. unfold claimed. rewrite map_app, concat_app. reflexivity. Qed.

Lemma elem_of_claimed (gs : list (list nat)) (k : nat) :
  k ∈ claimed gs <-> exists g, g ∈ gs /\ k ∈ drop 1 g.
Proof.
  unfold claimed. rewrite list_elem_of_In, in_concat. split.
  - intros (tl & Htl & Hk). apply in_map_iff in Htl as (g & <- & Hg).
    exists g. split; apply list_elem_of_In; assumption.
  - intros (g & Hg & Hk). exists (drop 1 g). split.
    + apply in_map. apply list_elem_of_In. exact Hg.
    + apply list_elem_of_In. exact Hk.
Qed.

(** The state of the outer loop after the positions below [m]: the
    positions marked are the members the groups claimed; every group is an
    anchor below [m] with the unclaimed later positions that pass the test
    against it; and a pair that passes the test, its first below [m], has
    its first claimed, or its second claimed by an earlier anchor, or its
    second in the group of its first. *)
Lemma ix_outer_loop_greedy (n m : nat) :
  m <= n ->
  let st := fold_left (ix_outer sim n) (seq 0 m) ([], ∅) in
  (forall k, used_get (snd st) k = true <-> k ∈ claimed (fst st)) /\
  Forall (fun g => hd 0 g < m /\ 2 <= length g) (fst st) /\
  (forall idx a rest,
     fst st !! idx = Some (a :: rest) ->
     forall k, k ∈ rest
               <-> a < k < n /\ (k ∉ claimed (take idx (fst st))) /\ sim a k = true) /\
  (forall a k,
     a < m -> a < k < n -> sim a k = true ->
     a ∈ claimed (fst st) \/
     (exists g, g ∈ fst st /\ hd 0 g < a /\ k ∈ drop 1 g) \/
     (exists idx rest, fst st !! idx = Some (a :: rest) /\ k ∈ rest)).
Proof.
  induction m as [|m IH]; intros Hle.
  - simpl. split; [|split; [constructor|split]].
    + intros k. rewrite used_get_empty. split; [discriminate|]. intros H. inversion H.
    + intros idx a rest H. discriminate.
    + intros a k Ha. lia.
  - rewrite seq_S, fold_left_app. cbn [fold_left Nat.add].
    specialize (IH ltac:(lia)). cbv zeta in IH.
    destruct (fold_left (ix_outer sim n) (seq 0 m) ([], ∅)) as [gs U].
    cbn [fst snd] in IH. destruct IH as (Hused & Hheads & Hgroup & Hpair).
    cbv zeta.
    assert (Hheads' : Forall (fun g => hd 0 g < S m /\ 2 <= length g) gs).
    { eapply Forall_impl; [exact Hheads|]. intros g [H1 H2]. split; [lia | exact H2]. }
    destruct (used_get U m) eqn:Hum.
    { assert (E : ix_outer sim n (gs, U) m = (gs, U))
        by (unfold ix_outer; cbn [fst snd]; rewrite Hum; reflexivity).
      rewrite E. cbn [fst snd].
      split; [exact Hused|]. split; [exact Hheads'|]. split; [exact Hgroup|].
      intros a k Ha Hk Hs. destruct (decide (a = m)) as [->|Hne].
      - left. apply Hused. exact Hum.
      - apply Hpair; [lia | exact Hk | exact Hs]. }
    destruct (ix_outer_taken sim n m gs U Hum) as [Hg Hu]. cbv zeta in Hg, Hu.
    set (sel := List.filter (fun j => negb (used_get U j) && sim m j)
                            (seq (S m) (n - S m))) in *.
    assert (Hsel : forall k, k ∈ sel
                             <-> m < k < n /\ (k ∉ claimed gs) /\ sim m k = true).
    { intros k. unfold sel.
      rewrite list_elem_of_In, filter_In, andb_true_iff, negb_true_iff, in_seq.
      rewrite <- Hused. split.
      - intros (Hk & Hu' & Hs). split; [lia|]. split; [congruence | exact Hs].
      - intros (Hk & Hu' & Hs). split; [lia|]. split; [|exact Hs].
        destruct (used_get U k); [contradiction | reflexivity]. }
    destruct (ix_outer sim n (gs, U) m) as [gs' U']. cbn [fst snd] in Hg, Hu |- *.
    subst gs'.
    destruct (decide (sel = [])) as [Hnil|Hne].
    + (* the lone anchor is dropped *)
      assert (HU' : forall k, used_get U' k = true <-> k ∈ claimed gs).
      { intros k. rewrite Hu, Hnil, Hused. split; [|auto].
        intros [H|H]; [exact H | inversion H]. }
      split; [exact HU'|]. split; [exact Hheads'|]. split; [exact Hgroup|].
      intros a k Ha Hk Hs. destruct (decide (a = m)) as [->|Hne].
      * destruct (decide (k ∈ claimed gs)) as [Hin|Hout].
        -- right. left. apply elem_of_claimed in Hin as (g & Hgin & Hkg).
           exists g. split; [exact Hgin|]. split; [|exact Hkg].
           rewrite Forall_forall in Hheads. apply Hheads. exact Hgin.
        -- exfalso. assert (Hin : k ∈ sel) by (apply Hsel; auto).
           rewrite Hnil in Hin. inversion Hin.
      * apply Hpair; [lia | exact Hk | exact Hs].
    + assert (Hclaimed : forall k, k ∈ claimed (gs ++ [m :: sel])
                                   <-> k ∈ claimed gs \/ k ∈ sel).
      { intros k. rewrite claimed_app, elem_of_app. unfold claimed at 2. simpl.
        rewrite app_nil_r, drop_0. reflexivity. }
      split; [|split; [|split]].
      * intros k. rewrite Hu, Hclaimed, Hused. reflexivity.
      * apply Forall_app. split; [exact Hheads'|]. constructor; [|constructor].
        split; [simpl; lia|]. destruct sel; [congruence | simpl; lia].
      * intros idx a rest Hlook k.
        destruct (decide (idx < length gs)) as [Hlt|Hge].
        -- rewrite lookup_app_l in Hlook by exact Hlt.
           rewrite take_app_le by lia. apply Hgroup. exact Hlook.
        -- rewrite lookup_app_r in Hlook by lia.
           destruct (idx - length gs) as [|d] eqn:Hd; [|destruct d; discriminate].
           simpl in Hlook. inversion Hlook; subst a rest.
           assert (idx = length gs) by lia. subst idx.
           rewrite take_app_length. apply Hsel.
      * intros a k Ha Hk Hs. destruct (decide (a = m)) as [->|Hnem].
        -- destruct (decide (k ∈ claimed gs)) as [Hin|Hout].
           ++ right. left. apply elem_of_claimed in Hin as (g & Hgin & Hkg).
              exists g. split; [apply elem_of_app; left; exact Hgin|].
              split; [|exact Hkg].
              rewrite Forall_forall in Hheads. apply Hheads. exact Hgin.
           ++ right. right. exists (length gs), sel. split.
              ** rewrite lookup_app_r by lia. rewrite Nat.sub_diag. reflexivity.
              ** apply Hsel. auto.
        -- destruct (Hpair a k ltac:(lia) Hk Hs) as [H|[(g & Hgin & Hh & Hkg)|(idx & rest & Hlook & Hkr)]].
           ++ left. apply Hclaimed. left. exact H.
           ++ right. left. exists g. split; [apply elem_of_app; left; exact Hgin|].
              split; assumption.
           ++ right. right. exists idx, rest. split; [|exact Hkr].
              rewrite lookup_app_l; [exact Hlook|].
              eapply lookup_lt_Some. exact Hlook.
Qed.

End PositionGreedy.

Section PositionGreedyGroups.

Local Open Scope nat_scope.

Variable sim : nat -> nat -> bool.
Variable n : nat.

Let gs := ix_groups sim n.

(** The anchors of the groups before a group are below its anchor. *)
Lemma earlier_anchor_below (idx : nat) (a : nat) (rest g : list nat) :
  gs !! idx = Some (a :: rest) -> g ∈ take idx gs -> hd 0 g < a.
Proof.
  intros Hlook Hg.
  destruct (ix_groups_order sim n) as (_ & Hanch & _). fold gs in Hanch.
  rewrite <- (take_drop_middle gs idx (a :: rest) Hlook) in Hanch.
  rewrite map_app in Hanch.
  apply (StronglySorted_app_1_elem_of _ _ _ (hd 0 g) a Hanch).
  - apply list_elem_of_In, in_map, list_elem_of_In. exact Hg.
  - left.
Qed.

(** Beyond the anchor of a group, to be in an earlier group is to have
    been claimed by one. *)
Lemma earlier_group_claimed (idx : nat) (a k : nat) (rest : list nat) :
  gs !! idx = Some (a :: rest) -> a < k ->
  k ∈ concat (take idx gs) <-> k ∈ concat (map (drop 1) (take idx gs)).
Proof.
  intros Hlook Hak. rewrite !list_elem_of_In, !in_concat. split.
  - intros (g & Hg & Hk). exists (drop 1 g). split; [apply in_map; exact Hg|].
    pose proof (earlier_anchor_below idx a rest g Hlook
                  (proj2 (list_elem_of_In _ _) Hg)) as Hhd.
    destruct g as [|h tl]; [inversion Hk|]. simpl in *.
    destruct Hk as [->|Hk]; [lia | exact Hk].
  - intros (tl & Htl & Hk). apply in_map_iff in Htl as (g & <- & Hg).
    exists g. split; [exact Hg|].
    apply list_elem_of_In. apply (subseteq_drop 1 g). apply list_elem_of_In. exact Hk.
Qed.

(** The groups in full: a group holds, after its anchor, exactly the later
    positions that are in no earlier group and pass the test against the
    anchor; and of a pair that passes the test, the first is a member
    claimed by some anchor, or the second is claimed by an anchor before
    the first, or the second is in the group of the first. *)
Lemma ix_groups_greedy :
  (forall idx a rest,
     gs !! idx = Some (a :: rest) ->
     forall k, k ∈ rest
               <-> a < k < n /\ (k ∉ concat (take idx gs)) /\ sim a k = true) /\
  (forall a k,
     a < k < n -> sim a k = true ->
     (exists idx' a' rest', gs !! idx' = Some (a' :: rest') /\ a ∈ rest') \/
     (exists idx' a' rest', gs !! idx' = Some (a' :: rest') /\ a' < a /\ k ∈ rest') \/
     (exists idx rest, gs !! idx = Some (a :: rest) /\ k ∈ rest)).
Proof.
  destruct (ix_outer_loop_greedy sim n n (Nat.le_refl n))
    as (_ & Hshape & Hgroup & Hpair).
  cbv zeta in Hshape, Hgroup, Hpair. fold (ix_groups sim n) in Hshape, Hgroup, Hpair.
  fold gs in Hshape, Hgroup, Hpair.
  assert (Hfind : forall g x, g ∈ gs -> x ∈ drop 1 g ->
            exists idx' a' rest', gs !! idx' = Some (a' :: rest') /\ x ∈ rest' /\
                                  a' = hd 0 g).
  { intros g x Hg Hx. apply list_elem_of_lookup_1 in Hg as [idx' Hidx'].
    destruct g as [|a' rest']; [inversion Hx|].
    exists idx', a', rest'. split; [exact Hidx'|]. split; [exact Hx | reflexivity]. }
  split.
  - intros idx a rest Hlook k. rewrite (Hgroup idx a rest Hlook k). split.
    + intros (Hk & Hout & Hs). split; [exact Hk|]. split; [|exact Hs].
      rewrite (earlier_group_claimed idx a k rest Hlook) by lia. exact Hout.
    + intros (Hk & Hout & Hs). split; [exact Hk|]. split; [|exact Hs].
      rewrite <- (earlier_group_claimed idx a k rest Hlook) by lia. exact Hout.
  - intros a k Hk Hs.
    destruct (Hpair a k ltac:(lia) Hk Hs) as [H|[(g & Hg & Hh & Hkg)|H]].
    + left. apply list_elem_of_In, in_concat in H as (tl & Htl & Ha).
      apply in_map_iff in Htl as (g & <- & Hg).
      destruct (Hfind g a (proj2 (list_elem_of_In _ _) Hg)
                  (proj2 (list_elem_of_In _ _) Ha))
        as (idx' & a' & rest' & Hlook & Hin & _).
      exists idx', a', rest'. auto.
    + right. left.
      destruct (Hfind g k Hg Hkg) as (idx' & a' & rest' & Hlook & Hin & Heq).
      exists idx', a', rest'. split; [exact Hlook|]. split; [lia | exact Hin].
    + right. right. exact H.
Qed.

End PositionGreedyGroups.

(** ** A distance that cannot be computed *)


Section ErrorLogged.

Context {ImageHash : Type}.

Variable Distance : ImageHash -> ImageHash -> Z * error.
Variable images : list (ImageInfo ImageHash).
Variable similarityThreshold : float64.

Let sim := similar_at Distance images similarityThreshold.
Let body := inner_body Distance images similarityThreshold.





End ErrorLogged.

(** ** The test of the grouping pass, on the groups returned *)

(** What the test [similarity >= similarityThreshold] says of a distance
    from 0 to 64, for whatever depends on it. *)
Lemma threshold_test_facts (t : float64) (d : Z) (P : Prop) :
  0 <= d <= 64 ->
  (P <-> F64.geb (similarity_of d) t = true) ->
  (forall q, F64.valid t = true -> F64.to_Q t = Some q ->
             P <-> (q <= 1 - inject_Z d / 64)%Q) /\
  (t = F64.of_int 1 -> (P <-> d = 0)) /\
  (t = F64.zero -> P).
Proof.
  intros Hd HP.
  assert (Hrat : forall q, F64.valid t = true -> F64.to_Q t = Some q ->
                           P <-> (q <= 1 - inject_Z d / 64)%Q).
  { intros q Hv Hq. rewrite HP.
    destruct (similarity_value d Hd) as (Hvs & qs & Hqs & Heq).
    rewrite (F64Facts.geb_spec _ _ qs q Hvs Hv Hqs Hq). rewrite Heq. reflexivity. }
  split; [exact Hrat|]. split.
  - intros ->.
    rewrite (Hrat (4503599627370496 # 4503599627370496)%Q) by reflexivity.
    unfold Qle, Qminus, Qplus, Qopp, Qdiv, Qmult, Qinv, inject_Z; simpl. lia.
  - intros ->. apply (Hrat 0%Q); [reflexivity | reflexivity |].
    unfold Qle, Qminus, Qplus, Qopp, Qdiv, Qmult, Qinv, inject_Z; simpl. lia.
Qed.

(** A distance of 128 gives the similarity [-1]: the test fails against
    every threshold above it. *)
Lemma distance_128_fails (t : float64) (q : Q) :
  F64.valid t = true -> F64.to_Q t = Some q -> (-1 < q)%Q ->
  F64.geb (similarity_of 128) t = false.
Proof.
  intros Hv Hq Hlt.
  destruct (F64.geb (similarity_of 128) t) eqn:E; [|reflexivity]. exfalso.
  destruct (F64.to_Q (similarity_of 128)) as [qs|] eqn:Hqs; [|discriminate].
  apply (F64Facts.geb_spec (similarity_of 128) t qs q eq_refl Hv Hqs Hq) in E.
  assert (Heq : (qs == -1)%Q).
  { vm_compute in Hqs. inversion Hqs. reflexivity. }
  rewrite Heq in E. apply (Qlt_not_le _ _ Hlt E).
Qed.

Section GroupsGreedy.

Context {ImageHash : Type}.

Variable Distance : ImageHash -> ImageHash -> Z * error.
Variable similarityThreshold : float64.
Variable images : list (ImageInfo ImageHash).

Let sim := similar_at Distance images similarityThreshold.
Let positions := ix_groups sim (length images).

(** The test on two positions, when the distance is defined. *)
Lemma sim_defined (a k : nat) (ima imk : ImageInfo ImageHash) (d : Z) :
  images !! a = Some ima -> images !! k = Some imk ->
  Distance (Hash ima) (Hash imk) = (d, nil_error) ->
  sim a k = F64.geb (similarity_of d) similarityThreshold.
Proof.
  intros Ha Hk HD. unfold sim, similar_at. rewrite Ha, Hk.
  apply passes_defined. exact HD.
Qed.


(** A member passed the test against its anchor. *)
Lemma member_passed (idx a k : nat) (rest : list nat) :
  positions !! idx = Some (a :: rest) -> k ∈ rest -> sim a k = true.
Proof.
  intros Hlook Hk.
  destruct (ix_groups_greedy sim (length images)) as [Hgroup _].
  fold positions in Hgroup. apply (Hgroup idx a rest Hlook k). exact Hk.
Qed.

End GroupsGreedy.


(** C2. The test [1 - d/64 >= t], equality included, is made between the
    first image of a group and a later image that no earlier group holds,
    not between every two images.  In the groups returned for any input,
    an image at a defined distance [d] from the first image of a group is
    a member of that group exactly when it comes later in the input, no
    earlier group holds it, and the test passes; for [d] from 0 to 64 and
    such a later image, this is when the value of the threshold is at most
    the rational [1 - d/64], at threshold 1.0 when [d = 0], and at
    threshold 0.0 always.  Two images that pass the test share a group
    unless the first of the two is a member of some group or an earlier
    group holds the second.  An input of two images gives the one group
    of both exactly when the test passes, and no group otherwise. *)
Theorem threshold_boundary :
  forall (ImageHash : Type) (Distance : ImageHash -> ImageHash -> Z * error)
         (t : float64) (images : list (ImageInfo ImageHash)) (out : list string),
    let groups :=
      fst (findSimilarImages Distance t {| w_images := images; w_stdout := out |}) in
    exists positions : list (list nat),
      groups = map (pick images) positions /\
      (forall (idx a k : nat) (rest : list nat)
              (ima imk : ImageInfo ImageHash) (d : Z),
         positions !! idx = Some (a :: rest) ->
         images !! a = Some ima -> images !! k = Some imk ->
         Distance (Hash ima) (Hash imk) = (d, nil_error) ->
         (k ∈ rest <->
          (a < k)%nat /\ (k ∉ concat (take idx positions)) /\
          F64.geb (similarity_of d) t = true) /\
         ((a < k)%nat -> k ∉ concat (take idx positions) -> 0 <= d <= 64 ->
          (forall q, F64.valid t = true -> F64.to_Q t = Some q ->
                     k ∈ rest <-> (q <= 1 - inject_Z d / 64)%Q) /\
          (t = F64.of_int 1 -> (k ∈ rest <-> d = 0)) /\
          (t = F64.zero -> k ∈ rest))) /\
      (forall (a k : nat) (ima imk : ImageInfo ImageHash) (d : Z),
         (a < k)%nat ->
         images !! a = Some ima -> images !! k = Some imk ->
         Distance (Hash ima) (Hash imk) = (d, nil_error) ->
         F64.geb (similarity_of d) t = true ->
         (exists idx' a' rest',
            positions !! idx' = Some (a' :: rest') /\ a ∈ rest') \/
         (exists idx' a' rest',
            positions !! idx' = Some (a' :: rest') /\ (a' < a)%nat /\ k ∈ rest') \/
         (exists idx rest, positions !! idx = Some (a :: rest) /\ k ∈ rest)) /\
      (forall (a b : ImageInfo ImageHash) (d : Z),
         images = [a; b] ->
         Distance (Hash a) (Hash b) = (d, nil_error) ->
         (groups = [[a; b]] <-> F64.geb (similarity_of d) t = true) /\
         (groups <> [[a; b]] -> groups = [])).
Proof.
  intros ImageHash Distance t images out groups.
  exists (ix_groups (similar_at Distance images t) (length images)).
  split; [apply findSimilarImages_positions|]. split; [|split].
  - intros idx a k rest ima imk d Hlook Ha Hk HD.
    assert (Hkn : (k < length images)%nat) by (apply lookup_lt_is_Some; eauto).
    destruct (ix_groups_greedy (similar_at Distance images t) (length images))
      as [Hgroup _].
    pose proof (Hgroup idx a rest Hlook k) as Hmem.
    rewrite (sim_defined Distance t images a k ima imk d Ha Hk HD) in Hmem.
    split.
    + rewrite Hmem. split.
      * intros ([Hak _] & Hfree & Hpass). auto.
      * intros (Hak & Hfree & Hpass). split; [lia | auto].
    + intros Hak Hfree Hd. apply threshold_test_facts; [exact Hd|].
      rewrite Hmem. split.
      * intros (_ & _ & Hpass). exact Hpass.
      * intros Hpass. split; [lia | auto].
  - intros a k ima imk d Hak Ha Hk HD Hpass.
    assert (Hkn : (k < length images)%nat) by (apply lookup_lt_is_Some; eauto).
    destruct (ix_groups_greedy (similar_at Distance images t) (length images))
      as [_ Hpair].
    apply Hpair; [lia|].
    rewrite (sim_defined Distance t images a k ima imk d Ha Hk HD). exact Hpass.
  - intros a b d -> HD.
    assert (Hg : groups = if passes Distance t (Hash a) (Hash b)
                          then [[a; b]] else []) by apply pair_groups.
    rewrite (passes_defined Distance t _ _ d HD) in Hg. rewrite Hg.
    destruct (F64.geb (similarity_of d) t).
    + split; [split; reflexivity | congruence].
    + split; [split; discriminate | reflexivity].
Qed.

(** On the album at the threshold 0.75 the images [b] and [c] share a
    group, that of [a], although they are 32 bits apart and fail the test
    between them; and of [a], [b] and an image 16 bits from [b] and 32 from
    [a], the last two pass the test between them and share no group. *)
Lemma threshold_boundary_counterexample :
  let z := PHash.img "z.jpg" (2 ^ 32 - 1) in
  let groups := fst (findSimilarImages PHash.Distance Demo.t75 Demo.album) in
  let groups' :=
    fst (findSimilarImages PHash.Distance Demo.t75
           {| w_images := [Demo.a; Demo.b; z]; w_stdout := [] |}) in
  (groups = [[Demo.a; Demo.b; Demo.c]] /\
   PHash.Distance (Hash Demo.b) (Hash Demo.c) = (32, nil_error) /\
   F64.geb (similarity_of 32) Demo.t75 = false) /\
  (groups' = [[Demo.a; Demo.b]] /\
   PHash.Distance (Hash Demo.b) (Hash z) = (16, nil_error) /\
   F64.geb (similarity_of 16) Demo.t75 = true).
Proof. vm_compute. repeat split. Qed.





(** ** The grouping pass on the heap *)

Section CellFacts.

Local Open Scope nat_scope.

Context {A : Type}.

Variable zero : A.
Variable slack : nat -> nat.

Lemma moved_lookup (cells : gmap nat A) (brk src n p : nat) :
  fold_left (fun c k => <[brk + k := Heap.cell zero cells (src + k)]> c)
            (seq 0 n) cells !! p
  = if decide (brk <= p < brk + n)
    then Some (Heap.cell zero cells (src + (p - brk)))
    else cells !! p.
Proof.
  induction n as [|n IH].
  - simpl. destruct (decide (brk <= p < brk + 0)); [lia | reflexivity].
  - rewrite seq_S, fold_left_app. simpl.
    destruct (decide (p = brk + n)) as [->|Hne].
    + rewrite lookup_insert_eq.
      destruct (decide (brk <= brk + n < brk + S n)); [|lia].
      do 2 f_equal. lia.
    + rewrite lookup_insert_ne by lia. rewrite IH.
      destruct (decide (brk <= p < brk + n)),
               (decide (brk <= p < brk + S n)); try reflexivity; lia.
Qed.

Lemma read_length (cells : gmap nat A) (s : Slice) :
  length (Heap.read zero cells s) = s_len s.
Proof. unfold Heap.read. rewrite length_map, length_seq. reflexivity. Qed.

Lemma read_lookup (cells : gmap nat A) (s : Slice) (k : nat) :
  k < s_len s ->
  Heap.read zero cells s !! k = Some (Heap.cell zero cells (s_ptr s + k)).
Proof.
  intros Hk. unfold Heap.read. rewrite list_lookup_fmap.
  rewrite lookup_seq_lt by exact Hk. reflexivity.
Qed.

(** Two memories that agree on the cells of a slice give the same
    elements. *)
Lemma read_ext (cells cells' : gmap nat A) (s s' : Slice) :
  s_len s' = s_len s ->
  (forall k, k < s_len s -> cells' !! (s_ptr s' + k) = cells !! (s_ptr s + k)) ->
  Heap.read zero cells' s' = Heap.read zero cells s.
Proof.
  intros Hlen Hsame. unfold Heap.read. rewrite Hlen.
  apply map_ext_in. intros k Hk. apply in_seq in Hk.
  unfold Heap.cell. rewrite Hsame by lia. reflexivity.
Qed.

Lemma read_snoc (cells : gmap nat A) (s s' : Slice) (x : A) :
  s_len s' = S (s_len s) ->
  (forall k, k < s_len s -> cells !! (s_ptr s' + k) = cells !! (s_ptr s + k)) ->
  cells !! (s_ptr s' + s_len s) = Some x ->
  Heap.read zero cells s' = Heap.read zero cells s ++ [x].
Proof.
  intros Hlen Hsame Hx. unfold Heap.read. rewrite Hlen, seq_S, map_app. simpl.
  f_equal.
  - apply map_ext_in. intros k Hk. apply in_seq in Hk.
    unfold Heap.cell. rewrite Hsame by lia. reflexivity.
  - unfold Heap.cell. rewrite Hx. reflexivity.
Qed.

(** What [append] does to a slice and to the memory. *)
Lemma append_spec (cells cells' : gmap nat A) (brk brk' : nat)
    (s s' : Slice) (x : A) :
  Heap.append zero slack cells brk s x = (s', cells', brk') ->
  s_ptr s + s_cap s <= brk ->
  Heap.read zero cells' s' = Heap.read zero cells s ++ [x] /\
  s_len s' = S (s_len s) /\
  s_len s' <= s_cap s' /\
  brk <= brk' /\
  s_ptr s' + s_cap s' <= brk' /\
  (forall p, p < brk -> (s_len s < s_cap s -> p <> s_ptr s + s_len s) ->
             cells' !! p = cells !! p) /\
  (forall B, B <= brk -> (s_len s < s_cap s -> B <= s_ptr s) -> B <= s_ptr s').
Proof.
  unfold Heap.append. intros Happ Halloc.
  destruct (s_len s <? s_cap s) eqn:Hroom.
  - apply Nat.ltb_lt in Hroom. inversion Happ; subst; clear Happ. simpl.
    split; [|repeat split; try lia].
    + transitivity (Heap.read zero (<[s_ptr s + s_len s := x]> cells) s ++ [x]).
      * apply read_snoc; [reflexivity | reflexivity |]. simpl.
        apply lookup_insert_eq.
      * f_equal. apply read_ext; [reflexivity|].
        intros k Hk. apply lookup_insert_ne. lia.
    + intros p Hp Hne. apply lookup_insert_ne. specialize (Hne Hroom). lia.
  - apply Nat.ltb_ge in Hroom. inversion Happ; subst; clear Happ. simpl.
    set (moved := fold_left _ _ _).
    split; [|repeat split; try lia].
    + transitivity (Heap.read zero (<[brk + s_len s := x]> moved)
                      {| s_ptr := brk; s_len := s_len s; s_cap := 0 |} ++ [x]).
      * apply read_snoc; [reflexivity | reflexivity |]. simpl.
        apply lookup_insert_eq.
      * f_equal. unfold Heap.read. simpl. apply map_ext_in.
        intros k Hk. apply in_seq in Hk. unfold Heap.cell at 1.
        rewrite lookup_insert_ne by lia. subst moved. rewrite moved_lookup.
        destruct (decide (brk <= brk + k < brk + s_len s)); [|lia].
        simpl. do 2 f_equal. lia.
    + intros p Hp _. rewrite lookup_insert_ne by lia. subst moved.
      rewrite moved_lookup. destruct (decide (brk <= p < brk + s_len s)); [lia|].
      reflexivity.
Qed.

End CellFacts.

Section HeapGroupingFacts.

Local Open Scope nat_scope.

Context {ImageHash : Type}.

Variable Distance : ImageHash -> ImageHash -> Z * error.
Variable zero : ImageInfo ImageHash.
Variable slack : nat -> nat.
Variable similarityThreshold : float64.
Variable images : Slice.

(** What was allocated and is untouched reads as before. *)
Lemma untouched_read_images (h h' : Heap.t ImageHash) (s : Slice) :
  untouched h h' -> allocated h s ->
  Heap.read_images zero h' s = Heap.read_images zero h s.
Proof.
  intros [_ Hsame] Hs. apply read_ext; [reflexivity|].
  intros k Hk. apply Hsame. unfold allocated in Hs. lia.
Qed.

Lemma untouched_read_groups (h h' : Heap.t ImageHash) (s : Slice) :
  untouched h h' -> allocated h s ->
  Forall (allocated h) (Heap.read nil_slice (Heap.h_slices h) s) ->
  Heap.read_groups zero h' s = Heap.read_groups zero h s.
Proof.
  intros Hun Hs Hgroups. unfold Heap.read_groups.
  assert (Heq : Heap.read nil_slice (Heap.h_slices h') s
                = Heap.read nil_slice (Heap.h_slices h) s).
  { apply read_ext; [reflexivity|]. intros k Hk. apply Hun.
    unfold allocated in Hs. lia. }
  rewrite Heq. apply map_ext_in. intros g Hg.
  apply untouched_read_images; [exact Hun|].
  rewrite Forall_forall in Hgroups. apply Hgroups. apply list_elem_of_In. exact Hg.
Qed.

Lemma untouched_refl (h : Heap.t ImageHash) : untouched h h.
Proof. split; [lia | auto]. Qed.

Lemma untouched_trans (h1 h2 h3 : Heap.t ImageHash) :
  untouched h1 h2 -> untouched h2 h3 -> untouched h1 h3.
Proof.
  intros [Hb12 H12] [Hb23 H23]. split; [lia|].
  intros p Hp. destruct (H12 p Hp) as [Hi Hs].
  destruct (H23 p ltac:(lia)) as [Hi' Hs']. split; congruence.
Qed.

(** One iteration of the inner loop. *)
Lemma inner_body_heap (B : nat) (href : Heap.t ImageHash) (i j : nat)
    (st : Heap.Inner) (pst : Inner) :
  s_ptr images + s_len images <= B ->
  i < s_len images -> j < s_len images ->
  heap_inner_rel zero B href st pst ->
  heap_inner_rel zero B href
    (Heap.inner_body Distance zero slack images similarityThreshold i st j)
    (inner_body Distance (Heap.read_images zero href images)
                similarityThreshold i pst j).
Proof.
  intros Himg Hi Hj Hrel.
  pose proof Hrel as (Hu & Ho & Hg & HB & Hcap & Hlc & Hfr & Hsl & Hbrk).
  unfold Heap.inner_body, inner_body. rewrite Hu.
  destruct (used_get (in_used pst) j); [exact Hrel|].
  unfold Heap.read_images at 1 2. rewrite !read_lookup by assumption.
  assert (Hidx : forall k, k < s_len images ->
            Heap.index zero (Heap.in_heap st) images k
            = Heap.cell zero (Heap.h_images href) (s_ptr images + k)).
  { intros k Hk. unfold Heap.index, Heap.cell. rewrite Hfr by lia. reflexivity. }
  rewrite !Hidx by assumption.
  set (imi := Heap.cell zero (Heap.h_images href) (s_ptr images + i)).
  set (imj := Heap.cell zero (Heap.h_images href) (s_ptr images + j)).
  destruct (Distance (Hash imi) (Hash imj)) as [d [e|]].
  - unfold heap_inner_rel. simpl. rewrite Ho. repeat split; assumption.
  - cbv zeta. destruct (F64.geb (similarity_of d) similarityThreshold);
      [|exact Hrel].
    unfold Heap.append_image.
    destruct (Heap.append zero slack (Heap.h_images (Heap.in_heap st))
                (Heap.h_brk (Heap.in_heap st)) (Heap.in_group st) imj)
      as [[s' cells'] brk'] eqn:Happ.
    apply append_spec in Happ
      as (Hread & Hlen & Hlc' & Hb & Hcap' & Hframe & Hptr); [|exact Hcap].
    unfold heap_inner_rel. simpl.
    split; [congruence|]. split; [exact Ho|]. split.
    { unfold Heap.read_images. simpl. rewrite Hread. f_equal. exact Hg. }
    split; [apply Hptr; [exact Hbrk | intros _; exact HB]|].
    split; [exact Hcap'|]. split; [exact Hlc'|]. split.
    { intros p Hp. rewrite Hframe; [apply Hfr; exact Hp | lia | lia]. }
    split; [exact Hsl | lia].
Qed.

Lemma inner_fold_heap (B : nat) (href : Heap.t ImageHash) (i : nat)
    (js : list nat) :
  s_ptr images + s_len images <= B ->
  i < s_len images ->
  Forall (fun j => j < s_len images) js ->
  forall (st : Heap.Inner) (pst : Inner),
    heap_inner_rel zero B href st pst ->
    heap_inner_rel zero B href
      (fold_left (Heap.inner_body Distance zero slack images similarityThreshold i)
                 js st)
      (fold_left (inner_body Distance (Heap.read_images zero href images)
                             similarityThreshold i) js pst).
Proof.
  intros Himg Hi Hjs. induction Hjs as [|j js Hj _ IH]; intros st pst Hrel.
  - exact Hrel.
  - simpl. apply IH. apply inner_body_heap; assumption.
Qed.

Lemma inner_loop_heap (B : nat) (href : Heap.t ImageHash) (i : nat)
    (st : Heap.Inner) (pst : Inner) :
  s_ptr images + s_len images <= B ->
  i < s_len images ->
  heap_inner_rel zero B href st pst ->
  heap_inner_rel zero B href
    (Heap.inner_loop Distance zero slack images similarityThreshold i st)
    (inner_loop Distance (Heap.read_images zero href images)
                similarityThreshold i pst).
Proof.
  intros Himg Hi Hrel. unfold Heap.inner_loop, inner_loop.
  replace (length (Heap.read_images zero href images)) with (s_len images)
    by (symmetry; apply read_length).
  apply inner_fold_heap; try assumption.
  apply Forall_forall. intros j Hj. apply elem_of_seq in Hj. lia.
Qed.

(** One iteration of the outer loop. *)
Lemma outer_body_heap (h0 : Heap.t ImageHash) (i : nat)
    (st : Heap.Outer) (pst : Outer) :
  allocated h0 images ->
  i < s_len images ->
  heap_outer_rel zero h0 st pst ->
  heap_outer_rel zero h0
    (Heap.outer_body Distance zero slack images similarityThreshold st i)
    (outer_body Distance (Heap.read_images zero h0 images)
                similarityThreshold pst i).
Proof.
  intros Himg Hi Hrel.
  pose proof Hrel as (Hu & Ho & Hg & Hun & Hlc & Hcap & Hnil & Hfin).
  unfold Heap.outer_body, outer_body. rewrite Hu.
  destruct (used_get (out_used pst) i); [exact Hrel|].
  set (h := Heap.out_heap st) in *.
  assert (Himages : Heap.read_images zero h0 images = Heap.read_images zero h images).
  { symmetry. apply untouched_read_images; assumption. }
  rewrite Himages.
  unfold Heap.read_images at 1. rewrite read_lookup by exact Hi.
  unfold Heap.literal. cbv zeta beta iota.
  fold (Heap.index zero h images i).
  set (imi := Heap.index zero h images i).
  set (h1 := {| Heap.h_images := <[Heap.h_brk h := imi]> (Heap.h_images h);
                Heap.h_slices := Heap.h_slices h;
                Heap.h_brk := S (Heap.h_brk h);
                Heap.h_stdout := Heap.h_stdout h |}).
  set (st1 := {| Heap.in_group := {| s_ptr := Heap.h_brk h; s_len := 1; s_cap := 1 |};
                 Heap.in_used := out_used pst;
                 Heap.in_heap := h1 |}).
  set (pst1 := {| in_group := [imi];
                  in_used := out_used pst;
                  in_out := out_stdout pst |}).
  destruct Hun as [Hb0 Hsame0].
  assert (HimgB : s_ptr images + s_len images <= Heap.h_brk h)
    by (unfold allocated in Himg; lia).
  assert (Hrel1 : heap_inner_rel zero (Heap.h_brk h) h st1 pst1).
  { unfold heap_inner_rel, st1, pst1, h1. simpl.
    split; [reflexivity|]. split; [exact Ho|]. split.
    { unfold Heap.read_images, Heap.read, Heap.cell. simpl.
      rewrite Nat.add_0_r, lookup_insert_eq. reflexivity. }
    split; [lia|]. split; [lia|]. split; [lia|]. split.
    { intros p Hp. apply lookup_insert_ne. lia. }
    split; [reflexivity | lia]. }
  pose proof (inner_loop_heap (Heap.h_brk h) h i st1 pst1 HimgB Hi Hrel1) as Hr.
  set (r := Heap.inner_loop Distance zero slack images similarityThreshold i st1) in *.
  set (pr := inner_loop Distance (Heap.read_images zero h images)
                        similarityThreshold i pst1) in *.
  destruct Hr as (Hu' & Ho' & Hg' & HB' & Hcap' & Hlc' & Hfr' & Hsl' & Hbrk').
  assert (Hlen : length (in_group pr) = s_len (Heap.in_group r)).
  { rewrite <- Hg'. unfold Heap.read_images. apply read_length. }
  rewrite Hlen.
  assert (Hold : forall g,
            g ∈ Heap.read nil_slice (Heap.h_slices h) (Heap.out_groups st) ->
            Heap.read zero (Heap.h_images (Heap.in_heap r)) g
            = Heap.read zero (Heap.h_images h) g).
  { intros g Hin. rewrite Forall_forall in Hfin. specialize (Hfin g Hin).
    apply read_ext; [reflexivity|]. intros k Hk. apply Hfr'. lia. }
  destruct (1 <? s_len (Heap.in_group r)).
  - unfold Heap.append_group.
    destruct (Heap.append nil_slice slack (Heap.h_slices (Heap.in_heap r))
                (Heap.h_brk (Heap.in_heap r)) (Heap.out_groups st)
                (Heap.in_group r))
      as [[s' cells'] brk'] eqn:Happ.
    apply append_spec in Happ
      as (Hread & Hlen' & Hlc'' & Hb & Hcap'' & Hframe & Hptr); [|lia].
    rewrite Hsl' in Hread.
    unfold heap_outer_rel. simpl.
    split; [exact Hu'|]. split; [exact Ho'|]. split.
    { unfold Heap.read_groups. simpl. rewrite Hread, map_app. simpl.
      f_equal.
      - rewrite <- Hg. unfold Heap.read_groups. apply map_ext_in.
        intros g Hin. apply Hold. apply list_elem_of_In. exact Hin.
      - f_equal. exact Hg'. }
    split.
    { split; [simpl; lia|]. simpl. intros p Hp. split.
      - rewrite Hfr' by lia. apply Hsame0. exact Hp.
      - rewrite Hframe; [rewrite Hsl'; apply Hsame0; exact Hp | lia |].
        intros Hroom. specialize (Hnil Hroom). lia. }
    split; [exact Hlc''|]. split; [exact Hcap''|]. split.
    { intros _. apply Hptr; [lia | exact Hnil]. }
    rewrite Hread. apply Forall_app. split.
    + eapply Forall_impl; [exact Hfin|]. simpl. intros g Hgb. lia.
    + apply Forall_singleton. lia.
  - unfold heap_outer_rel. simpl.
    split; [exact Hu'|]. split; [exact Ho'|]. split.
    { rewrite <- Hg. unfold Heap.read_groups. rewrite Hsl'. apply map_ext_in.
      intros g Hin. apply Hold. apply list_elem_of_In. exact Hin. }
    split.
    { split; [lia|]. intros p Hp. split.
      - rewrite Hfr' by lia. apply Hsame0. exact Hp.
      - rewrite Hsl'. apply Hsame0. exact Hp. }
    split; [exact Hlc|]. split; [lia|]. split; [exact Hnil|].
    rewrite Hsl'. eapply Forall_impl; [exact Hfin|]. simpl. intros g Hgb. lia.
Qed.

Lemma outer_fold_heap (h0 : Heap.t ImageHash) (l : list nat) :
  allocated h0 images ->
  Forall (fun i => i < s_len images) l ->
  forall (st : Heap.Outer) (pst : Outer),
    heap_outer_rel zero h0 st pst ->
    heap_outer_rel zero h0
      (fold_left (Heap.outer_body Distance zero slack images similarityThreshold)
                 l st)
      (fold_left (outer_body Distance (Heap.read_images zero h0 images)
                             similarityThreshold) l pst).
Proof.
  intros Himg Hl. induction Hl as [|i l Hi _ IH]; intros st pst Hrel.
  - exact Hrel.
  - simpl. apply IH. apply outer_body_heap; assumption.
Qed.

(** The call on the heap returns the groups of the call on lists, read
    from memory, prints the same lines, and touches nothing that was
    allocated before it; what it returns lies in the memory allocated
    when it ends. *)
Lemma findSimilarImages_heap (h : Heap.t ImageHash) :
  allocated h images ->
  let r := Heap.findSimilarImages Distance zero slack images similarityThreshold h in
  let p := findSimilarImages Distance similarityThreshold
             {| w_images := Heap.read_images zero h images;
                w_stdout := Heap.h_stdout h |} in
  Heap.read_groups zero (snd r) (fst r) = fst p /\
  Heap.h_stdout (snd r) = w_stdout (snd p) /\
  untouched h (snd r) /\
  allocated (snd r) (fst r) /\
  Forall (allocated (snd r)) (Heap.read nil_slice (Heap.h_slices (snd r)) (fst r)).
Proof.
  intros Himg r p.
  assert (Hrel : heap_outer_rel zero h
            (Heap.outer_loop Distance zero slack images similarityThreshold
               {| Heap.out_groups := nil_slice;
                  Heap.out_used := ∅;
                  Heap.out_heap := h |})
            (outer_loop Distance (Heap.read_images zero h images)
               similarityThreshold
               {| out_groups := []; out_used := ∅;
                  out_stdout := Heap.h_stdout h |})).
  { unfold Heap.outer_loop, outer_loop.
    replace (length (Heap.read_images zero h images)) with (s_len images)
      by (symmetry; apply read_length).
    apply outer_fold_heap; [exact Himg | |].
    - apply Forall_forall. intros i Hi. apply elem_of_seq in Hi. lia.
    - unfold heap_outer_rel. simpl.
      repeat split; try reflexivity; try lia; auto. }
  destruct Hrel as (_ & Ho & Hg & Hun & Hlc & Hcap & _ & Hfin).
  subst r p. unfold Heap.findSimilarImages, findSimilarImages. simpl.
  split; [exact Hg|]. split; [exact Ho|]. split; [exact Hun|].
  split; [unfold allocated; lia | exact Hfin].
Qed.

End HeapGroupingFacts.

Lemma allocated_later {ImageHash : Type} (h h' : Heap.t ImageHash) (s : Slice) :
  untouched h h' -> allocated h s -> allocated h' s.
Proof. intros [Hb _] Hs. unfold allocated in *. lia. Qed.

(** The groups the call on the heap returns are those of the list of
    images its slice holds, whatever else the memory holds. *)
Lemma heap_groups_of_input {ImageHash : Type}
    (Distance : ImageHash -> ImageHash -> Z * error)
    (zero : ImageInfo ImageHash) (slack : nat -> nat) (t : float64)
    (images : Slice) (h : Heap.t ImageHash) (out : list string) :
  allocated h images ->
  let r := Heap.findSimilarImages Distance zero slack images t h in
  Heap.read_groups zero (snd r) (fst r)
  = fst (findSimilarImages Distance t
           {| w_images := Heap.read_images zero h images; w_stdout := out |}).
Proof.
  intros Himg r.
  destruct (findSimilarImages_heap Distance zero slack t images h Himg)
    as (Hg & _).
  fold r in Hg. rewrite Hg, !findSimilarImages_positions. reflexivity.
Qed.

(** C8. With the slices of the program laid out in memory, a call of the
    grouping pass on a slice of images writes to no cell that was
    allocated before the call, so that the input slice holds afterwards
    what it held before; the groups it returns, read from memory, are
    those the function on lists gives for the images of the slice, and
    the lines it prints are the same.  A second call on the same slice, in
    the memory the first call left, returns groups with the same images
    in the same order and leaves the groups of the first call as they
    were; and a call on any slice that holds the same images, in any
    memory and however [append] grows its arrays, returns these groups
    too. *)
Theorem grouping_repeatable :
  forall (ImageHash : Type) (Distance : ImageHash -> ImageHash -> Z * error)
         (zero : ImageInfo ImageHash) (slack : nat -> nat) (t : float64)
         (images : Slice) (h : Heap.t ImageHash),
    allocated h images ->
    let first := Heap.findSimilarImages Distance zero slack images t h in
    let second :=
      Heap.findSimilarImages Distance zero slack images t (snd first) in
    let input := Heap.read_images zero h images in
    let listed :=
      findSimilarImages Distance t
        {| w_images := input; w_stdout := Heap.h_stdout h |} in
    untouched h (snd first) /\
    Heap.read_images zero (snd first) images = input /\
    Heap.read_groups zero (snd first) (fst first) = fst listed /\
    Heap.h_stdout (snd first) = w_stdout (snd listed) /\
    untouched (snd first) (snd second) /\
    Heap.read_images zero (snd second) images = input /\
    Heap.read_groups zero (snd second) (fst second)
    = Heap.read_groups zero (snd first) (fst first) /\
    Heap.read_groups zero (snd second) (fst first)
    = Heap.read_groups zero (snd first) (fst first) /\
    (forall (images' : Slice) (h' : Heap.t ImageHash) (slack' : nat -> nat),
       allocated h' images' ->
       Heap.read_images zero h' images' = input ->
       let other := Heap.findSimilarImages Distance zero slack' images' t h' in
       Heap.read_groups zero (snd other) (fst other)
       = Heap.read_groups zero (snd first) (fst first)).
Proof.
  intros ImageHash Distance zero slack t images h Himg first second input listed.
  destruct (findSimilarImages_heap Distance zero slack t images h Himg)
    as (Hg1 & Ho1 & Hun1 & Ha1 & Hfin1).
  fold first in Hg1, Ho1, Hun1, Ha1, Hfin1.
  assert (Himg1 : allocated (snd first) images)
    by (eapply allocated_later; eassumption).
  assert (Hin1 : Heap.read_images zero (snd first) images = input)
    by (apply untouched_read_images; assumption).
  destruct (findSimilarImages_heap Distance zero slack t images (snd first) Himg1)
    as (_ & _ & Hun2 & _ & _).
  fold second in Hun2.
  split; [exact Hun1|]. split; [exact Hin1|]. split; [exact Hg1|].
  split; [exact Ho1|]. split; [exact Hun2|]. split.
  { rewrite <- Hin1. apply untouched_read_images; assumption. }
  split.
  { subst second.
    rewrite (heap_groups_of_input Distance zero slack t images (snd first)
               (Heap.h_stdout h) Himg1).
    rewrite Hin1, Hg1. reflexivity. }
  split.
  { apply untouched_read_groups; assumption. }
  intros images' h' slack' Himg' Hsame other. subst other.
  rewrite (heap_groups_of_input Distance zero slack' t images' h'
             (Heap.h_stdout h) Himg').
  rewrite Hsame, Hg1. reflexivity.
Qed.

Lemma grouping_repeatable_witness :
  let first :=
    Heap.findSimilarImages PHash.Distance Demo.zero Demo.doubling
      Demo.album_slice Demo.t75 Demo.memory in
  let second :=
    Heap.findSimilarImages PHash.Distance Demo.zero Demo.doubling
      Demo.album_slice Demo.t75 (snd first) in
  let input := Heap.read_images Demo.zero Demo.memory Demo.album_slice in
  let listed :=
    findSimilarImages PHash.Distance Demo.t75
      {| w_images := input; w_stdout := Heap.h_stdout Demo.memory |} in
  untouched Demo.memory (snd first) /\
  Heap.read_images Demo.zero (snd first) Demo.album_slice = input /\
  Heap.read_groups Demo.zero (snd first) (fst first) = fst listed /\
  Heap.h_stdout (snd first) = w_stdout (snd listed) /\
  untouched (snd first) (snd second) /\
  Heap.read_images Demo.zero (snd second) Demo.album_slice = input /\
  Heap.read_groups Demo.zero (snd second) (fst second)
  = Heap.read_groups Demo.zero (snd first) (fst first) /\
  Heap.read_groups Demo.zero (snd second) (fst first)
  = Heap.read_groups Demo.zero (snd first) (fst first) /\
  (forall (images' : Slice) (h' : Heap.t PHash.t) (slack' : nat -> nat),
     allocated h' images' ->
     Heap.read_images Demo.zero h' images' = input ->
     let other :=
       Heap.findSimilarImages PHash.Distance Demo.zero slack' images'
         Demo.t75 h' in
     Heap.read_groups Demo.zero (snd other) (fst other)
     = Heap.read_groups Demo.zero (snd first) (fst first)).
Proof.
  apply (grouping_repeatable PHash.t PHash.Distance Demo.zero Demo.doubling
           Demo.t75 Demo.album_slice Demo.memory).
  unfold allocated. simpl. lia.
Defined.
